(** * caddy-json-parse: the mutation engine of [mutations.go]

    A shallow embedding of the path resolver ([findTargets], [walkTargets]),
    of the five actions ([applySet], [applyMerge], [applyDelete],
    [applyTransformArray], [applyMergeIfMatch]), of [clone], [deepEqual],
    [Action.compile] and [applyActions], and, of [jsonparse.go], of
    [Provision] and the two token splitters of the directive parser,
    followed by the properties of the specification that concern them and by
    further properties of the code. *)

From Stdlib Require Import ZArith Ascii String Bool Lia.
From Stdlib Require Import Floats.SpecFloat.
From stdpp Require Import gmap strings list fin_maps.

Local Open Scope string_scope.
Local Open Scope list_scope.
Local Open Scope Z_scope.

(** ** JSON values

    [encoding/json] decodes into [interface{}] holding one of: [nil], [bool],
    [float64], [string], [[]interface{}], [map[string]interface{}].  A
    [float64] is an IEEE 754 binary64 value ([spec_float]); a Go map has no
    order and no duplicate keys ([gmap]). *)

#[warnings="-register-all"]
Inductive json : Type :=
  | JNull
  | JBool (b : bool)
  | JNumber (f : spec_float)
  | JString (s : string)
  | JArray (l : list json)
  | JObject (m : gmap string json).

(** The [float64] that [encoding/json] produces for an integer literal. *)
Definition float64_of_Z (z : Z) : spec_float := binary_normalize 53 1024 z 0 false.

Definition JInt (z : Z) : json := JNumber (float64_of_Z z).

(** Go's [==] on two [float64]: IEEE equality ([NaN] differs from itself,
    the two zeros are equal). *)
Definition float64_eq (x y : spec_float) : bool := SFeqb x y.

Fixpoint json_size (v : json) : nat :=
  match v with
  | JArray l => S (foldr (λ x acc, json_size x + acc)%nat 0%nat l)
  | JObject m => S (map_fold (λ _ x acc, json_size x + acc)%nat 0%nat m)
  | _ => 1%nat
  end.

(** No number of the value is a [NaN]: true of every value that
    [json.Unmarshal] returns, since JSON has no literal for it. *)
Fixpoint decoded (v : json) : bool :=
  match v with
  | JNumber S754_nan => false
  | JArray l => forallb decoded l
  | JObject m => map_fold (λ _ x acc, acc && decoded x) true m
  | _ => true
  end.

(** ** The parts of Go's library the engine calls *)

(** Go's [int] is 64 bits wide on the platforms Caddy runs on. *)
Definition int_min : Z := - 2 ^ 63.
Definition int_max : Z := 2 ^ 63 - 1.

(** [a + b] on [int]: wraps around silently. *)
Definition int_wrap (z : Z) : Z := (z + 2 ^ 63) mod 2 ^ 64 - 2 ^ 63.

Definition digit_value (c : ascii) : option Z :=
  let n := Z.of_N (N_of_ascii c) - 48 in
  if (0 <=? n) && (n <=? 9) then Some n else None.

Fixpoint parse_digits (s : string) (acc : Z) : option Z :=
  match s with
  | EmptyString => Some acc
  | String c s' =>
      match digit_value c with
      | Some d => parse_digits s' (acc * 10 + d)
      | None => None
      end
  end.

(** [strconv.Atoi]: an optional sign, then one or more decimal digits; a
    value outside [int] is a range error.  [None] stands for [err != nil]. *)
Definition Atoi (s : string) : option Z :=
  match s with
  | EmptyString => None
  | String c rest =>
      let neg := Ascii.eqb c "-" in
      let body := if neg || Ascii.eqb c "+" then rest else s in
      match body with
      | EmptyString => None
      | _ =>
          match parse_digits body 0 with
          | Some n =>
              let v := if neg then - n else n in
              if (int_min <=? v) && (v <=? int_max) then Some v else None
          | None => None
          end
      end
  end.

(** [strings.Split(s, sep)] for a separator of one byte. *)
Fixpoint Split (s : string) (sep : ascii) : list string :=
  match s with
  | EmptyString => [""]
  | String c s' =>
      if Ascii.eqb c sep then "" :: Split s' sep
      else match Split s' sep with
           | h :: t => String c h :: t
           | [] => [String c ""]
           end
  end.

(** The white space of one byte: tab, line feed, vertical tab, form feed,
    carriage return, space. *)
Definition is_space (c : ascii) : bool :=
  let n := N_of_ascii c in
  ((9 <=? n) && (n <=? 13))%N || (n =? 32)%N.

(** [unicode.IsSpace] on the bytes of UTF-8.  Besides the six of one byte,
    the white space is U+0085 and U+00A0, of two bytes, and U+1680, U+2000 to
    U+200A, U+2028, U+2029, U+202F, U+205F and U+3000, of three. *)
Definition space2 (c1 c2 : ascii) : bool :=
  let '(b1, b2) := (N_of_ascii c1, N_of_ascii c2) in
  ((b1 =? 194) && ((b2 =? 133) || (b2 =? 160)))%N.

Definition space3 (c1 c2 c3 : ascii) : bool :=
  let '(b1, b2, b3) := (N_of_ascii c1, N_of_ascii c2, N_of_ascii c3) in
  (((b1 =? 225) && (b2 =? 154) && (b3 =? 128))
   || ((b1 =? 226) && (b2 =? 128)
       && (((128 <=? b3) && (b3 <=? 138)) || (b3 =? 168) || (b3 =? 169) || (b3 =? 175)))
   || ((b1 =? 226) && (b2 =? 129) && (b3 =? 159))
   || ((b1 =? 227) && (b2 =? 128) && (b3 =? 128)))%N.

(** [strings.TrimLeftFunc(s, unicode.IsSpace)]: runes are decoded from the
    front; bytes that are no encoding of a rune are no white space. *)
Fixpoint trim_left (s : string) : string :=
  match s with
  | EmptyString => EmptyString
  | String c1 s1 =>
      if is_space c1 then trim_left s1
      else
        match s1 with
        | String c2 s2 =>
            if space2 c1 c2 then trim_left s2
            else
              match s2 with
              | String c3 s3 => if space3 c1 c2 c3 then trim_left s3 else s
              | EmptyString => s
              end
        | EmptyString => s
        end
  end.

(** [strings.TrimRightFunc(s, unicode.IsSpace)] on the reversed bytes: the
    last rune is decoded from the end. *)
Fixpoint trim_reversed (s : string) : string :=
  match s with
  | EmptyString => EmptyString
  | String c3 s1 =>
      if is_space c3 then trim_reversed s1
      else
        match s1 with
        | String c2 s2 =>
            if space2 c2 c3 then trim_reversed s2
            else
              match s2 with
              | String c1 s3 => if space3 c1 c2 c3 then trim_reversed s3 else s
              | EmptyString => s
              end
        | EmptyString => s
        end
  end.

Definition string_rev (s : string) : string :=
  string_of_list_ascii (rev (list_ascii_of_string s)).

(** [strings.TrimSpace]: the white space of Unicode, at both ends. *)
Definition TrimSpace (s : string) : string :=
  string_rev (trim_reversed (string_rev (trim_left s))).

(** Errors are the messages [fmt.Errorf] builds. *)
Definition error : Type := string.

Inductive result (A : Type) : Type :=
  | Ok (a : A)
  | Err (e : error).
Arguments Ok {A} a.
Arguments Err {A} e.

(** Package [regexp]. [FindStringSubmatchIndex] returns [None] for [nil]. *)
Class RegexpPkg := {
  Regexp : Type;
  regexp_Compile : string → result Regexp;
  FindStringSubmatchIndex : Regexp → string → option (list Z);
  ExpandString : Regexp → string → string → list Z → string;
  MatchString : Regexp → string → bool;
}.

(** [json.Unmarshal] into an [interface{}]. *)
Class JsonPkg := {
  json_Unmarshal : string → result json;
}.

(** [caddyhttp.MatchExpression], provisioned from the [when] source text and
    matched against the request. *)
Class CaddyPkg := {
  Request : Type;
  MatchExpression : Type;
  Provision : string → result MatchExpression;
  Match : MatchExpression → Request → bool;
}.

(** The run time, as far as [make] goes.  [make] panics on a negative length
    and on one that, at the 16 bytes of an [interface{}], is above its
    [maxAlloc] of [2^48] bytes; below that the run ends when the memory it
    can get is used up.  [max_len] is the longest slice a run can make: it
    depends on the machine and is left open, but for the bound that [make]
    itself sets. *)
Class Runtime := {
  max_len : Z;
  max_len_limit : max_len ≤ 2 ^ 44;
}.

(** ** [clone] and [deepEqual] *)

(** [clone]: a fresh map or slice at every level, scalars as they are. *)
Fixpoint clone (v : json) : json :=
  match v with
  | JObject val => JObject (clone <$> val)
  | JArray val => JArray (clone <$> val)
  | _ => v
  end.

(** The [default] case of [deepEqual], [av == b] on interface values: the
    dynamic types must agree, then the values are compared. *)
Definition iface_eq (av b : json) : bool :=
  match av, b with
  | JNull, JNull => true
  | JBool x, JBool y => Bool.eqb x y
  | JNumber x, JNumber y => float64_eq x y
  | JString x, JString y => String.eqb x y
  | _, _ => false
  end.

(** [deepEqual].  In the map case [bv[k]] is Go's one-result index
    expression: it is [nil] when [bv] has no key [k]. *)
Fixpoint deepEqual (a b : json) : bool :=
  match a with
  | JObject av =>
      match b with
      | JObject bv =>
          if negb (size av =? size bv)%nat then false
          else map_fold (λ k v acc, acc && deepEqual v (default JNull (bv !! k))) true av
      | _ => false
      end
  | JArray av =>
      match b with
      | JArray bv =>
          if negb (length av =? length bv)%nat then false
          else (fix loop (xs ys : list json) {struct xs} : bool :=
                  match xs, ys with
                  | x :: xs', y :: ys' => deepEqual x y && loop xs' ys'
                  | _, _ => true
                  end) av bv
      | _ => false
      end
  | _ => iface_eq a b
  end.

(** ** Targets

    A Go map or slice is a reference, and the closures of a target keep the
    container they were built on ([v], [arr], [obj]) and write into it in
    place.  The tree under [*root] is built by [json.Unmarshal] and every
    value stored into it is a [clone], so a container has one owner: the
    slot of the tree it sits in.  The embedding keeps the tree as a value and
    passes it through every closure; the container a closure captured is read
    from the tree it runs on, through [load], the reading counterpart of the
    [setter] the source passes down.  [None] as the result of a closure is a
    run-time panic (an index out of range, a [make] that is refused), the
    end of a run that is out of memory, or a captured container that is no
    longer in the tree. *)

Record target : Type := mkTarget {
  get : json → option json;
  set : json → json → option json;
  del : option (json → option (bool * json));
}.

Definition as_array (v : option json) : option (list json) :=
  match v with Some (JArray a) => Some a | _ => None end.

Definition as_object (v : option json) : option (gmap string json) :=
  match v with Some (JObject m) => Some m | _ => None end.

(** [make([]interface{}, n)]: panics on a negative length; above the limit
    of the run there is no slice either, by the panic of [make] on a length
    out of range or by the end of a run that is out of memory. *)
Definition make_slice `{Runtime} (n : Z) : option (list json) :=
  if (n <? 0) || (max_len <? n) then None else Some (replicate (Z.to_nat n) JNull).

(** [copy(dst, src)]. *)
Definition copy (dst src : list json) : list json :=
  take (length dst) src ++ drop (length src) dst.

(** [len(v)] and [v[idx]] with its bounds check. *)
Definition len (v : list json) : Z := Z.of_nat (length v).

Definition in_range (idx : Z) (v : list json) : bool := (0 <=? idx) && (idx <? len v).

Section closures.
Context `{Runtime}.
Variable load : json → option json.
Variable setter : json → json → option json.

(** Reading the element a child walk starts from. *)
Definition elemLoad (idx : Z) (st : json) : option json :=
  v ← as_array (load st);
  if in_range idx v then v !! Z.to_nat idx else None.

Definition keyLoad (key : string) (st : json) : option json :=
  m ← as_object (load st); m !! key.

(** [v[idx] = newVal; setter(v)]: the [childSetter] of the [*] branch on a
    slice and of an index that is not the last segment. *)
Definition elemSetter (idx : Z) (newVal st : json) : option json :=
  v ← as_array (load st);
  if in_range idx v then setter (JArray (<[Z.to_nat idx := newVal]> v)) st
  else None.

(** [v[key] = newVal; setter(v)]. *)
Definition keySetter (key : string) (newVal st : json) : option json :=
  v ← as_object (load st);
  setter (JObject (<[key := newVal]> v)) st.

(** [get] of the [*] branch on a slice. *)
Definition elemGet (idx : Z) (st : json) : option json :=
  match as_array (load st) with
  | Some v => if (idx <? 0) || (len v <=? idx) then None else v !! Z.to_nat idx
  | None => None
  end.

(** [del] on a slice: [append(v[:idx], v[idx+1:]...)], then the setter. *)
Definition elemDel (idx : Z) (st : json) : option (bool * json) :=
  v ← as_array (load st);
  if (idx <? 0) || (len v <=? idx) then Some (false, st)
  else
    st' ← setter (JArray (take (Z.to_nat idx) v ++ drop (Z.to_nat (idx + 1)) v)) st;
    Some (true, st').

Definition keyGet (key : string) (st : json) : option json :=
  match as_object (load st) with
  | Some v => v !! key
  | None => None
  end.

Definition keyDel (key : string) (st : json) : option (bool * json) :=
  v ← as_object (load st);
  match v !! key with
  | Some _ => st' ← setter (JObject (delete key v)) st; Some (true, st')
  | None => Some (false, st)
  end.

(** [ensureIndex]: the slice itself when [idx] is in range, otherwise a
    slice of [idx+1] slots holding a copy, already stored by [arrSetter]. *)
Definition ensureIndex (idx : Z) (arr : list json) (st : json)
    : option (list json * json) :=
  if idx <? len arr then Some (arr, st)
  else
    grown ← make_slice (int_wrap (idx + 1));
    let grown := copy grown arr in
    st' ← setter (JArray grown) st;
    Some (grown, st').

(** [set] of a last index segment:
    [arr = ensureIndex(); arr[idx] = newVal; arrSetter(arr)]. *)
Definition indexSet (idx : Z) (newVal st : json) : option json :=
  arr ← as_array (load st);
  '(arr, st) ← ensureIndex idx arr st;
  if in_range idx arr then setter (JArray (<[Z.to_nat idx := newVal]> arr)) st
  else None.

(** [get] of a last index segment; [walkTargets] has checked [idx >= 0]. *)
Definition indexGet (idx : Z) (st : json) : option json :=
  match as_array (load st) with
  | Some arr => if idx <? len arr then arr !! Z.to_nat idx else None
  | None => None
  end.
End closures.

(** [walkTargets].  [current] is what the walk sees when it resolves the
    path; the closures it returns run later, on the tree of that moment.
    [range] over a map visits the keys in an order that Go leaves open; the
    walk takes the one of [map_to_list]. *)
Fixpoint walkTargets `{Runtime} (current : json) (load : json → option json)
    (setter : json → json → option json) (segments : list string)
    {struct segments} : list target :=
  match segments with
  | [] => []
  | seg :: rest =>
      let last := match rest with [] => true | _ => false end in
      if String.eqb seg "*" then
        match current with
        | JArray v =>
            concat (imap (λ i vi,
              let idx := Z.of_nat i in
              let childSetter := elemSetter load setter idx in
              if last then
                [ {| get := elemGet load idx;
                     set := childSetter;
                     del := Some (elemDel load setter idx) |} ]
              else walkTargets vi (elemLoad load idx) childSetter rest) v)
        | JObject v =>
            concat ((λ kv : string * json,
              let childSetter := keySetter load setter kv.1 in
              if last then
                [ {| get := keyGet load kv.1;
                     set := childSetter;
                     del := Some (keyDel load setter kv.1) |} ]
              else walkTargets kv.2 (keyLoad load kv.1) childSetter rest)
              <$> map_to_list v)
        | _ => []
        end
      else
        match Atoi seg with
        | Some idx =>
            match current with
            | JArray arr =>
                if 0 <=? idx then
                  if last then
                    [ {| get := indexGet load idx;
                         set := indexSet load setter idx;
                         del := Some (elemDel load setter idx) |} ]
                  else if idx <? len arr then
                    match arr !! Z.to_nat idx with
                    | Some child =>
                        walkTargets child (elemLoad load idx) (elemSetter load setter idx) rest
                    | None => []
                    end
                  else []
                else []
            | _ => []
            end
        | None =>
            match current with
            | JObject obj =>
                let childSetter := keySetter load setter seg in
                if last then
                  [ {| get := keyGet load seg;
                       set := childSetter;
                       del := Some (keyDel load setter seg) |} ]
                else
                  match obj !! seg with
                  | Some val => walkTargets val (keyLoad load seg) childSetter rest
                  | None => []
                  end
            | _ => []
            end
        end
  end.

(** [findTargets]: the root is read by [*root] and written by [*root = v]. *)
Definition findTargets `{Runtime} (root : json) (path : string) : list target :=
  walkTargets root (λ st, Some st) (λ v _, Some v) (Split path ".").

(** ** The actions *)

(** A [for _, t := range targets] loop whose body may panic. *)
Fixpoint foldM {S A : Type} (f : S → A → option S) (s : S) (l : list A) : option S :=
  match l with
  | [] => Some s
  | a :: l' => s' ← f s a; foldM f s' l'
  end.

(** [applySet]: the flag and the tree afterwards. *)
Definition applySet `{Runtime} (root : json) (path : string) (value : json)
    : option (bool * json) :=
  let targets := findTargets root path in
  if decide (length targets = 0%nat) then Some (false, root)
  else
    root' ← foldM (λ st t, set t (clone value) st) root targets;
    Some (true, root').

(** One turn of [for k, v := range src].  [dst] is the map stored at the
    target, so [dst[k] = clone(v)] is a write to the tree at the target. *)
Definition mergeKey (t : target) (acc : gmap string json * bool * json)
    (kv : string * json) : option (gmap string json * bool * json) :=
  let '(dst, changed, st) := acc in
  let write :=
    let dst' := <[kv.1 := clone kv.2]> dst in
    st' ← set t (JObject dst') st; Some (dst', true, st') in
  match dst !! kv.1 with
  | Some current => if deepEqual current kv.2 then Some acc else write
  | None => write
  end.

(** One turn of [for _, t := range targets] in [applyMerge]. *)
Definition mergeTarget (src : gmap string json) (acc : bool * json) (t : target)
    : option (bool * json) :=
  let '(changed, st) := acc in
  '(dstVal, st) ←
    match get t st with
    | Some JNull | None => st' ← set t (JObject ∅) st; Some (JObject ∅, st')
    | Some dstVal => Some (dstVal, st)
    end;
  match dstVal with
  | JObject dst =>
      '(_, changed, st) ← foldM (mergeKey t) (dst, changed, st) (map_to_list src);
      Some (changed, st)
  | _ => Some (changed, st)
  end.

(** [applyMerge]: the flag, the error and the tree afterwards. *)
Definition applyMerge `{Runtime} (root : json) (path : string) (value : json)
    : option (bool * option error * json) :=
  let targets := findTargets root path in
  if decide (length targets = 0%nat) then Some (false, None, root)
  else
    match value with
    | JObject src =>
        '(changed, root') ← foldM (mergeTarget src) (false, root) targets;
        Some (changed, None, root')
    | _ => Some (false, Some ("merge " ++ path ++ ": value must be an object")%string, root)
    end.

Definition deleteTarget (acc : bool * json) (t : target) : option (bool * json) :=
  let '(changed, st) := acc in
  match del t with
  | Some d =>
      match d st with
      | Some (true, st') => Some (true, st')
      | Some (false, st') => Some (changed, st')
      | None => None
      end
  | None => Some (changed, st)
  end.

Definition applyDelete `{Runtime} (root : json) (path : string) : option (bool * json) :=
  let targets := findTargets root path in
  if decide (length targets = 0%nat) then Some (false, root)
  else foldM deleteTarget (false, root) targets.

Section regexp.
Context `{Runtime} `{RegexpPkg}.

(** One turn of [for _, item := range arr] in [applyTransformArray]:
    [out] and [targetChanged]. *)
Definition transformItem (re : Regexp) (replacements : list string)
    (acc : list json * bool) (item : json) : list json * bool :=
  let '(out, targetChanged) := acc in
  match item with
  | JString str =>
      match FindStringSubmatchIndex re str with
      | None => ((out ++ [JString str])%list, targetChanged)
      | Some indices =>
          (foldl (λ out tmpl, (out ++ [JString (ExpandString re tmpl str indices)])%list)
             out replacements, true)
      end
  | _ => ((out ++ [item])%list, targetChanged)
  end.

Definition transformTarget (re : Regexp) (replacements : list string)
    (acc : bool * json) (t : target) : option (bool * json) :=
  let '(mutated, st) := acc in
  match get t st with
  | Some (JArray arr) =>
      let '(out, targetChanged) := foldl (transformItem re replacements) ([], false) arr in
      if targetChanged then st' ← set t (JArray out) st; Some (true, st')
      else Some (mutated, st)
  | _ => Some (mutated, st)
  end.

Definition applyTransformArray (root : json) (path : string) (re : Regexp)
    (replacements : list string) : option (bool * json) :=
  let targets := findTargets root path in
  if decide (length targets = 0%nat) then Some (false, root)
  else foldM (transformTarget re replacements) (false, root) targets.

(** The inner loop of [applyMergeIfMatch], with its [break]. *)
Fixpoint matchItems (re : Regexp) (arr : list json) : bool :=
  match arr with
  | [] => false
  | JString str :: arr' => if MatchString re str then true else matchItems re arr'
  | _ :: arr' => matchItems re arr'
  end.

(** The outer loop: [matched]. *)
Fixpoint matchSources (re : Regexp) (root : json) (sources : list target) : bool :=
  match sources with
  | [] => false
  | s :: sources' =>
      match get s root with
      | Some (JArray arr) =>
          if matchItems re arr then true else matchSources re root sources'
      | _ => matchSources re root sources'
      end
  end.

Definition applyMergeIfMatch (root : json) (sourcePath targetPath : string)
    (re : Regexp) (value : json) : option (bool * option error * json) :=
  let sources := findTargets root sourcePath in
  let matched := matchSources re root sources in
  if negb matched then Some (false, None, root)
  else applyMerge root targetPath value.
End regexp.

(** ** Actions, [compile] and [applyActions] *)

Section engine.
Context `{Runtime} `{RegexpPkg} `{JsonPkg} `{CaddyPkg}.

(** [Action]; [Type_] is the field [Type].  A [nil] [interface{}] is
    [JNull], a [nil] pointer is [None]. *)
Record Action : Type := mkAction {
  Type_ : string;
  Path : string;
  Value : string;
  Regex : string;
  Replacements : list string;
  Target : string;
  When : string;
  compiledRegex : option Regexp;
  compiledValue : json;
  matcher : option MatchExpression;
}.

Definition set_compiledValue (a : Action) (v : json) : Action :=
  mkAction (Type_ a) (Path a) (Value a) (Regex a) (Replacements a) (Target a)
    (When a) (compiledRegex a) v (matcher a).

Definition set_compiledRegex (a : Action) (re : Regexp) : Action :=
  mkAction (Type_ a) (Path a) (Value a) (Regex a) (Replacements a) (Target a)
    (When a) (Some re) (compiledValue a) (matcher a).

Definition set_matcher (a : Action) (me : MatchExpression) : Action :=
  mkAction (Type_ a) (Path a) (Value a) (Regex a) (Replacements a) (Target a)
    (When a) (compiledRegex a) (compiledValue a) (Some me).

Definition is_object (v : json) : bool :=
  match v with JObject _ => true | _ => false end.

(** The [switch a.Type] of [compile]: the action as the branch leaves it,
    and the error it returns, if any. *)
Definition compile_type (a : Action) : Action * option error :=
  let ty := Type_ a in
  if String.eqb ty "set" || String.eqb ty "merge" then
    if (String.length (Value a) =? 0)%nat then
      (a, Some (ty ++ " " ++ Path a ++ ": empty value")%string)
    else
      match json_Unmarshal (Value a) with
      | Err e => (a, Some (ty ++ " " ++ Path a ++ ": invalid JSON value: " ++ e)%string)
      | Ok v => (set_compiledValue a v, None)
      end
  else if String.eqb ty "delete" then (a, None)
  else if String.eqb ty "transform_array" then
    if String.eqb (Regex a) "" then
      (a, Some ("transform_array " ++ Path a ++ ": regex required")%string)
    else
      match regexp_Compile (Regex a) with
      | Err e => (a, Some ("transform_array " ++ Path a ++ ": invalid regex: " ++ e)%string)
      | Ok re =>
          if (length (Replacements a) =? 0)%nat then
            (a, Some ("transform_array " ++ Path a
                        ++ ": at least one replacement required")%string)
          else (set_compiledRegex a re, None)
      end
  else if String.eqb ty "merge_if_match" then
    if String.eqb (Regex a) "" then
      (a, Some ("merge_if_match " ++ Path a ++ ": regex required")%string)
    else if String.eqb (Target a) "" then
      (a, Some ("merge_if_match " ++ Path a ++ ": target path required")%string)
    else
      match regexp_Compile (Regex a) with
      | Err e => (a, Some ("merge_if_match " ++ Path a ++ ": invalid regex: " ++ e)%string)
      | Ok re =>
          match json_Unmarshal (Value a) with
          | Err e =>
              (a, Some ("merge_if_match " ++ Path a ++ ": invalid JSON value: " ++ e)%string)
          | Ok v =>
              if negb (is_object v) then
                (a, Some ("merge_if_match " ++ Path a ++ ": value must be an object")%string)
              else (set_compiledValue (set_compiledRegex a re) v, None)
          end
      end
  else (a, Some ("unsupported action type: " ++ ty)%string).

(** [Action.compile]: the receiver afterwards and the returned error. *)
Definition compile (a : Action) : Action * option error :=
  match compile_type a with
  | (a, Some e) => (a, Some e)
  | (a, None) =>
      if negb (String.eqb (TrimSpace (When a)) "") then
        match Provision (When a) with
        | Err e => (a, Some ("when " ++ Path a ++ ": " ++ e)%string)
        | Ok me => (set_matcher a me, None)
        end
      else (a, None)
  end.

(** [applyActions]: [mutated], the error and the tree afterwards.  A [nil]
    [compiledRegex] panics where it is handed over. *)
Fixpoint applyActions_from (mutated : bool) (root : json) (actions : list Action)
    (r : Request) : option (bool * option error * json) :=
  match actions with
  | [] => Some (mutated, None, root)
  | act :: actions' =>
      let skip :=
        match matcher act with
        | Some me => negb (Match me r)
        | None => false
        end in
      if skip then applyActions_from mutated root actions' r
      else
        let ty := Type_ act in
        if String.eqb ty "set" then
          '(changed, root') ← applySet root (Path act) (compiledValue act);
          applyActions_from (mutated || changed) root' actions' r
        else if String.eqb ty "merge" then
          '(changed, err, root') ← applyMerge root (Path act) (compiledValue act);
          match err with
          | Some e => Some (mutated, Some e, root')
          | None => applyActions_from (mutated || changed) root' actions' r
          end
        else if String.eqb ty "delete" then
          '(changed, root') ← applyDelete root (Path act);
          applyActions_from (mutated || changed) root' actions' r
        else if String.eqb ty "transform_array" then
          re ← compiledRegex act;
          '(changed, root') ← applyTransformArray root (Path act) re (Replacements act);
          applyActions_from (mutated || changed) root' actions' r
        else if String.eqb ty "merge_if_match" then
          re ← compiledRegex act;
          '(changed, err, root') ←
            applyMergeIfMatch root (Path act) (Target act) re (compiledValue act);
          match err with
          | Some e => Some (mutated, Some e, root')
          | None => applyActions_from (mutated || changed) root' actions' r
          end
        else Some (mutated, Some ("unsupported action type " ++ ty)%string, root)
  end.

Definition applyActions (root : json) (actions : list Action) (r : Request)
    : option (bool * option error * json) :=
  applyActions_from false root actions r.
End engine.

(** ** An engine for the examples

    [regexp] is not part of the repository.  The examples run on a small
    engine for a fragment of its syntax: literal bytes, [\] before a
    punctuation byte, [.], [^], [$], [|], [*], [+], [?] and capturing
    groups, matched leftmost-first as [regexp] does, with [Expand] as the
    package documents it for groups without names. *)

Inductive regex : Type :=
  | REmpty
  | RChar (c : ascii)
  | RAny
  | RBegin
  | REnd
  | RSeq (r1 r2 : regex)
  | RAlt (r1 r2 : regex)
  | RStar (r : regex)
  | RGroup (n : nat) (r : regex).

Definition captures : Type := list (option (Z * Z)).

Fixpoint set_capture (n : nat) (span : Z * Z) (cs : captures) : captures :=
  match n, cs with
  | O, [] => [Some span]
  | O, _ :: cs' => Some span :: cs'
  | S n', [] => None :: set_capture n' span []
  | S n', c :: cs' => c :: set_capture n' span cs'
  end.

Definition byte_at (s : string) (pos : Z) : option ascii :=
  if pos <? 0 then None else String.get (Z.to_nat pos) s.

(** Backtracking in priority order; [fuel] bounds the turns of a star, each
    of which has to consume input. *)
Fixpoint re_match (fuel : nat) : regex → string → Z → captures →
    (Z → captures → option captures) → option captures :=
  fix go (r : regex) (s : string) (pos : Z) (cs : captures)
      (k : Z → captures → option captures) {struct r} : option captures :=
    match r with
    | REmpty => k pos cs
    | RChar c =>
        match byte_at s pos with
        | Some c' => if Ascii.eqb c c' then k (pos + 1) cs else None
        | None => None
        end
    | RAny =>
        match byte_at s pos with
        | Some c' => if Ascii.eqb c' "010" then None else k (pos + 1) cs
        | None => None
        end
    | RBegin => if pos =? 0 then k pos cs else None
    | REnd => if pos =? Z.of_nat (String.length s) then k pos cs else None
    | RSeq r1 r2 => go r1 s pos cs (λ p c, go r2 s p c k)
    | RAlt r1 r2 =>
        match go r1 s pos cs k with
        | Some c => Some c
        | None => go r2 s pos cs k
        end
    | RGroup n r1 => go r1 s pos cs (λ p c, k p (set_capture n (pos, p) c))
    | RStar r1 =>
        match fuel with
        | O => k pos cs
        | S fuel' =>
            match go r1 s pos cs
                    (λ p c, if p =? pos then None else re_match fuel' (RStar r1) s p c k) with
            | Some c => Some c
            | None => k pos cs
            end
        end
    end.

Fixpoint re_groups (r : regex) : nat :=
  match r with
  | RSeq r1 r2 | RAlt r1 r2 => Nat.max (re_groups r1) (re_groups r2)
  | RStar r1 => re_groups r1
  | RGroup n r1 => Nat.max (S n) (re_groups r1)
  | _ => O
  end.

(** The leftmost match: the first start, in order, at which one exists. *)
Fixpoint re_search (n : nat) (r : regex) (s : string) (start : Z) : option captures :=
  match re_match (S (String.length s)) (RGroup 0 r) s start [] (λ _ c, Some c) with
  | Some c => Some c
  | None =>
      match n with
      | O => None
      | S n' => re_search n' r s (start + 1)
      end
  end.

Definition re_indices (r : regex) (cs : captures) : list Z :=
  flat_map (λ i, match cs !! i with
                 | Some (Some (a, b)) => [a; b]
                 | _ => [-1; -1]
                 end) (seq 0 (Nat.max 1 (re_groups r))).

Definition re_find (r : regex) (s : string) : option (list Z) :=
  re_indices r <$> re_search (String.length s) r s 0.

Definition is_digit (c : ascii) : bool :=
  let n := N_of_ascii c in ((48 <=? n) && (n <=? 57))%N.

Definition is_word (c : ascii) : bool :=
  let n := N_of_ascii c in
  (is_digit c || ((65 <=? n) && (n <=? 90)) || ((97 <=? n) && (n <=? 122)) || (n =? 95))%N.

Fixpoint take_word (s : string) : string * string :=
  match s with
  | String c s' =>
      if is_word c then let '(w, rest) := take_word s' in (String c w, rest)
      else (EmptyString, s)
  | EmptyString => (EmptyString, EmptyString)
  end.

(** The number a name stands for: digits only, no leading zero. *)
Definition name_number (name : string) : option Z :=
  match name with
  | String "0" (String _ _) => None
  | _ => if forallb is_digit (list_ascii_of_string name) then parse_digits name 0 else None
  end.

(** [extract]: the name after a [$], and the rest of the template. *)
Definition extract (s : string) : option (string * string) :=
  match s with
  | String "{" s' =>
      match take_word s' with
      | (String c w, String "}" rest) => Some (String c w, rest)
      | _ => None
      end
  | _ =>
      match take_word s with
      | (String c w, rest) => Some (String c w, rest)
      | _ => None
      end
  end.

Definition submatch (src : string) (m : list Z) (num : Z) : string :=
  match m !! Z.to_nat (2 * num), m !! Z.to_nat (2 * num + 1) with
  | Some a, Some b =>
      if 0 <=? a then String.substring (Z.to_nat a) (Z.to_nat (b - a)) src else ""
  | _, _ => ""
  end.

(** [Expand] for an expression whose groups have no names. *)
Fixpoint re_expand (fuel : nat) (template src : string) (m : list Z) : string :=
  match fuel with
  | O => template
  | S fuel' =>
      match template with
      | EmptyString => EmptyString
      | String "$" (String "$" rest) => String "$" (re_expand fuel' rest src m)
      | String "$" rest =>
          match extract rest with
          | None => String "$" (re_expand fuel' rest src m)
          | Some (name, rest') =>
              match name_number name with
              | Some num => (submatch src m num ++ re_expand fuel' rest' src m)%string
              | None => re_expand fuel' rest' src m
              end
          end
      | String c rest => String c (re_expand fuel' rest src m)
      end
  end.

Definition is_meta (c : ascii) : bool :=
  existsb (Ascii.eqb c) (list_ascii_of_string "\.+*?()|[]{}^$").

(** One repetition operator after an atom. *)
Definition parse_repeat (a : regex) (s : string) : regex * string :=
  match s with
  | String "*" s' => (RStar a, s')
  | String "+" s' => (RSeq a (RStar a), s')
  | String "?" s' => (RAlt a REmpty, s')
  | _ => (a, s)
  end.

(** The parser: alternatives, sequences, repeated atoms. *)
Fixpoint parse_alt (fuel : nat) (s : string) (n : nat) : option (regex * string * nat) :=
  match fuel with
  | O => None
  | S fuel' =>
      match parse_seq fuel' s n with
      | Some (r1, String "|" s', n1) =>
          match parse_alt fuel' s' n1 with
          | Some (r2, s'', n2) => Some (RAlt r1 r2, s'', n2)
          | None => None
          end
      | other => other
      end
  end
with parse_seq (fuel : nat) (s : string) (n : nat) : option (regex * string * nat) :=
  match fuel with
  | O => None
  | S fuel' =>
      match s with
      | EmptyString | String "|" _ | String ")" _ => Some (REmpty, s, n)
      | _ =>
          match parse_atom fuel' s n with
          | Some (a, s1, n1) =>
              let '(a, s2) := parse_repeat a s1 in
              match parse_seq fuel' s2 n1 with
              | Some (REmpty, s3, n3) => Some (a, s3, n3)
              | Some (r, s3, n3) => Some (RSeq a r, s3, n3)
              | None => None
              end
          | None => None
          end
      end
  end
with parse_atom (fuel : nat) (s : string) (n : nat) : option (regex * string * nat) :=
  match fuel with
  | O => None
  | S fuel' =>
      match s with
      | String "(" s' =>
          match parse_alt fuel' s' (S n) with
          | Some (r, String ")" s'', n') => Some (RGroup n r, s'', n')
          | _ => None
          end
      | String "\" (String c s') => if is_meta c then Some (RChar c, s', n) else None
      | String "." s' => Some (RAny, s', n)
      | String "^" s' => Some (RBegin, s', n)
      | String "$" s' => Some (REnd, s', n)
      | String c s' => if is_meta c then None else Some (RChar c, s', n)
      | EmptyString => None
      end
  end.

Definition re_compile (expr : string) : result regex :=
  match parse_alt (2 * String.length expr + 2) expr 1 with
  | Some (r, EmptyString, _) => Ok r
  | _ => Err ("error parsing regexp: " ++ expr)%string
  end.

#[local] Instance fragment_regexp : RegexpPkg := {|
  Regexp := regex;
  regexp_Compile := re_compile;
  FindStringSubmatchIndex := re_find;
  ExpandString := λ _ template src m, re_expand (S (String.length template)) template src m;
  MatchString := λ r s, bool_decide (is_Some (re_find r s));
|}.

(** [encoding/json] is not part of the repository either.  The examples
    decode with a small decoder: [null], [true], [false], integers, strings
    without escapes, arrays and objects. *)

(** The white space of JSON: space, tab, line feed, carriage return. *)
Definition json_space (c : ascii) : bool :=
  let n := N_of_ascii c in
  ((n =? 32) || (n =? 9) || (n =? 10) || (n =? 13))%N.

Fixpoint skip_space (s : string) : string :=
  match s with
  | String c s' => if json_space c then skip_space s' else s
  | EmptyString => EmptyString
  end.

Fixpoint take_digits (s : string) : string * string :=
  match s with
  | String c s' =>
      if is_digit c then let '(d, rest) := take_digits s' in (String c d, rest)
      else (EmptyString, s)
  | EmptyString => (EmptyString, EmptyString)
  end.

Fixpoint take_chars (s : string) : option (string * string) :=
  match s with
  | String "034"%char rest => Some (EmptyString, rest)
  | String "\" _ => None
  | String c s' =>
      match take_chars s' with
      | Some (w, rest) => Some (String c w, rest)
      | None => None
      end
  | EmptyString => None
  end.

Definition decode_int (neg : bool) (s : string) : option (json * string) :=
  match take_digits s with
  | (EmptyString, _) => None
  | (String "0" (String _ _), _) => None
  | (digits, rest) =>
      match rest with
      | String "." _ | String "e" _ | String "E" _ => None
      | _ =>
          match parse_digits digits 0 with
          | Some n => Some (JInt (if neg then - n else n), rest)
          | None => None
          end
      end
  end.

Fixpoint decode_value (fuel : nat) (s : string) : option (json * string) :=
  match fuel with
  | O => None
  | S fuel' =>
      match skip_space s with
      | String "n" (String "u" (String "l" (String "l" rest))) => Some (JNull, rest)
      | String "t" (String "r" (String "u" (String "e" rest))) => Some (JBool true, rest)
      | String "f" (String "a" (String "l" (String "s" (String "e" rest)))) =>
          Some (JBool false, rest)
      | String "034"%char rest =>
          match take_chars rest with
          | Some (w, rest') => Some (JString w, rest')
          | None => None
          end
      | String "[" rest =>
          match skip_space rest with
          | String "]" rest' => Some (JArray [], rest')
          | _ =>
              match decode_elements fuel' rest with
              | Some (l, rest') => Some (JArray l, rest')
              | None => None
              end
          end
      | String "{" rest =>
          match skip_space rest with
          | String "}" rest' => Some (JObject ∅, rest')
          | _ =>
              match decode_members fuel' rest ∅ with
              | Some (m, rest') => Some (JObject m, rest')
              | None => None
              end
          end
      | String "-" rest => decode_int true rest
      | other => decode_int false other
      end
  end
with decode_elements (fuel : nat) (s : string) : option (list json * string) :=
  match fuel with
  | O => None
  | S fuel' =>
      match decode_value fuel' s with
      | Some (v, rest) =>
          match skip_space rest with
          | String "]" rest' => Some ([v], rest')
          | String "," rest' =>
              match decode_elements fuel' rest' with
              | Some (l, rest'') => Some (v :: l, rest'')
              | None => None
              end
          | _ => None
          end
      | None => None
      end
  end
with decode_members (fuel : nat) (s : string) (m : gmap string json)
    : option (gmap string json * string) :=
  match fuel with
  | O => None
  | S fuel' =>
      match skip_space s with
      | String "034"%char rest =>
          match take_chars rest with
          | Some (key, rest1) =>
              match skip_space rest1 with
              | String ":" rest2 =>
                  match decode_value fuel' rest2 with
                  | Some (v, rest3) =>
                      match skip_space rest3 with
                      | String "}" rest4 => Some (<[key := v]> m, rest4)
                      | String "," rest4 => decode_members fuel' rest4 (<[key := v]> m)
                      | _ => None
                      end
                  | None => None
                  end
              | _ => None
              end
          | None => None
          end
      | _ => None
      end
  end.

Definition decode (data : string) : result json :=
  match decode_value (2 * String.length data + 2) data with
  | Some (v, rest) =>
      match skip_space rest with
      | EmptyString => Ok v
      | _ => Err "invalid character after top-level value"
      end
  | None => Err "invalid JSON"
  end.

#[local] Instance fragment_json : JsonPkg := {| json_Unmarshal := decode |}.

(** A matcher for the two constant expressions. *)
#[local] Instance constant_caddy : CaddyPkg := {|
  Request := unit;
  MatchExpression := bool;
  Provision := λ expr,
    if String.eqb expr "true" then Ok true
    else if String.eqb expr "false" then Ok false
    else Err ("unsupported expression: " ++ expr)%string;
  Match := λ me _, me;
|}.

(** A run that can make slices of up to [2^20] values. *)
#[local] Instance example_runtime : Runtime := {|
  max_len := 2 ^ 20;
  max_len_limit := ltac:(vm_compute; discriminate);
|}.

(** * Reasoning about walks

    ** Slots

    A [load] and a [setter] that belong together address one slot of the
    tree: what is stored is what is read back, a second store replaces the
    first, and storing what is there changes nothing. *)

Record slot (load : json → option json) (setter : json → json → option json) : Prop := {
  slot_put_get : ∀ st v, is_Some (load st) →
    ∃ st', setter v st = Some st' ∧ load st' = Some v;
  slot_put_put : ∀ st st' v w, is_Some (load st) →
    setter v st = Some st' → setter w st' = setter w st;
  slot_get_put : ∀ st v, load st = Some v → setter v st = Some st;
}.

(** ** What a walk and a loop over its targets do to the tree

    An action that reads a target and then stores at most one value into it
    is described by [u]: from what [get] returns ([None] when absent) to the
    value to store, if any, and the flag the target contributes.  [updT] is
    the container after every target below it was treated, [updC] the
    disjunction of the flags. *)

(** A target that takes every value: the store succeeds, the value is read
    back, and a later store stands for both. *)
Definition settable (t : target) (st : json) : Prop :=
  ∀ nv, ∃ st', set t nv st = Some st' ∧ get t st' = Some nv ∧ ∀ w, set t w st' = set t w st.

(** A target whose [set] panics whatever the value. *)
Definition unsettable (t : target) (st : json) : Prop := ∀ nv, set t nv st = None.

Section tree_update.
Variable u : option json → option json * bool.

(** What a slot holds once [u] was applied to it. *)
Definition after (c : option json) : option json :=
  match (u c).1 with Some nv => Some nv | None => c end.

Fixpoint updT (segments : list string) (cur : json) {struct segments} : json :=
  match segments with
  | [] => default cur (u (Some cur)).1
  | seg :: rest =>
      let last := match rest with [] => true | _ => false end in
      if String.eqb seg "*" then
        match cur with
        | JArray v => JArray (updT rest <$> v)
        | JObject m => JObject (updT rest <$> m)
        | _ => cur
        end
      else
        match Atoi seg with
        | Some idx =>
            match cur with
            | JArray arr =>
                if 0 <=? idx then
                  if idx <? len arr then JArray (alter (updT rest) (Z.to_nat idx) arr)
                  else if last then
                    match (u None).1 with
                    | Some nv =>
                        JArray (arr ++ replicate (Z.to_nat idx - length arr) JNull ++ [nv])
                    | None => cur
                    end
                  else cur
                else cur
            | _ => cur
            end
        | None =>
            match cur with
            | JObject m =>
                match m !! seg with
                | Some _ => JObject (alter (updT rest) seg m)
                | None =>
                    if last then
                      match (u None).1 with
                      | Some nv => JObject (<[seg := nv]> m)
                      | None => cur
                      end
                    else cur
                end
            | _ => cur
            end
        end
  end.

Fixpoint updC (segments : list string) (cur : json) {struct segments} : bool :=
  match segments with
  | [] => (u (Some cur)).2
  | seg :: rest =>
      let last := match rest with [] => true | _ => false end in
      if String.eqb seg "*" then
        match cur with
        | JArray v => existsb (updC rest) v
        | JObject m => existsb (λ kv, updC rest kv.2) (map_to_list m)
        | _ => false
        end
      else
        match Atoi seg with
        | Some idx =>
            match cur with
            | JArray arr =>
                if 0 <=? idx then
                  if idx <? len arr then
                    match arr !! Z.to_nat idx with
                    | Some x => updC rest x
                    | None => false
                    end
                  else if last then (u None).2
                  else false
                else false
            | _ => false
            end
        | None =>
            match cur with
            | JObject m =>
                match m !! seg with
                | Some x => updC rest x
                | None => if last then (u None).2 else false
                end
            | _ => false
            end
        end
  end.

(** Every slot a walk from [cur] along [segments] ends in holds something
    that satisfies [P]. *)
Fixpoint leavesAll (P : option json → Prop) (segments : list string) (cur : json)
    {struct segments} : Prop :=
  match segments with
  | [] => True
  | seg :: rest =>
      let child (x : json) :=
        match rest with [] => P (Some x) | _ => leavesAll P rest x end in
      if String.eqb seg "*" then
        match cur with
        | JArray v => Forall child v
        | JObject m => map_Forall (λ _, child) m
        | _ => True
        end
      else
        match Atoi seg with
        | Some idx =>
            match cur with
            | JArray arr =>
                if 0 <=? idx then
                  if idx <? len arr then
                    match arr !! Z.to_nat idx with
                    | Some x => child x
                    | None => True
                    end
                  else match rest with [] => P None | _ => True end
                else True
            | _ => True
            end
        | None =>
            match cur with
            | JObject m =>
                match m !! seg with
                | Some x => child x
                | None => match rest with [] => P None | _ => True end
                end
            | _ => True
            end
        end
  end.
End tree_update.

(** [mergeKey] and the loop over [src] on the map alone. *)
Definition mergeKeyPure (acc : gmap string json * bool) (kv : string * json)
    : gmap string json * bool :=
  match acc.1 !! kv.1 with
  | Some current =>
      if deepEqual current kv.2 then acc else (<[kv.1 := clone kv.2]> acc.1, true)
  | None => (<[kv.1 := clone kv.2]> acc.1, true)
  end.

Definition mergeMap (src dst : gmap string json) : gmap string json * bool :=
  foldl mergeKeyPure (dst, false) (map_to_list src).

(** What [applyMerge] stores into a target, from what the target holds. *)
Definition mergeVal (src : gmap string json) (c : option json) : option json * bool :=
  match c with
  | None | Some JNull =>
      let r := mergeMap src ∅ in (Some (JObject r.1), r.2)
  | Some (JObject dst) =>
      let r := mergeMap src dst in
      if r.2 then (Some (JObject r.1), true) else (None, false)
  | Some _ => (None, false)
  end.

(** A target the merge of [src] finds nothing to do at. *)
Definition merged (src : gmap string json) (c : option json) : Prop :=
  match c with
  | None | Some JNull => False
  | Some (JObject dst) => (mergeMap src dst).2 = false
  | Some _ => True
  end.

(** ** The words of the specification *)

(** The array after a store at index [idx] past its end: the elements it
    had, [Null] in every slot up to [idx], the value at [idx]. *)
Definition grown (arr : list json) (idx : Z) (v : json) : list json :=
  arr ++ replicate (Z.to_nat idx - length arr) JNull ++ [v].

Section spec_words.
Context `{Runtime} `{RegexpPkg}.

(** What [TransformArray] puts in the place of one element: a matching
    string gives one element per template, anything else passes through. *)
Definition transformed (re : Regexp) (replacements : list string) (item : json)
    : list json :=
  match item with
  | JString str =>
      match FindStringSubmatchIndex re str with
      | Some indices => (λ tmpl, JString (ExpandString re tmpl str indices)) <$> replacements
      | None => [item]
      end
  | _ => [item]
  end.

(** The element is a string that the expression matches. *)
Definition matches (re : Regexp) (item : json) : bool :=
  match item with
  | JString str => bool_decide (is_Some (FindStringSubmatchIndex re str))
  | _ => false
  end.

End spec_words.

(** ** Values and actions of the examples *)

Definition object (l : list (string * json)) : json := JObject (list_to_map l).

(** The target of the path [a] on a tree whose root is an object. *)
Definition target_a : target :=
  mkTarget (keyGet (λ st, Some st) "a")
    (keySetter (λ st, Some st) (λ v _, Some v) "a")
    (Some (keyDel (λ st, Some st) (λ v _, Some v) "a")).

(** [{type: merge, path: a, value: 5}], as authored. *)
Definition merge_a_5 : Action :=
  mkAction "merge" "a" "5" "" [] "" "" None JNull None.

Definition pixeldrain_uri : string := "https://pixeldrain.com/file1".

(** The two expressions of the examples, compiled. *)
Definition pixeldrain_re : regex :=
  match re_compile "^https://pixeldrain\.com/(.*)" with Ok r => r | Err _ => REmpty end.


(** The [index] target of the path [params.0] on a tree whose root is an
    object. *)
Definition target_params_0 : target :=
  mkTarget (indexGet (keyLoad (λ st, Some st) "params") 0)
    (indexSet (keyLoad (λ st, Some st) "params")
       (keySetter (λ st, Some st) (λ v _, Some v) "params") 0)
    (Some (elemDel (keyLoad (λ st, Some st) "params")
             (keySetter (λ st, Some st) (λ v _, Some v) "params") 0)).
Definition mirror_uri : string := "https://mirror.example.com/file1".
Definition mirror_templates : list string := ["$0"; "https://mirror.example.com/$1"].

(** A tree with two Arrays under [params], and the target of the path
    [params.*] for the element [i]. *)
Definition two_arrays : json :=
  object [("params", JArray [JArray [JString pixeldrain_uri];
                             JArray [JInt 7; JString pixeldrain_uri]])].

Definition target_params_any (i : Z) : target :=
  mkTarget (elemGet (keyLoad (λ st, Some st) "params") i)
    (elemSetter (keyLoad (λ st, Some st) "params")
       (keySetter (λ st, Some st) (λ v _, Some v) "params") i)
    (Some (elemDel (keyLoad (λ st, Some st) "params")
             (keySetter (λ st, Some st) (λ v _, Some v) "params") i)).

(** * The directive parser and the set-up of the handler ([jsonparse.go]) *)

(** [strings.Join]. *)
Fixpoint Join (elems : list string) (sep : string) : string :=
  match elems with
  | [] => ""
  | a :: rest =>
      match rest with
      | [] => a
      | _ :: _ => (a ++ sep ++ Join rest sep)%string
      end
  end.

(** The loop [for i, tok := range tokens] of [splitValueAndWhen] and of
    [splitReplsAndWhen], up to its [break] or [return]: the first [i] with
    [tok == "when"], counted from [i]. *)
Fixpoint when_index (tokens : list string) (i : nat) : option nat :=
  match tokens with
  | [] => None
  | tok :: rest => if String.eqb tok "when" then Some i else when_index rest (S i)
  end.

(** [splitValueAndWhen]: [value] and [when]. *)
Definition splitValueAndWhen (tokens : list string) : string * string :=
  match when_index tokens 0 with
  | Some i => (Join (take i tokens) " ", Join (drop (S i) tokens) " ")
  | None => (Join tokens " ", "")
  end.

(** [splitReplsAndWhen]: [repls] and [when]. *)
Definition splitReplsAndWhen (tokens : list string) : list string * string :=
  match when_index tokens 0 with
  | Some i => (take i tokens, Join (drop (S i) tokens) " ")
  | None => (tokens, "")
  end.

Section handler.
Context `{RegexpPkg} `{JsonPkg} `{CaddyPkg}.

(** [JSONParse], without its logger. *)
Record JSONParse : Type := mkJSONParse {
  Strict : bool;
  Actions : list Action;
}.

(** The loop of [Provision]: the actions as it leaves them, each compiled in
    place up to the first that fails, and the error it returns. *)
Fixpoint compileActions (actions : list Action) : list Action * option error :=
  match actions with
  | [] => ([], None)
  | a :: rest =>
      match compile a with
      | (a', Some e) => (a' :: rest, Some e)
      | (a', None) =>
          let '(rest', err) := compileActions rest in (a' :: rest', err)
      end
  end.

(** [JSONParse.Provision]: the receiver afterwards and the returned error. *)
Definition JSONParse_Provision (j : JSONParse) : JSONParse * option error :=
  let '(actions, err) := compileActions (Actions j) in
  (mkJSONParse (Strict j) actions, err).

(** What [compile] has established when it returns no error: the type is
    one that [applyActions] knows, the compiled parts that the type needs
    are there, and a condition that was written has its matcher. *)
Definition compiled (a : Action) : Prop :=
  Type_ a ∈ ["set"; "merge"; "delete"; "transform_array"; "merge_if_match"] ∧
  (Type_ a = "transform_array" → is_Some (compiledRegex a) ∧ Replacements a ≠ []) ∧
  (Type_ a = "merge_if_match" →
     is_Some (compiledRegex a) ∧ is_object (compiledValue a) = true ∧ Target a ≠ "") ∧
  (TrimSpace (When a) ≠ "" → is_Some (matcher a)).

(** The fields of an action that its author writes. *)
Definition authored (a : Action) : string * string * string * string * list string
    * string * string :=
  (Type_ a, Path a, Value a, Regex a, Replacements a, Target a, When a).
End handler.


(** Two actions as a configuration writes them, and one that lacks its
    expression. *)
Definition mirror_action : Action :=
  mkAction "transform_array" "params.0" "" "^https://pixeldrain\.com/(.*)" mirror_templates
    "" "" None JNull None.

Definition options_action : Action :=
  mkAction "merge_if_match" "params.0" "{}" "pixeldrain\.com" [] "params.1" "" None JNull None.

Definition no_regex_action : Action :=
  mkAction "transform_array" "params.0" "" "" mirror_templates "" "" None JNull None.

(** [{type: set, path: b, value: true}], and a Delete whose condition never
    holds. *)
Definition set_b_true : Action :=
  mkAction "set" "b" "true" "" [] "" "" None JNull None.

Definition delete_a_never : Action :=
  mkAction "delete" "a" "" "" [] "" "false" None JNull None.

(** The same with a [when] that is one no-break space, U+00A0: the bytes
    194 and 160. *)
Definition delete_a_when_nbsp : Action :=
  mkAction "delete" "a" "" "" [] "" (String "194"%char (String "160"%char ""))
    None JNull None.

(** * More words for the properties

    A path whose last segment, when it is an index, is below the longest
    slice the run can make: [ensureIndex] can grow an array up to it. *)
Definition growable `{Runtime} (segments : list string) : Prop :=
  ∀ seg idx, last segments = Some seg → Atoi seg = Some idx → idx < max_len.

(** The path ends in an index that no slice can be made for. *)
Definition beyond_limit `{Runtime} (segments : list string) : Prop :=
  ∃ seg idx, last segments = Some seg ∧ Atoi seg = Some idx ∧ max_len ≤ idx.

(** What [applySet] stores into a target: a clone of the value, whatever the
    target holds. *)
Definition setVal (value : json) (c : option json) : option json * bool :=
  (Some (clone value), true).

(** One turn of the loop of [applySet], with the flag that [applySet]
    returns once there is a target. *)
Definition setTarget (value : json) (acc : bool * json) (t : target)
    : option (bool * json) :=
  st' ← set t (clone value) acc.2; Some (true, st').

Section more_words.
Context `{RegexpPkg}.

(** What [applyTransformArray] stores into a target: nothing unless the
    target holds an Array with a string that matches. *)
Definition transformVal (re : Regexp) (replacements : list string) (c : option json)
    : option json * bool :=
  match c with
  | Some (JArray arr) =>
      if existsb (matches re) arr then
        (Some (JArray (concat (transformed re replacements <$> arr))), true)
      else (None, false)
  | _ => (None, false)
  end.
End more_words.


(** The elements of a list at its odd positions: the second, the fourth,
    and so on. *)
Fixpoint odds (l : list json) : list json :=
  match l with
  | _ :: y :: l' => y :: odds l'
  | _ => []
  end.

(** The value a Merge leaves under the key [k] of a target that held the
    Object [dst]. *)
Definition mergedEntry (src dst : gmap string json) (k : string) : option json :=
  match src !! k with
  | None => dst !! k
  | Some v =>
      match dst !! k with
      | Some w => if deepEqual w v then Some w else Some (clone v)
      | None => Some (clone v)
      end
  end.


(** A value that is neither an Array nor an Object. *)
Definition scalar (v : json) : bool :=
  match v with
  | JArray _ | JObject _ => false
  | _ => true
  end.

(** The two actions of [TestApplyActionsSetAndDelete]. *)
Definition set_a_b_10 : Action :=
  mkAction "set" "a.b" "10" "" [] "" "" None JNull None.

Definition delete_a_c : Action :=
  mkAction "delete" "a.c" "" "" [] "" "" None JNull None.


(** The container after the loop of [applyDelete] over the targets below
    it, and the flag of the loop.  Through [*] as the last segment an Array
    keeps its elements at the odd positions (see [odds]). *)
Fixpoint delT (segments : list string) (cur : json) {struct segments} : json :=
  match segments with
  | [] => cur
  | seg :: rest =>
      let last := match rest with [] => true | _ => false end in
      if String.eqb seg "*" then
        match cur with
        | JArray v => if last then JArray (odds v) else JArray (delT rest <$> v)
        | JObject m => if last then JObject ∅ else JObject (delT rest <$> m)
        | _ => cur
        end
      else
        match Atoi seg with
        | Some idx =>
            match cur with
            | JArray arr =>
                if 0 <=? idx then
                  if last then JArray (delete (Z.to_nat idx) arr)
                  else if idx <? len arr then JArray (alter (delT rest) (Z.to_nat idx) arr)
                  else cur
                else cur
            | _ => cur
            end
        | None =>
            match cur with
            | JObject m =>
                if last then JObject (delete seg m)
                else
                  match m !! seg with
                  | Some _ => JObject (alter (delT rest) seg m)
                  | None => cur
                  end
            | _ => cur
            end
        end
  end.

Fixpoint delC (segments : list string) (cur : json) {struct segments} : bool :=
  match segments with
  | [] => false
  | seg :: rest =>
      let last := match rest with [] => true | _ => false end in
      if String.eqb seg "*" then
        match cur with
        | JArray v => if last then bool_decide (v ≠ []) else existsb (delC rest) v
        | JObject m =>
            if last then bool_decide (m ≠ ∅)
            else existsb (λ kv, delC rest kv.2) (map_to_list m)
        | _ => false
        end
      else
        match Atoi seg with
        | Some idx =>
            match cur with
            | JArray arr =>
                if 0 <=? idx then
                  if last then bool_decide (idx < len arr)
                  else if idx <? len arr then
                    match arr !! Z.to_nat idx with
                    | Some x => delC rest x
                    | None => false
                    end
                  else false
                else false
            | _ => false
            end
        | None =>
            match cur with
            | JObject m =>
                if last then bool_decide (is_Some (m !! seg))
                else
                  match m !! seg with
                  | Some x => delC rest x
                  | None => false
                  end
            | _ => false
            end
        end
  end.

Section storable.
Context `{Runtime} `{RegexpPkg} `{JsonPkg} `{CaddyPkg}.

(** The path at which an action stores can be grown to: the one of a [set]
    or a [merge], the target path of a [merge_if_match]. *)
Definition storable (a : Action) : Prop :=
  (Type_ a = "set" ∨ Type_ a = "merge" → growable (Split (Path a) ".")) ∧
  (Type_ a = "merge_if_match" → growable (Split (Target a) ".")).
End storable.


(** * Properties *)

(** ** Induction on JSON values *)

Section any_run_1.
Context {run : Runtime}.

Lemma json_size_elem (l : list json) (x : json) :
  x ∈ l → (json_size x < json_size (JArray l))%nat.
Proof.
  induction 1 as [x l|x y l _ IH]; simpl in *; lia.
Qed.

Lemma json_size_lookup (m : gmap string json) (k : string) (x : json) :
  m !! k = Some x → (json_size x < json_size (JObject m))%nat.
Proof.
  intros Hk. simpl.
  rewrite (map_fold_delete_L _ _ k x m); [lia| |done].
  intros. lia.
Qed.

Lemma json_ind' (P : json → Prop) :
  P JNull →
  (∀ b, P (JBool b)) →
  (∀ f, P (JNumber f)) →
  (∀ s, P (JString s)) →
  (∀ l, Forall P l → P (JArray l)) →
  (∀ m, map_Forall (λ _, P) m → P (JObject m)) →
  ∀ v, P v.
Proof.
  intros HN HB HF HS HA HO v.
  remember (json_size v) as n eqn:Hn. revert v Hn.
  induction n as [n IHn] using lt_wf_ind. intros v ->.
  destruct v as [| | | |l|m]; auto.
  - apply HA, Forall_forall. intros x Hx.
    eapply IHn; [|reflexivity]. by apply json_size_elem.
  - apply HO. intros k x Hk.
    eapply IHn; [|reflexivity]. by eapply json_size_lookup.
Qed.

Lemma map_fold_andb (g : string → json → bool) (m : gmap string json) :
  map_fold (λ k x acc, acc && g k x) true m = true ↔
  map_Forall (λ k x, g k x = true) m.
Proof.
  rewrite map_fold_foldr, map_Forall_to_list.
  induction (map_to_list m) as [|[k x] l IH]; simpl.
  - split; [constructor|done].
  - rewrite andb_true_iff, IH, Forall_cons. simpl. tauto.
Qed.

Lemma decoded_lookup (m : gmap string json) (k : string) (x : json) :
  decoded (JObject m) = true → m !! k = Some x → decoded x = true.
Proof.
  simpl. rewrite map_fold_andb. intros Hm Hk. exact (Hm k x Hk).
Qed.

(** ** [clone] and [deepEqual] on values *)

(** A clone is the value itself: what [clone] adds is that the copy shares
    no container with the original, which a tree of values cannot tell. *)
Lemma clone_id (v : json) : clone v = v.
Proof.
  induction v as [| | | |l IH|m IH] using json_ind'; simpl; auto.
  - f_equal. rewrite <-(list_fmap_id l) at 2.
    apply Forall_fmap_ext. exact IH.
  - f_equal. rewrite <-(map_fmap_id m) at 2.
    apply map_fmap_ext. intros k x Hk. exact (IH k x Hk).
Qed.

Lemma float64_eq_refl (f : spec_float) : f ≠ S754_nan → float64_eq f f = true.
Proof.
  unfold float64_eq, SFeqb.
  destruct f as [s|s| |s m e]; simpl; try done.
  - by destruct s.
  - destruct s; rewrite Z.compare_refl, Pos.compare_cont_refl; done.
Qed.

Lemma deepEqual_array_loop (xs ys : list json) :
  length xs = length ys →
  (fix loop (xs ys : list json) {struct xs} : bool :=
     match xs, ys with
     | x :: xs', y :: ys' => deepEqual x y && loop xs' ys'
     | _, _ => true
     end) xs ys = true ↔
  ∀ i x y, xs !! i = Some x → ys !! i = Some y → deepEqual x y = true.
Proof.
  revert ys. induction xs as [|x xs IH]; intros [|y ys] Hlen; simplify_eq/=.
  - split; [intros _ i ?? H|]; done.
  - rewrite andb_true_iff, (IH ys) by done. split.
    + intros [Hxy Hrest] [|i] x' y' ??; simplify_eq/=; eauto.
    + intros Hall. split; [exact (Hall 0%nat x y eq_refl eq_refl)|].
      intros i x' y' ??. exact (Hall (S i) x' y' ltac:(done) ltac:(done)).
Qed.

(** What [deepEqual] computes on two slices. *)
Lemma deepEqual_array (av bv : list json) :
  deepEqual (JArray av) (JArray bv) = true ↔
  length av = length bv ∧
  ∀ i x y, av !! i = Some x → bv !! i = Some y → deepEqual x y = true.
Proof.
  simpl. destruct (Nat.eqb_spec (length av) (length bv)) as [Hlen|Hlen]; simpl.
  - rewrite deepEqual_array_loop by done. tauto.
  - split; [done|]. intros [? _]. done.
Qed.

(** What [deepEqual] computes on two maps: equal sizes, and every key of the
    first map holds a value equal to [bv[k]], which is [nil] for a key that
    [bv] lacks. *)
Lemma deepEqual_object (av bv : gmap string json) :
  deepEqual (JObject av) (JObject bv) = true ↔
  size av = size bv ∧
  ∀ k x, av !! k = Some x → deepEqual x (default JNull (bv !! k)) = true.
Proof.
  simpl. destruct (Nat.eqb_spec (size av) (size bv)) as [Hlen|Hlen]; simpl.
  - rewrite (map_fold_andb (λ k x, deepEqual x (default JNull (bv !! k)))).
    unfold map_Forall. tauto.
  - split; [done|]. intros [? _]. done.
Qed.

Lemma deepEqual_refl (v : json) : decoded v = true → deepEqual v v = true.
Proof.
  induction v as [|b|f|s|l IH|m IH] using json_ind'; intros Hd.
  - done.
  - simpl. by destruct b.
  - simpl. apply float64_eq_refl. by intros ->.
  - simpl. apply String.eqb_refl.
  - apply deepEqual_array. split; [done|].
    intros i x y Hx Hy. simplify_eq.
    rewrite Forall_forall in IH. apply IH; [by eapply list_elem_of_lookup_2|].
    simpl in Hd. rewrite forallb_forall in Hd. apply Hd.
    apply list_elem_of_In. by eapply list_elem_of_lookup_2.
  - apply deepEqual_object. split; [done|].
    intros k x Hk. rewrite Hk. simpl.
    apply (IH k x Hk). by eapply decoded_lookup.
Qed.

(** ** Slots *)

Lemma slot_root : slot (λ st, Some st) (λ v _, Some v).
Proof.
  split.
  - intros st v _. by exists v.
  - done.
  - intros st v [= ->]. done.
Qed.

Lemma in_range_lt (idx : Z) (v : list json) :
  in_range idx v = true ↔ 0 ≤ idx ∧ (Z.to_nat idx < length v)%nat.
Proof. unfold in_range, len. rewrite andb_true_iff, Z.leb_le, Z.ltb_lt. lia. Qed.

Lemma in_range_of_nat (i : nat) (v : list json) :
  in_range (Z.of_nat i) v = bool_decide (i < length v)%nat.
Proof.
  unfold in_range, len. case_bool_decide.
  - apply andb_true_iff. rewrite Z.leb_le, Z.ltb_lt. lia.
  - apply andb_false_iff. right. apply Z.ltb_ge. lia.
Qed.

Lemma in_range_insert (idx : Z) (i : nat) (x : json) (v : list json) :
  in_range idx (<[i := x]> v) = in_range idx v.
Proof. unfold in_range, len. by rewrite length_insert. Qed.

Section slot_children.
Context {load : json → option json} {setter : json → json → option json}.
Hypothesis Hslot : slot load setter.

Lemma elemLoad_array (idx : Z) (st : json) (v : list json) :
  load st = Some (JArray v) →
  elemLoad load idx st = if in_range idx v then v !! Z.to_nat idx else None.
Proof. unfold elemLoad. by intros ->. Qed.

Lemma elemLoad_Some (idx : Z) (st x : json) :
  elemLoad load idx st = Some x →
  ∃ v, load st = Some (JArray v) ∧ in_range idx v = true ∧ v !! Z.to_nat idx = Some x.
Proof.
  unfold elemLoad. destruct (load st) as [[| | | |v|]|]; try done. simpl.
  destruct (in_range idx v) eqn:Hr; [|done]. eauto.
Qed.

Lemma elemSetter_array (idx : Z) (st nv : json) (v : list json) :
  load st = Some (JArray v) → in_range idx v = true →
  elemSetter load setter idx nv st = setter (JArray (<[Z.to_nat idx := nv]> v)) st.
Proof. unfold elemSetter. intros -> Hr. simpl. by rewrite Hr. Qed.

Lemma keyLoad_object (key : string) (st : json) (m : gmap string json) :
  load st = Some (JObject m) → keyLoad load key st = m !! key.
Proof. unfold keyLoad. by intros ->. Qed.

Lemma keyLoad_Some (key : string) (st x : json) :
  keyLoad load key st = Some x →
  ∃ m, load st = Some (JObject m) ∧ m !! key = Some x.
Proof.
  unfold keyLoad. destruct (load st) as [[| | | | |m]|]; try done. simpl. eauto.
Qed.

Lemma keySetter_object (key : string) (st nv : json) (m : gmap string json) :
  load st = Some (JObject m) →
  keySetter load setter key nv st = setter (JObject (<[key := nv]> m)) st.
Proof. unfold keySetter. by intros ->. Qed.

(** The slot of an element of a slice that sits in a slot. *)
Lemma slot_elem (idx : Z) : slot (elemLoad load idx) (elemSetter load setter idx).
Proof.
  split.
  - intros st nv [x Hx]. apply elemLoad_Some in Hx as (v & Hv & Hr & Hx).
    destruct (slot_put_get _ _ Hslot st (JArray (<[Z.to_nat idx := nv]> v)))
      as (st' & Hset & Hload); [by rewrite Hv|].
    exists st'. rewrite (elemSetter_array _ _ _ v), (elemLoad_array _ _ _ Hload) by done.
    rewrite in_range_insert, Hr. split; [done|].
    apply list_lookup_insert_eq. by apply in_range_lt in Hr as [_ ?].
  - intros st st' nv w [x Hx] Hset. apply elemLoad_Some in Hx as (v & Hv & Hr & Hx).
    rewrite (elemSetter_array _ _ _ v) in Hset by done.
    destruct (slot_put_get _ _ Hslot st (JArray (<[Z.to_nat idx := nv]> v)))
      as (st'' & Hset' & Hload); [by rewrite Hv|].
    simplify_eq.
    rewrite (elemSetter_array _ _ _ _ Hload), (elemSetter_array _ _ _ v)
      by (by rewrite ?in_range_insert).
    rewrite list_insert_insert_eq.
    eapply slot_put_put; [done|by rewrite Hv|done].
  - intros st x Hx. apply elemLoad_Some in Hx as (v & Hv & Hr & Hx).
    rewrite (elemSetter_array _ _ _ v), list_insert_id by done.
    by apply (slot_get_put _ _ Hslot).
Qed.

(** The slot of a key of a map that sits in a slot. *)
Lemma slot_key (key : string) : slot (keyLoad load key) (keySetter load setter key).
Proof.
  split.
  - intros st nv [x Hx]. apply keyLoad_Some in Hx as (m & Hm & Hx).
    destruct (slot_put_get _ _ Hslot st (JObject (<[key := nv]> m)))
      as (st' & Hset & Hload); [by rewrite Hm|].
    exists st'. rewrite (keySetter_object _ _ _ m), (keyLoad_object _ _ _ Hload) by done.
    by rewrite lookup_insert_eq.
  - intros st st' nv w [x Hx] Hset. apply keyLoad_Some in Hx as (m & Hm & Hx).
    rewrite (keySetter_object _ _ _ m) in Hset by done.
    destruct (slot_put_get _ _ Hslot st (JObject (<[key := nv]> m)))
      as (st'' & Hset' & Hload); [by rewrite Hm|].
    simplify_eq.
    rewrite (keySetter_object _ _ _ _ Hload), (keySetter_object _ _ _ m) by done.
    rewrite insert_insert_eq.
    eapply slot_put_put; [done|by rewrite Hm|done].
  - intros st x Hx. apply keyLoad_Some in Hx as (m & Hm & Hx).
    rewrite (keySetter_object _ _ _ m), insert_id by done.
    by apply (slot_get_put _ _ Hslot).
Qed.
End slot_children.

(** ** [Atoi], [Split] and [int] *)

Lemma int_wrap_id (z : Z) : int_min ≤ z ≤ int_max → int_wrap z = z.
Proof.
  unfold int_min, int_max, int_wrap. intros Hz.
  rewrite Z.mod_small; lia.
Qed.

Lemma Atoi_range (s : string) (z : Z) : Atoi s = Some z → int_min ≤ z ≤ int_max.
Proof.
  unfold Atoi. destruct s as [|c rest]; [done|]. cbv zeta.
  destruct (if (Ascii.eqb c "-" || Ascii.eqb c "+")%bool then rest else String c rest);
    [done|].
  destruct (parse_digits _ _) as [n|]; [|done].
  destruct (_ && _) eqn:Hr; [|done]. intros [= <-].
  apply andb_true_iff in Hr as [?%Z.leb_le ?%Z.leb_le]. done.
Qed.

Lemma Atoi_star : Atoi "*" = None.
Proof. reflexivity. Qed.

Lemma digit_not_dot (c : ascii) (d : Z) : digit_value c = Some d → Ascii.eqb c "." = false.
Proof.
  destruct (Ascii.eqb_spec c ".") as [->|]; [|done]. by vm_compute.
Qed.

Lemma parse_digits_Split (s : string) (acc n : Z) :
  parse_digits s acc = Some n → Split s "." = [s].
Proof.
  revert acc. induction s as [|c s IH]; intros acc; simpl; [done|].
  destruct (digit_value c) as [d|] eqn:Hd; [|done].
  intros Hp. rewrite (digit_not_dot _ _ Hd), (IH _ Hp). done.
Qed.

(** A segment that [Atoi] accepts holds no dot: it is a path of its own. *)
Lemma Atoi_Split (s : string) (z : Z) : Atoi s = Some z → Split s "." = [s].
Proof.
  unfold Atoi. destruct s as [|c rest]; [done|].
  destruct (Ascii.eqb_spec c "-") as [->|Hm]; simpl.
  - destruct rest as [|c' rest']; [done|].
    destruct (parse_digits _ _) as [n|] eqn:Hp; [|done]. intros _.
    change (Split (String "-" (String c' rest')) ".")
      with (match Split (String c' rest') "." with
            | h :: t => String "-" h :: t
            | [] => [String "-" ""]
            end).
    by rewrite (parse_digits_Split _ _ _ Hp).
  - destruct (Ascii.eqb_spec c "+") as [->|Hp'].
    + destruct rest as [|c' rest']; [done|].
      destruct (parse_digits _ _) as [n|] eqn:Hp; [|done]. intros _.
      change (Split (String "+" (String c' rest')) ".")
        with (match Split (String c' rest') "." with
              | h :: t => String "+" h :: t
              | [] => [String "+" ""]
              end).
      by rewrite (parse_digits_Split _ _ _ Hp).
    + destruct (parse_digits _ _) as [n|] eqn:Hp; [|done]. intros _.
      exact (parse_digits_Split _ _ _ Hp).
Qed.

(** ** A last index segment *)

Section index_set.
Context {load : json → option json} {setter : json → json → option json}.
Hypothesis Hslot : slot load setter.

Lemma indexSet_in_range (idx : Z) (st nv : json) (arr : list json) :
  load st = Some (JArray arr) → in_range idx arr = true →
  indexSet load setter idx nv st = setter (JArray (<[Z.to_nat idx := nv]> arr)) st.
Proof.
  intros Hload Hr. unfold indexSet, ensureIndex. rewrite Hload. simpl.
  pose proof Hr as [_ ?%Z.ltb_lt]%andb_true_iff.
  rewrite (proj2 (Z.ltb_lt _ _)) by done. simpl. by rewrite Hr.
Qed.

Lemma copy_grown (n : nat) (arr : list json) :
  (length arr ≤ n)%nat →
  copy (replicate n JNull) arr = arr ++ replicate (n - length arr) JNull.
Proof.
  intros Hn. unfold copy. rewrite length_replicate, take_ge by done.
  by rewrite drop_replicate.
Qed.

Lemma insert_grown (k : nat) (arr : list json) (nv : json) :
  <[(length arr + k)%nat := nv]> (arr ++ replicate (S k) JNull)
  = arr ++ replicate k JNull ++ [nv].
Proof.
  rewrite insert_app_r. f_equal.
  rewrite replicate_S_end.
  rewrite <-(length_replicate k JNull) at 1.
  rewrite <-(Nat.add_0_r (length (replicate k JNull))).
  by rewrite insert_app_r.
Qed.

(** Growth: [idx+1] slots, the old elements, [nil] up to [idx], the value
    at [idx]; [arrSetter] runs twice and the second store stands. *)
Lemma indexSet_grow (idx : Z) (st nv : json) (arr : list json) :
  load st = Some (JArray arr) → len arr ≤ idx → idx < max_len →
  indexSet load setter idx nv st
  = setter (JArray (arr ++ replicate (Z.to_nat idx - length arr) JNull ++ [nv])) st.
Proof.
  intros Hload Hlen Hmax. unfold indexSet, ensureIndex. rewrite Hload. simpl.
  rewrite (proj2 (Z.ltb_ge _ _)) by done.
  unfold len in Hlen. pose proof max_len_limit as Hlimit.
  rewrite int_wrap_id by (unfold int_min, int_max in *; lia).
  unfold make_slice.
  rewrite (proj2 (Z.ltb_ge (idx + 1) 0)), (proj2 (Z.ltb_ge max_len (idx + 1))) by lia.
  simpl.
  rewrite copy_grown by lia.
  replace (Z.to_nat (idx + 1) - length arr)%nat
    with (S (Z.to_nat idx - length arr)) by lia.
  set (k := (Z.to_nat idx - length arr)%nat).
  destruct (slot_put_get _ _ Hslot st (JArray (arr ++ replicate (S k) JNull)))
    as (st1 & Hset & Hload1); [by rewrite Hload|].
  rewrite Hset. simpl. change (JNull :: replicate k JNull) with (replicate (S k) JNull).
  assert (in_range idx (arr ++ replicate (S k) JNull) = true) as ->.
  { apply in_range_lt. rewrite length_app, length_replicate. lia. }
  rewrite (slot_put_put _ _ Hslot st st1 _ _ ltac:(by rewrite Hload) Hset).
  replace (Z.to_nat idx) with (length arr + k)%nat by lia.
  by rewrite insert_grown.
Qed.

(** [idx+1] overflows for the largest [int]: [make] panics. *)
Lemma indexSet_overflow (st nv : json) (arr : list json) :
  load st = Some (JArray arr) → len arr ≤ int_max →
  indexSet load setter int_max nv st = None.
Proof.
  intros Hload Hlen. unfold indexSet, ensureIndex. rewrite Hload. simpl.
  rewrite (proj2 (Z.ltb_ge _ _)) by done. reflexivity.
Qed.

(** At or above the limit of the run [make] is refused. *)
Lemma indexSet_refused (idx : Z) (st nv : json) (arr : list json) :
  load st = Some (JArray arr) → len arr ≤ idx → max_len ≤ idx → idx ≤ int_max →
  indexSet load setter idx nv st = None.
Proof.
  intros Hload Hlen Hlim Hmax.
  destruct (decide (idx = int_max)) as [->|Hne]; [by eapply indexSet_overflow|].
  unfold indexSet, ensureIndex. rewrite Hload. simpl.
  rewrite (proj2 (Z.ltb_ge _ _)) by done.
  rewrite int_wrap_id by (unfold int_min, int_max in *; unfold len in *; lia).
  unfold make_slice. rewrite (proj2 (Z.ltb_lt max_len (idx + 1))) by lia.
  by rewrite orb_true_r.
Qed.
End index_set.

Lemma foldM_app {S A : Type} (f : S → A → option S) (s : S) (l1 l2 : list A) :
  foldM f s (l1 ++ l2) = s' ← foldM f s l1; foldM f s' l2.
Proof.
  revert s. induction l1 as [|a l1 IH]; intros s; simpl; [done|].
  destruct (f s a) as [s'|]; simpl; [apply IH|done].
Qed.

Lemma foldM_noop {S A : Type} (f : S → A → option S) (s : S) (l : list A) :
  Forall (λ a, f s a = Some s) l → foldM f s l = Some s.
Proof.
  induction 1 as [|a l Ha _ IH]; simpl; [done|]. by rewrite Ha.
Qed.

(** ** The targets of a walk can be stored into *)

Section target_laws.
Context {load : json → option json} {setter : json → json → option json}.
Hypothesis Hslot : slot load setter.

Lemma elemGet_array (idx : Z) (st : json) (v : list json) :
  load st = Some (JArray v) → in_range idx v = true →
  elemGet load idx st = v !! Z.to_nat idx.
Proof.
  intros Hload [H0%Z.leb_le Hl%Z.ltb_lt]%andb_true_iff.
  unfold elemGet. rewrite Hload. simpl.
  rewrite (proj2 (Z.ltb_ge idx 0)), (proj2 (Z.leb_gt (len v) idx)) by done. done.
Qed.

Lemma indexGet_array (idx : Z) (st : json) (arr : list json) :
  load st = Some (JArray arr) →
  indexGet load idx st = if idx <? len arr then arr !! Z.to_nat idx else None.
Proof. intros Hload. unfold indexGet. by rewrite Hload. Qed.

Lemma keyGet_object (key : string) (st : json) (m : gmap string json) :
  load st = Some (JObject m) → keyGet load key st = m !! key.
Proof. intros Hload. unfold keyGet. by rewrite Hload. Qed.

Lemma settable_elem (idx : Z) (st : json) (v : list json) d :
  load st = Some (JArray v) → in_range idx v = true →
  settable (mkTarget (elemGet load idx) (elemSetter load setter idx) d) st.
Proof.
  intros Hload Hr nv. simpl.
  assert (is_Some (elemLoad load idx st)) as Hsome.
  { rewrite (elemLoad_array _ _ _ Hload), Hr. apply lookup_lt_is_Some.
    by apply in_range_lt in Hr as [_ ?]. }
  destruct (slot_put_get _ _ (slot_elem Hslot idx) st nv Hsome) as (st' & Hset & Hget).
  exists st'. split; [done|]. split.
  - apply elemLoad_Some in Hget as (v' & Hv' & Hr' & Hx).
    by rewrite (elemGet_array _ _ _ Hv' Hr').
  - intros w. by eapply (slot_put_put _ _ (slot_elem Hslot idx)).
Qed.

Lemma settable_key (key : string) (st : json) (m : gmap string json) d :
  load st = Some (JObject m) →
  settable (mkTarget (keyGet load key) (keySetter load setter key) d) st.
Proof.
  intros Hload nv. simpl.
  destruct (slot_put_get _ _ Hslot st (JObject (<[key := nv]> m)))
    as (st' & Hset & Hload'); [by rewrite Hload|].
  exists st'. rewrite (keySetter_object _ _ _ _ Hload). split; [done|]. split.
  - by rewrite (keyGet_object _ _ _ Hload'), lookup_insert_eq.
  - intros w. rewrite (keySetter_object _ _ _ _ Hload'), (keySetter_object _ _ _ _ Hload).
    rewrite insert_insert_eq.
    eapply (slot_put_put _ _ Hslot); [by rewrite Hload|done].
Qed.

Lemma grown_lookup (k : nat) (arr : list json) (nv : json) :
  (arr ++ replicate k JNull ++ [nv]) !! (length arr + k)%nat = Some nv.
Proof.
  rewrite lookup_app_r by lia.
  replace (length arr + k - length arr)%nat with (length (replicate k JNull) + 0)%nat
    by (rewrite length_replicate; lia).
  by rewrite lookup_app_r, Nat.add_comm, Nat.add_sub by lia.
Qed.

Lemma grown_insert (k : nat) (arr : list json) (nv w : json) :
  <[(length arr + k)%nat := w]> (arr ++ replicate k JNull ++ [nv])
  = arr ++ replicate k JNull ++ [w].
Proof.
  rewrite insert_app_r. f_equal.
  rewrite <-(length_replicate k JNull) at 1.
  rewrite <-(Nat.add_0_r (length (replicate k JNull))).
  by rewrite insert_app_r.
Qed.

Lemma settable_index (idx : Z) (st : json) (arr : list json) d :
  load st = Some (JArray arr) → 0 ≤ idx → idx ≤ int_max →
  let t := mkTarget (indexGet load idx) (indexSet load setter idx) d in
  settable t st ∨ unsettable t st.
Proof.
  intros Hload H0 Hmax t.
  destruct (decide (idx < len arr)) as [Hin|Hout].
  - left. intros nv. simpl.
    assert (in_range idx arr = true) as Hr.
    { apply andb_true_iff. by rewrite Z.leb_le, Z.ltb_lt. }
    destruct (slot_put_get _ _ Hslot st (JArray (<[Z.to_nat idx := nv]> arr)))
      as (st' & Hset & Hload'); [by rewrite Hload|].
    exists st'. rewrite (indexSet_in_range _ _ _ _ Hload Hr).
    split; [done|]. split.
    + rewrite (indexGet_array _ _ _ Hload'). unfold len. rewrite length_insert.
      rewrite (proj2 (Z.ltb_lt _ _)) by done.
      apply list_lookup_insert_eq. unfold len in Hin. lia.
    + intros w.
      rewrite (indexSet_in_range _ _ _ _ Hload'), (indexSet_in_range _ _ _ _ Hload)
        by (by rewrite ?in_range_insert).
      rewrite list_insert_insert_eq.
      eapply (slot_put_put _ _ Hslot); [by rewrite Hload|done].
  - destruct (decide (idx < max_len)) as [Hlt|Hge].
    2:{ right. intros nv. simpl. apply (indexSet_refused _ _ _ arr); [done|lia..]. }
    + left. intros nv. simpl.
      assert (len arr ≤ idx) as Hlen by lia.
      set (k := (Z.to_nat idx - length arr)%nat).
      assert (Z.to_nat idx = (length arr + k)%nat) as Hk by (unfold len in *; lia).
      destruct (slot_put_get _ _ Hslot st (JArray (arr ++ replicate k JNull ++ [nv])))
        as (st' & Hset & Hload'); [by rewrite Hload|].
      exists st'. rewrite (indexSet_grow Hslot _ _ _ _ Hload Hlen Hlt). fold k.
      split; [done|].
      assert (in_range idx (arr ++ replicate k JNull ++ [nv]) = true) as Hr.
      { apply in_range_lt. rewrite !length_app, length_replicate. simpl. lia. }
      split.
      * rewrite (indexGet_array _ _ _ Hload').
        pose proof Hr as [_ ->]%andb_true_iff.
        rewrite Hk. apply grown_lookup.
      * intros w.
        rewrite (indexSet_in_range _ _ _ _ Hload' Hr).
        rewrite (indexSet_grow Hslot _ _ _ _ Hload Hlen Hlt). fold k.
        rewrite Hk, grown_insert.
        eapply (slot_put_put _ _ Hslot); [by rewrite Hload|done].
Qed.
End target_laws.

Lemma slot_load_after (load : json → option json) (setter : json → json → option json)
    (st st' v : json) :
  slot load setter → is_Some (load st) → setter v st = Some st' → load st' = Some v.
Proof.
  intros Hslot Hsome Hset.
  destruct (slot_put_get _ _ Hslot st v Hsome) as (st'' & Hset' & Hload).
  by simplify_eq.
Qed.

Lemma list_alter_lookup (f : json → json) (l : list json) (i : nat) (x : json) :
  l !! i = Some x → alter f i l = <[i := f x]> l.
Proof.
  intros Hx. rewrite list_insert_alter. apply list_alter_ext; [|done].
  intros y Hy. congruence.
Qed.

Lemma map_alter_lookup (f : json → json) (m : gmap string json) (k : string) (x : json) :
  m !! k = Some x → alter f k m = <[k := f x]> m.
Proof.
  intros Hx. apply map_eq. intros j.
  rewrite lookup_alter, lookup_insert. case_decide; subst; by rewrite ?Hx.
Qed.

Lemma foldl_insert_lookup (f : json → json) (l : list (string * json))
    (m0 : gmap string json) (k : string) :
  NoDup l.*1 →
  foldl (λ m kv, <[kv.1 := f kv.2]> m) m0 l !! k
  = match (list_to_map l : gmap string json) !! k with
    | Some x => Some (f x)
    | None => m0 !! k
    end.
Proof.
  revert m0. induction l as [|[k0 x0] l IH]; intros m0 Hnd; simpl.
  - by rewrite lookup_empty.
  - apply NoDup_cons in Hnd as [Hk0 Hnd]. rewrite (IH _ Hnd).
    rewrite (lookup_insert (list_to_map l)). case_decide; subst.
    + rewrite (not_elem_of_list_to_map_1 l k) by done. by rewrite lookup_insert_eq.
    + destruct (list_to_map l !! k); [done|]. by rewrite lookup_insert_ne.
Qed.

(** Storing [f] of every entry, one key after the other, maps [f] over the
    map: the order of [range] over a map does not show. *)
Lemma foldl_insert_fmap (f : json → json) (m : gmap string json) :
  foldl (λ m kv, <[kv.1 := f kv.2]> m) m (map_to_list m) = f <$> m.
Proof.
  apply map_eq. intros k.
  rewrite foldl_insert_lookup by apply NoDup_fst_map_to_list.
  rewrite list_to_map_to_list, lookup_fmap. by destruct (m !! k).
Qed.

(** ** A loop over the targets of a walk, as an update of the tree *)

Section walk_refines.
Variable u : option json → option json * bool.
Variable step : bool * json → target → option (bool * json).

(** The loop body reads the target, stores at most once, and adds a flag. *)
Hypothesis step_spec : ∀ t st c, settable t st ∨ unsettable t st →
  step (c, st) t =
    match u (get t st) with
    | (Some nv, b) => st' ← set t nv st; Some (c || b, st')
    | (None, b) => Some (c || b, st)
    end.

Lemma leaf_step (L : json → option json) (S : json → json → option json)
    (t : target) (st : json) (c c' : bool) (st' x : json) :
  slot L S → L st = Some x → get t st = Some x →
  (∀ nv, set t nv st = S nv st) →
  settable t st ∨ unsettable t st →
  step (c, st) t = Some (c', st') →
  S (updT u [] x) st = Some st' ∧ c' = c || updC u [] x.
Proof.
  intros HLS HL Hget Hset Hok. rewrite (step_spec _ _ _ Hok), Hget. simpl.
  destruct (u (Some x)) as [[nv|] b]; simpl.
  - rewrite Hset. destruct (S nv st) as [st''|]; simpl; [|done].
    intros [= <- <-]. done.
  - intros [= <- <-]. split; [|done]. by apply (slot_get_put _ _ HLS).
Qed.

Section loops.
Context {load : json → option json} {setter : json → json → option json}.
Hypothesis Hslot : slot load setter.

Lemma walk_array_loop (F : nat → json → list target) (f : json → json)
    (g : json → bool) :
  (∀ i x st c c' st', elemLoad load (Z.of_nat i) st = Some x →
     foldM step (c, st) (F i x) = Some (c', st') →
     elemSetter load setter (Z.of_nat i) (f x) st = Some st' ∧ c' = c || g x) →
  ∀ suf pre st c c' st',
    load st = Some (JArray (pre ++ suf)) →
    foldM step (c, st) (concat (imap (λ i, F (length pre + i)%nat) suf)) = Some (c', st') →
    setter (JArray (pre ++ (f <$> suf))) st = Some st' ∧ c' = c || existsb g suf.
Proof.
  intros Hchild. induction suf as [|x suf IH]; intros pre st c c' st' Hload Hfold.
  - simpl in *. injection Hfold as <- <-. rewrite app_nil_r in *.
    split; [by apply (slot_get_put _ _ Hslot)|by rewrite orb_false_r].
  - rewrite imap_cons in Hfold. simpl concat in Hfold. rewrite foldM_app in Hfold.
    destruct (foldM step (c, st) (F (length pre + 0)%nat x)) as [[cm stm]|] eqn:Hx;
      [|done].
    simpl in Hfold.
    assert (in_range (Z.of_nat (length pre + 0)) (pre ++ x :: suf) = true) as Hr.
    { rewrite in_range_of_nat. apply bool_decide_eq_true.
      rewrite length_app. simpl. lia. }
    assert (elemLoad load (Z.of_nat (length pre + 0)) st = Some x) as Hlx.
    { rewrite (elemLoad_array _ _ _ Hload), Hr, Nat2Z.id, Nat.add_0_r.
      by rewrite list_lookup_middle. }
    destruct (Hchild _ _ _ _ _ _ Hlx Hx) as [Hset ->].
    rewrite (elemSetter_array _ _ _ _ Hload Hr), Nat2Z.id in Hset.
    rewrite insert_app_r in Hset. simpl in Hset.
    pose proof (slot_load_after _ _ _ _ _ Hslot ltac:(by rewrite Hload) Hset) as Hloadm.
    rewrite (cons_middle (f x)), app_assoc in Hloadm.
    assert (foldM step (c || g x, stm)
              (concat (imap (λ i, F (length (pre ++ [f x]) + i)%nat) suf))
            = Some (c', st')) as Hfold'.
    { erewrite imap_ext; [exact Hfold|].
      intros i y _. simpl. f_equal. rewrite length_app. simpl. lia. }
    destruct (IH _ _ _ _ _ Hloadm Hfold') as [Hset' ->].
    split; [|simpl; by rewrite orb_assoc].
    rewrite <-(slot_put_put _ _ Hslot st stm _ _ ltac:(by rewrite Hload) Hset).
    by rewrite <-app_assoc in Hset'.
Qed.

Lemma walk_object_loop (F : string → json → list target) (f : json → json)
    (g : json → bool) :
  (∀ k x st c c' st', keyLoad load k st = Some x →
     foldM step (c, st) (F k x) = Some (c', st') →
     keySetter load setter k (f x) st = Some st' ∧ c' = c || g x) →
  ∀ (l : list (string * json)) m st c c' st',
    NoDup l.*1 → (∀ k x, (k, x) ∈ l → m !! k = Some x) →
    load st = Some (JObject m) →
    foldM step (c, st) (concat ((λ kv, F kv.1 kv.2) <$> l)) = Some (c', st') →
    setter (JObject (foldl (λ m kv, <[kv.1 := f kv.2]> m) m l)) st = Some st'
    ∧ c' = c || existsb (λ kv, g kv.2) l.
Proof.
  intros Hchild. induction l as [|[k x] l IH]; intros m st c c' st' Hnd Hin Hload Hfold.
  - simpl in *. injection Hfold as <- <-.
    split; [by apply (slot_get_put _ _ Hslot)|by rewrite orb_false_r].
  - simpl in Hfold. rewrite foldM_app in Hfold.
    destruct (foldM step (c, st) (F k x)) as [[cm stm]|] eqn:Hx; [|done].
    simpl in Hfold. apply NoDup_cons in Hnd as [Hk Hnd].
    assert (keyLoad load k st = Some x) as Hlx.
    { rewrite (keyLoad_object _ _ _ Hload). apply Hin. left. }
    destruct (Hchild _ _ _ _ _ _ Hlx Hx) as [Hset ->].
    rewrite (keySetter_object _ _ _ _ Hload) in Hset.
    pose proof (slot_load_after _ _ _ _ _ Hslot ltac:(by rewrite Hload) Hset) as Hloadm.
    assert (∀ k' x', (k', x') ∈ l → <[k := f x]> m !! k' = Some x') as Hin'.
    { intros k' x' Hin'. rewrite lookup_insert_ne; [apply Hin; by right|].
      intros <-. apply Hk. apply list_elem_of_fmap. by exists (k, x'). }
    destruct (IH _ _ _ _ _ Hnd Hin' Hloadm Hfold) as [Hset' ->].
    split; [|simpl; by rewrite orb_assoc]. simpl.
    by rewrite <-(slot_put_put _ _ Hslot st stm _ _ ltac:(by rewrite Hload) Hset).
Qed.
End loops.
Section one_segment.
Variable rest : list string.

(** The walk along the remaining segments, when there are any. *)
Hypothesis Hrec : ∀ x L S st c c' st',
  rest ≠ [] → slot L S → L st = Some x →
  foldM step (c, st) (walkTargets x L S rest) = Some (c', st') →
  S (updT u rest x) st = Some st' ∧ c' = c || updC u rest x.

Context {load : json → option json} {setter : json → json → option json}.
Hypothesis Hslot : slot load setter.

Lemma child_elem (i : Z) (x st : json) (c c' : bool) (st' : json) d :
  elemLoad load i st = Some x →
  foldM step (c, st)
    (if match rest with [] => true | _ => false end then [mkTarget (elemGet load i) (elemSetter load setter i) d]
     else walkTargets x (elemLoad load i) (elemSetter load setter i) rest)
  = Some (c', st') →
  elemSetter load setter i (updT u rest x) st = Some st' ∧ c' = c || updC u rest x.
Proof.
  intros Hx. destruct rest as [|seg' rest'] eqn:Hrest.
  - simpl. destruct (step (c, st) _) as [[c1 st1]|] eqn:Hstep; simpl; [|done].
    intros [= <- <-].
    apply elemLoad_Some in Hx as Hx'. destruct Hx' as (v & Hv & Hr & Hvx).
    eapply (leaf_step _ _ _ _ _ _ _ _ (slot_elem Hslot i) Hx); 
      [| |left; by eapply settable_elem|exact Hstep]; simpl.
    + by rewrite (elemGet_array _ _ _ Hv Hr).
    + done.
  - apply Hrec; [done|by apply slot_elem|done].
Qed.

Lemma child_key (k : string) (x st : json) (c c' : bool) (st' : json) d :
  keyLoad load k st = Some x →
  foldM step (c, st)
    (if match rest with [] => true | _ => false end then [mkTarget (keyGet load k) (keySetter load setter k) d]
     else walkTargets x (keyLoad load k) (keySetter load setter k) rest)
  = Some (c', st') →
  keySetter load setter k (updT u rest x) st = Some st' ∧ c' = c || updC u rest x.
Proof.
  intros Hx. destruct rest as [|seg' rest'] eqn:Hrest.
  - simpl. destruct (step (c, st) _) as [[c1 st1]|] eqn:Hstep; simpl; [|done].
    intros [= <- <-].
    apply keyLoad_Some in Hx as Hx'. destruct Hx' as (m & Hm & Hmx).
    eapply (leaf_step _ _ _ _ _ _ _ _ (slot_key Hslot k) Hx);
      [| |left; by eapply settable_key|exact Hstep]; simpl.
    + by rewrite (keyGet_object _ _ _ Hm).
    + done.
  - apply Hrec; [done|by apply slot_key|done].
Qed.
Lemma walk_segment (seg : string) (cur st : json) (c c' : bool) (st' : json) :
  load st = Some cur →
  foldM step (c, st) (walkTargets cur load setter (seg :: rest)) = Some (c', st') →
  setter (updT u (seg :: rest) cur) st = Some st'
  ∧ c' = c || updC u (seg :: rest) cur.
Proof.
  intros Hload Hfold.
  assert (foldM step (c, st) [] = Some (c', st') →
          setter cur st = Some st' ∧ c' = c || false) as Hnil.
  { intros [= <- <-]. split; [by apply (slot_get_put _ _ Hslot)|by rewrite orb_false_r]. }
  cbn [walkTargets updT updC] in *.
  destruct (String.eqb seg "*") eqn:Hstar.
  - destruct cur as [| | | |v|m]; try (exact (Hnil Hfold)).
    + eapply (walk_array_loop Hslot
                (λ i vi,
                   if match rest with [] => true | _ => false end then
                     [mkTarget (elemGet load (Z.of_nat i))
                        (elemSetter load setter (Z.of_nat i))
                        (Some (elemDel load setter (Z.of_nat i)))]
                   else walkTargets vi (elemLoad load (Z.of_nat i))
                          (elemSetter load setter (Z.of_nat i)) rest)
                (updT u rest) (updC u rest)) with (pre := []);
        [|exact Hload|exact Hfold].
      intros i x st0 c0 c0' st0'. apply child_elem.
    + rewrite <-foldl_insert_fmap.
      eapply (walk_object_loop Hslot
                (λ k x,
                   if match rest with [] => true | _ => false end then
                     [mkTarget (keyGet load k) (keySetter load setter k)
                        (Some (keyDel load setter k))]
                   else walkTargets x (keyLoad load k) (keySetter load setter k) rest)
                (updT u rest) (updC u rest));
        [|apply NoDup_fst_map_to_list| |exact Hload|exact Hfold].
      * intros k x st0 c0 c0' st0'. apply child_key.
      * intros k x. apply elem_of_map_to_list.
  - destruct (Atoi seg) as [idx|] eqn:Hidx.
    + destruct cur as [| | | |arr|m]; try (exact (Hnil Hfold)).
      destruct (Z.leb_spec 0 idx) as [H0|H0]; [|exact (Hnil Hfold)].
      pose proof (Atoi_range _ _ Hidx) as [_ Hmax].
      destruct (Z.ltb_spec idx (len arr)) as [Hin|Hout].
      * assert (in_range idx arr = true) as Hr.
        { apply andb_true_iff. by rewrite Z.leb_le, Z.ltb_lt. }
        destruct (arr !! Z.to_nat idx) as [x|] eqn:Hx.
        2:{ apply lookup_ge_None in Hx. unfold len in Hin. lia. }
        rewrite (list_alter_lookup _ _ _ _ Hx).
        rewrite <-(elemSetter_array (setter:=setter) _ _ _ _ Hload Hr).
        assert (elemLoad load idx st = Some x) as Hlx.
        { by rewrite (elemLoad_array _ _ _ Hload), Hr. }
        destruct rest as [|seg' rest'] eqn:Hrest.
        -- simpl in Hfold.
           destruct (step (c, st) _) as [[c1 st1]|] eqn:Hstep; simpl in Hfold; [|done].
           injection Hfold as <- <-.
           eapply (leaf_step _ _ _ _ _ _ _ _ (slot_elem Hslot idx) Hlx);
             [| |exact (settable_index Hslot idx st arr (Some (elemDel load setter idx)) Hload H0 Hmax)|exact Hstep];
             simpl.
           ++ rewrite (indexGet_array _ _ _ Hload).
              by rewrite (proj2 (Z.ltb_lt _ _)) by done.
           ++ intros nv.
              by rewrite (indexSet_in_range _ _ _ _ Hload Hr),
                         (elemSetter_array _ _ _ _ Hload Hr).
        -- apply (Hrec _ (elemLoad load idx)); [done|by apply slot_elem|done|done].
      * destruct rest as [|seg' rest'] eqn:Hrest; [|exact (Hnil Hfold)].
        simpl in Hfold.
        destruct (step (c, st) _) as [[c1 st1]|] eqn:Hstep; simpl in Hfold; [|done].
        injection Hfold as <- <-.
        rewrite (step_spec _ _ _ (settable_index Hslot idx st arr (Some (elemDel load setter idx)) Hload H0 Hmax)) in Hstep.
        simpl in Hstep. rewrite (indexGet_array _ _ _ Hload) in Hstep.
        rewrite (proj2 (Z.ltb_ge _ _)) in Hstep by done.
        destruct (u None) as [[nv|] b]; simpl in *.
        -- destruct (decide (idx < max_len)) as [Hlt|Hge].
           2:{ rewrite (indexSet_refused _ _ _ arr) in Hstep by (done || lia). done. }
           rewrite (indexSet_grow Hslot _ _ _ _ Hload) in Hstep by lia.
           destruct (setter _ st) as [st2|]; simpl in Hstep; [|done].
           by injection Hstep as <- <-.
        -- injection Hstep as <- <-. split; [|done].
           by apply (slot_get_put _ _ Hslot).
    + destruct cur as [| | | |arr|m]; try (exact (Hnil Hfold)).
      destruct (m !! seg) as [x|] eqn:Hx.
      * rewrite (map_alter_lookup _ _ _ _ Hx).
        rewrite <-(keySetter_object (setter:=setter) _ _ _ _ Hload).
        eapply child_key; [|exact Hfold].
        by rewrite (keyLoad_object _ _ _ Hload).
      * destruct rest as [|seg' rest'] eqn:Hrest; [|exact (Hnil Hfold)].
        simpl in Hfold.
        destruct (step (c, st) _) as [[c1 st1]|] eqn:Hstep; simpl in Hfold; [|done].
        injection Hfold as <- <-.
        rewrite (step_spec _ _ _ (or_introl (settable_key Hslot seg st m (Some (keyDel load setter seg)) Hload))) in Hstep.
        simpl in Hstep. rewrite (keyGet_object _ _ _ Hload), Hx in Hstep.
        destruct (u None) as [[nv|] b]; simpl in *.
        -- rewrite (keySetter_object _ _ _ _ Hload) in Hstep.
           destruct (setter _ st) as [st2|]; simpl in Hstep; [|done].
           by injection Hstep as <- <-.
        -- injection Hstep as <- <-. split; [|done].
           by apply (slot_get_put _ _ Hslot).
Qed.
End one_segment.
(** The loop over the targets of a walk stores, through [setter], the
    container that [updT] computes, and adds the flag that [updC] computes. *)
Lemma walk_fold (rest : list string) :
  ∀ seg cur load setter st c c' st',
    slot load setter → load st = Some cur →
    foldM step (c, st) (walkTargets cur load setter (seg :: rest)) = Some (c', st') →
    setter (updT u (seg :: rest) cur) st = Some st'
    ∧ c' = c || updC u (seg :: rest) cur.
Proof.
  induction rest as [|seg' rest IH]; intros seg cur load setter st c c' st' Hslot Hload Hfold.
  - eapply walk_segment; [|done..]. intros x L S st0 c0 c0' st0' Hne. done.
  - eapply walk_segment; [|done..]. intros x L S st0 c0 c0' st0' _. apply IH.
Qed.
End walk_refines.

(** ** What the targets of a walk read *)

Lemma Forall_concat_imap {A B : Type} (Q : B → Prop) (F : nat → A → list B) (l : list A) :
  (∀ i x, l !! i = Some x → Forall Q (F i x)) → Forall Q (concat (imap F l)).
Proof.
  revert F. induction l as [|a l IH]; intros F HF; simpl; [constructor|].
  apply Forall_app. split; [by apply (HF 0%nat)|].
  apply IH. intros i x Hx. by apply (HF (S i)).
Qed.

Lemma Forall_concat_fmap {A B : Type} (Q : B → Prop) (F : A → list B) (l : list A) :
  (∀ x, x ∈ l → Forall Q (F x)) → Forall Q (concat (F <$> l)).
Proof.
  induction l as [|a l IH]; intros HF; simpl; [constructor|].
  apply Forall_app. split; [apply HF; left|].
  apply IH. intros x Hx. apply HF. by right.
Qed.

Lemma walk_leaves (P : option json → Prop) (segments : list string) :
  ∀ cur load setter st,
    load st = Some cur → leavesAll P segments cur →
    Forall (λ t, P (get t st)) (walkTargets cur load setter segments).
Proof.
  induction segments as [|seg rest IH]; intros cur load setter st Hload Hall; [constructor|].
  cbn [walkTargets leavesAll] in *.
  assert (∀ x L S t, L st = Some x → get t st = L st →
            match rest with [] => P (Some x) | _ :: _ => leavesAll P rest x end →
            Forall (λ t, P (get t st))
              (if match rest with [] => true | _ => false end then [t]
               else walkTargets x L S rest)) as Hchild.
  { intros x L S t HL Hget Hx. destruct rest as [|seg' rest'].
    - constructor; [|constructor]. by rewrite Hget, HL.
    - by apply IH. }
  destruct (String.eqb seg "*").
  - destruct cur as [| | | |v|m]; try constructor.
    + apply Forall_concat_imap. intros i x Hx.
      assert (in_range (Z.of_nat i) v = true) as Hr.
      { rewrite in_range_of_nat. apply bool_decide_eq_true. by eapply lookup_lt_Some. }
      apply Hchild.
      * by rewrite (elemLoad_array _ _ _ Hload), Hr, Nat2Z.id.
      * simpl. rewrite (elemGet_array _ _ _ Hload Hr), (elemLoad_array _ _ _ Hload), Hr. done.
      * rewrite Forall_forall in Hall. apply Hall. by eapply list_elem_of_lookup_2.
    + apply Forall_concat_fmap. intros [k x] Hkx%elem_of_map_to_list.
      apply Hchild.
      * by rewrite (keyLoad_object _ _ _ Hload).
      * simpl. by rewrite (keyGet_object _ _ _ Hload), (keyLoad_object _ _ _ Hload).
      * exact (Hall k x Hkx).
  - destruct (Atoi seg) as [idx|].
    + destruct cur as [| | | |arr|m]; try constructor.
      destruct (Z.leb_spec 0 idx) as [H0|H0]; [|constructor].
      destruct (Z.ltb_spec idx (len arr)) as [Hin|Hout].
      * assert (in_range idx arr = true) as Hr.
        { apply andb_true_iff. by rewrite Z.leb_le, Z.ltb_lt. }
        destruct (arr !! Z.to_nat idx) as [x|] eqn:Hx.
        2:{ apply lookup_ge_None in Hx. unfold len in Hin. lia. }
        destruct rest as [|seg' rest'].
        -- constructor; [|constructor]. simpl.
           rewrite (indexGet_array _ _ _ Hload), (proj2 (Z.ltb_lt _ _)), Hx by done. done.
        -- apply IH; [|done]. by rewrite (elemLoad_array _ _ _ Hload), Hr.
      * destruct rest as [|seg' rest']; [|constructor].
        constructor; [|constructor]. simpl.
        rewrite (indexGet_array _ _ _ Hload), (proj2 (Z.ltb_ge _ _)) by done. done.
    + destruct cur as [| | | |arr|m]; try constructor.
      destruct (m !! seg) as [x|] eqn:Hx.
      * apply Hchild; [|simpl|done].
        -- by rewrite (keyLoad_object _ _ _ Hload).
        -- by rewrite (keyGet_object _ _ _ Hload), (keyLoad_object _ _ _ Hload).
      * destruct rest as [|seg' rest']; [|constructor].
        constructor; [|constructor]. simpl.
        by rewrite (keyGet_object _ _ _ Hload), Hx.
Qed.

(** Every target of a walk can be stored into, or it holds nothing and its
    [set] panics. *)
Lemma index_target_ok (load : json → option json) (setter : json → json → option json)
    (idx : Z) (st : json) (arr : list json) d :
  slot load setter → load st = Some (JArray arr) → 0 ≤ idx → idx ≤ int_max →
  let t := mkTarget (indexGet load idx) (indexSet load setter idx) d in
  settable t st ∨ (unsettable t st ∧ get t st = None).
Proof.
  intros Hslot Hload H0 Hmax t.
  destruct (settable_index Hslot idx st arr d Hload H0 Hmax) as [Hs|Hu]; [by left|].
  right. split; [done|]. simpl. rewrite (indexGet_array _ _ _ Hload).
  destruct (Z.ltb_spec idx (len arr)) as [Hin|Hout]; [|done].
  specialize (Hu JNull). simpl in Hu.
  rewrite (indexSet_in_range _ _ _ _ Hload) in Hu
    by (apply andb_true_iff; by rewrite Z.leb_le, Z.ltb_lt).
  destruct (slot_put_get _ _ Hslot st (JArray (<[Z.to_nat idx := JNull]> arr)))
    as (st' & Hset & _); [by rewrite Hload|]. congruence.
Qed.

Lemma walk_settable (segments : list string) :
  ∀ cur load setter st,
    slot load setter → load st = Some cur →
    Forall (λ t, settable t st ∨ (unsettable t st ∧ get t st = None))
      (walkTargets cur load setter segments).
Proof.
  induction segments as [|seg rest IH]; intros cur load setter st Hslot Hload; [constructor|].
  cbn [walkTargets].
  destruct (String.eqb seg "*").
  - destruct cur as [| | | |v|m]; try constructor.
    + apply Forall_concat_imap. intros i x Hx.
      assert (in_range (Z.of_nat i) v = true) as Hr.
      { rewrite in_range_of_nat. apply bool_decide_eq_true. by eapply lookup_lt_Some. }
      destruct rest as [|seg' rest'].
      * constructor; [|constructor]. left. by eapply settable_elem.
      * apply IH; [by apply slot_elem|].
        by rewrite (elemLoad_array _ _ _ Hload), Hr, Nat2Z.id.
    + apply Forall_concat_fmap. intros [k x] Hkx%elem_of_map_to_list.
      destruct rest as [|seg' rest'].
      * constructor; [|constructor]. left. by eapply settable_key.
      * apply IH; [by apply slot_key|]. by rewrite (keyLoad_object _ _ _ Hload).
  - destruct (Atoi seg) as [idx|] eqn:Hidx.
    + destruct cur as [| | | |arr|m]; try constructor.
      destruct (Z.leb_spec 0 idx) as [H0|H0]; [|constructor].
      pose proof (Atoi_range _ _ Hidx) as [_ Hmax].
      destruct rest as [|seg' rest'].
      * constructor; [|constructor]. by eapply index_target_ok.
      * destruct (Z.ltb_spec idx (len arr)) as [Hin|Hout]; [|constructor].
        destruct (arr !! Z.to_nat idx) as [x|] eqn:Hx; [|constructor].
        apply IH; [by apply slot_elem|].
        rewrite (elemLoad_array _ _ _ Hload).
        by rewrite (proj2 (in_range_lt idx arr)) by (unfold len in Hin; lia).
    + destruct cur as [| | | |arr|m]; try constructor.
      destruct rest as [|seg' rest'].
      * constructor; [|constructor]. left. by eapply settable_key.
      * destruct (m !! seg) as [x|] eqn:Hx; [|constructor].
        apply IH; [by apply slot_key|]. by rewrite (keyLoad_object _ _ _ Hload).
Qed.

Lemma grown_lookup_at (i : nat) (arr : list json) (nv : json) :
  (length arr ≤ i)%nat →
  (arr ++ replicate (i - length arr) JNull ++ [nv]) !! i = Some nv.
Proof.
  intros Hi. pose proof (grown_lookup (i - length arr) arr nv) as Hg.
  by replace (length arr + (i - length arr))%nat with i in Hg by lia.
Qed.

(** Once the loop has run, every slot the walk ends in holds what [u] left
    there. *)
Lemma leaves_after (u : option json → option json * bool) (P : option json → Prop)
    (segments : list string) :
  (∀ c, P (after u c)) → ∀ cur, leavesAll P segments (updT u segments cur).
Proof.
  intros HP. induction segments as [|seg rest IH]; intros cur; [done|].
  assert (∀ x, match rest with
               | [] => P (Some (updT u rest x))
               | _ :: _ => leavesAll P rest (updT u rest x)
               end) as Hchild.
  { intros x. destruct rest as [|seg' rest']; [|apply IH].
    simpl. specialize (HP (Some x)). unfold after in HP.
    by destruct (u (Some x)).1. }
  cbn [updT leavesAll].
  destruct (String.eqb seg "*").
  - destruct cur as [| | | |v|m]; try done.
    + apply Forall_fmap, Forall_forall. intros x _. apply Hchild.
    + apply map_Forall_fmap. intros k x _. apply Hchild.
  - destruct (Atoi seg) as [idx|].
    + destruct cur as [| | | |arr|m]; try done.
      destruct (Z.leb_spec 0 idx) as [H0|H0]; [|done].
      destruct (Z.ltb_spec idx (len arr)) as [Hin|Hout].
      * unfold len. rewrite length_alter. rewrite (proj2 (Z.ltb_lt _ _)) by done.
        rewrite list_lookup_alter_eq.
        destruct (arr !! Z.to_nat idx) as [x|]; [|done]. apply Hchild.
      * destruct rest as [|seg' rest'].
        -- specialize (HP None). unfold after in HP.
           destruct (u None).1 as [nv|].
           ++ unfold len in *. rewrite !length_app, length_replicate. simpl.
              rewrite (proj2 (Z.ltb_lt _ _)) by lia.
              by rewrite grown_lookup_at by lia.
           ++ by rewrite (proj2 (Z.ltb_ge _ _)).
        -- by rewrite (proj2 (Z.ltb_ge _ _)).
    + destruct cur as [| | | |arr|m]; try done.
      destruct (m !! seg) as [x|] eqn:Hx.
      * rewrite lookup_alter_eq, Hx. apply Hchild.
      * destruct rest as [|seg' rest'].
        -- specialize (HP None). unfold after in HP.
           destruct (u None).1 as [nv|].
           ++ by rewrite lookup_insert_eq.
           ++ by rewrite Hx.
        -- by rewrite Hx.
Qed.

(** A target of a walk, read on a tree in which the container has become
    what [updT] computes, reads what [u] left in its slot. *)
Lemma walk_reads_after (u : option json → option json * bool) (segments : list string) :
  ∀ cur load setter st st',
    load st = Some cur → load st' = Some (updT u segments cur) →
    Forall (λ t, get t st' = after u (get t st)) (walkTargets cur load setter segments).
Proof.
  induction segments as [|seg rest IH]; intros cur load setter st st' Hload Hload';
    [constructor|].
  assert (∀ x, Some (updT u [] x) = after u (Some x)) as Hleaf.
  { intros x. unfold after. simpl. by destruct (u (Some x)).1. }
  cbn [walkTargets updT] in *.
  destruct (String.eqb seg "*").
  - destruct cur as [| | | |v|m]; try constructor.
    + apply Forall_concat_imap. intros i x Hx.
      assert (in_range (Z.of_nat i) v = true) as Hr.
      { rewrite in_range_of_nat. apply bool_decide_eq_true. by eapply lookup_lt_Some. }
      assert (in_range (Z.of_nat i) (updT u rest <$> v) = true) as Hr'.
      { rewrite in_range_of_nat. apply bool_decide_eq_true. rewrite length_fmap.
        by eapply lookup_lt_Some. }
      destruct rest as [|seg' rest'].
      * constructor; [|constructor]. simpl.
        rewrite (elemGet_array _ _ _ Hload Hr), (elemGet_array _ _ _ Hload' Hr').
        rewrite Nat2Z.id, list_lookup_fmap, Hx. apply Hleaf.
      * apply IH.
        -- by rewrite (elemLoad_array _ _ _ Hload), Hr, Nat2Z.id.
        -- by rewrite (elemLoad_array _ _ _ Hload'), Hr', Nat2Z.id, list_lookup_fmap, Hx.
    + apply Forall_concat_fmap. intros [k x] Hkx%elem_of_map_to_list.
      assert (m !! k = Some x) as Hk by exact Hkx. clear Hkx.
      destruct rest as [|seg' rest'].
      * constructor; [|constructor]. simpl.
        rewrite (keyGet_object _ _ _ Hload), (keyGet_object _ _ _ Hload').
        rewrite lookup_fmap, Hk. apply Hleaf.
      * apply IH.
        -- by rewrite (keyLoad_object _ _ _ Hload).
        -- rewrite (keyLoad_object _ _ _ Hload'), lookup_fmap. simpl. by rewrite Hk.
  - destruct (Atoi seg) as [idx|] eqn:Hidx.
    + destruct cur as [| | | |arr|m]; try constructor.
      destruct (Z.leb_spec 0 idx) as [H0|H0]; [|constructor].
      destruct (Z.ltb_spec idx (len arr)) as [Hin|Hout].
      * assert (in_range idx arr = true) as Hr.
        { apply andb_true_iff. by rewrite Z.leb_le, Z.ltb_lt. }
        assert (in_range idx (alter (updT u rest) (Z.to_nat idx) arr) = true) as Hr'.
        { apply in_range_lt. rewrite length_alter. by apply in_range_lt in Hr. }
        destruct (arr !! Z.to_nat idx) as [x|] eqn:Hx.
        2:{ apply lookup_ge_None in Hx. unfold len in Hin. lia. }
        destruct rest as [|seg' rest'].
        -- constructor; [|constructor]. simpl.
           rewrite (indexGet_array _ _ _ Hload), (indexGet_array _ _ _ Hload').
           unfold len. rewrite length_alter. fold (len arr).
           rewrite (proj2 (Z.ltb_lt _ _)) by done.
           rewrite list_lookup_alter_eq, Hx. apply Hleaf.
        -- apply IH.
           ++ by rewrite (elemLoad_array _ _ _ Hload), Hr.
           ++ by rewrite (elemLoad_array _ _ _ Hload'), Hr', list_lookup_alter_eq, Hx.
      * destruct rest as [|seg' rest']; [|constructor].
        constructor; [|constructor]. simpl.
        rewrite (indexGet_array _ _ _ Hload), (proj2 (Z.ltb_ge _ _)) by done.
        unfold after. destruct (u None).1 as [nv|].
        -- rewrite (indexGet_array _ _ _ Hload').
           unfold len in *. rewrite !length_app, length_replicate. simpl.
           rewrite (proj2 (Z.ltb_lt _ _)) by lia.
           by rewrite grown_lookup_at by lia.
        -- rewrite (indexGet_array _ _ _ Hload'). by rewrite (proj2 (Z.ltb_ge _ _)).
    + destruct cur as [| | | |arr|m]; try constructor.
      destruct (m !! seg) as [x|] eqn:Hx.
      * destruct rest as [|seg' rest'].
        -- constructor; [|constructor]. simpl.
           rewrite (keyGet_object _ _ _ Hload), (keyGet_object _ _ _ Hload').
           rewrite lookup_alter_eq, Hx. apply Hleaf.
        -- apply IH.
           ++ by rewrite (keyLoad_object _ _ _ Hload).
           ++ by rewrite (keyLoad_object _ _ _ Hload'), lookup_alter_eq, Hx.
      * destruct rest as [|seg' rest']; [|constructor].
        constructor; [|constructor]. simpl.
        rewrite (keyGet_object _ _ _ Hload), Hx.
        unfold after. destruct (u None).1 as [nv|];
          rewrite (keyGet_object _ _ _ Hload'); [by rewrite lookup_insert_eq|done].
Qed.

(** ** The loop of [applyMerge] over the keys of [src] *)

Lemma mergeKeyPure_flag (l : list (string * json)) (d : gmap string json) (c : bool) :
  foldl mergeKeyPure (d, c) l
  = ((foldl mergeKeyPure (d, false) l).1, c || (foldl mergeKeyPure (d, false) l).2).
Proof.
  revert d c. induction l as [|[k v] l IH]; intros d c; simpl.
  - by rewrite orb_false_r.
  - unfold mergeKeyPure at 2 4 6. simpl.
    destruct (d !! k) as [cur|]; [destruct (deepEqual cur v)|].
    + apply IH.
    + rewrite (IH _ true). simpl. by rewrite orb_true_r.
    + rewrite (IH _ true). simpl. by rewrite orb_true_r.
Qed.

Lemma mergeKeyPure_unchanged (l : list (string * json)) (d : gmap string json) :
  (foldl mergeKeyPure (d, false) l).2 = false → (foldl mergeKeyPure (d, false) l).1 = d.
Proof.
  revert d. induction l as [|[k v] l IH]; intros d; simpl; [done|].
  unfold mergeKeyPure at 2 4. simpl.
  destruct (d !! k) as [cur|]; [destruct (deepEqual cur v)|].
  - apply IH.
  - rewrite mergeKeyPure_flag. done.
  - rewrite mergeKeyPure_flag. done.
Qed.

(** The loop finds nothing to write exactly when [dst] holds, under every
    key of [src], a value that [deepEqual] accepts. *)
Lemma mergeKeyPure_quiet (l : list (string * json)) (d : gmap string json) :
  (foldl mergeKeyPure (d, false) l).2 = false ↔
  ∀ k v, (k, v) ∈ l → ∃ cur, d !! k = Some cur ∧ deepEqual cur v = true.
Proof.
  revert d. induction l as [|[k v] l IH]; intros d; simpl.
  - split; [intros _ k v Hin; by apply elem_of_nil in Hin|done].
  - unfold mergeKeyPure at 2. simpl.
    destruct (d !! k) as [cur|] eqn:Hk; [destruct (deepEqual cur v) eqn:Heq|].
    + rewrite IH. split.
      * intros Hl k' v' [[= -> ->]|Hin]%elem_of_cons; eauto.
      * intros Hall k' v' Hin. apply Hall. by right.
    + rewrite mergeKeyPure_flag. simpl. split; [done|].
      intros Hall. destruct (Hall k v) as (cur' & Hcur & Heq'); [left|]. congruence.
    + rewrite mergeKeyPure_flag. simpl. split; [done|].
      intros Hall. destruct (Hall k v) as (cur' & Hcur & Heq'); [left|]. congruence.
Qed.

Lemma mergeKeyPure_other (l : list (string * json)) (d : gmap string json) (c : bool)
    (k : string) :
  k ∉ l.*1 → (foldl mergeKeyPure (d, c) l).1 !! k = d !! k.
Proof.
  revert d c. induction l as [|[k' v] l IH]; intros d c Hk; simpl; [done|].
  apply not_elem_of_cons in Hk as [Hne Hk]. simpl in Hne.
  unfold mergeKeyPure at 2. simpl.
  destruct (d !! k') as [cur|]; [destruct (deepEqual cur v)|]; rewrite IH by done;
    by rewrite ?lookup_insert_ne.
Qed.

Lemma mergeKeyPure_result (l : list (string * json)) (d : gmap string json) (c : bool) :
  NoDup l.*1 → Forall (λ kv, decoded kv.2 = true) l →
  ∀ k v, (k, v) ∈ l →
    ∃ cur, (foldl mergeKeyPure (d, c) l).1 !! k = Some cur ∧ deepEqual cur v = true.
Proof.
  revert d c. induction l as [|[k0 v0] l IH]; intros d c Hnd Hdec k v Hin.
  { by apply elem_of_nil in Hin. }
  rewrite fmap_cons in Hnd.
  apply NoDup_cons in Hnd as [Hk0 Hnd]. apply Forall_cons in Hdec as [Hv0 Hdec].
  simpl in Hk0, Hv0. cbn [foldl].
  apply elem_of_cons in Hin as [[= -> ->]|Hin];
    [|destruct (mergeKeyPure (d, c) (k0, v0)) as [d' c']; by apply IH].
  - unfold mergeKeyPure at 2. simpl.
    destruct (d !! k0) as [cur|] eqn:Hcur; [destruct (deepEqual cur v0) eqn:Heq|];
      rewrite mergeKeyPure_other by done.
    + eauto.
    + rewrite lookup_insert_eq, clone_id. eauto using deepEqual_refl.
    + rewrite lookup_insert_eq, clone_id. eauto using deepEqual_refl.
Qed.

Lemma decoded_entries (src : gmap string json) :
  decoded (JObject src) = true → Forall (λ kv, decoded kv.2 = true) (map_to_list src).
Proof.
  intros Hd. apply Forall_forall. intros [k v] Hin%elem_of_map_to_list.
  by eapply decoded_lookup.
Qed.

(** Merging [src] a second time finds nothing to write. *)
Lemma mergeMap_idem (src dst : gmap string json) :
  decoded (JObject src) = true → (mergeMap src (mergeMap src dst).1).2 = false.
Proof.
  intros Hd. unfold mergeMap at 1. apply mergeKeyPure_quiet. intros k v Hin.
  apply mergeKeyPure_result; [apply NoDup_fst_map_to_list|by apply decoded_entries|done].
Qed.

Lemma merged_after (src : gmap string json) (c : option json) :
  decoded (JObject src) = true → merged src (after (mergeVal src) c).
Proof.
  intros Hd. unfold after, mergeVal.
  destruct c as [[| | | |l|dst]|]; simpl; try done; try by apply mergeMap_idem.
  destruct (mergeMap src dst).2 eqn:Hch; simpl; [by apply mergeMap_idem|done].
Qed.

Lemma mergeKeys_quiet (t : target) (l : list (string * json)) (dst : gmap string json)
    (c : bool) (st : json) :
  (foldl mergeKeyPure (dst, false) l).2 = false →
  foldM (mergeKey t) (dst, c, st) l = Some (dst, c, st).
Proof.
  induction l as [|[k v] l IH]; simpl; [done|].
  unfold mergeKeyPure at 2. simpl.
  destruct (dst !! k) as [cur|]; [destruct (deepEqual cur v)|]; simpl.
  - exact IH.
  - by rewrite mergeKeyPure_flag.
  - by rewrite mergeKeyPure_flag.
Qed.

Lemma mergeKey_eq (t : target) (dst : gmap string json) (c : bool) (st : json)
    (k : string) (v : json) :
  mergeKey t (dst, c, st) (k, v) =
    match dst !! k with
    | Some current =>
        if deepEqual current v then Some (dst, c, st)
        else st' ← set t (JObject (<[k := clone v]> dst)) st;
             Some (<[k := clone v]> dst, true, st')
    | None =>
        st' ← set t (JObject (<[k := clone v]> dst)) st;
        Some (<[k := clone v]> dst, true, st')
    end.
Proof. reflexivity. Qed.

Lemma mergeKeyPure_eq (d : gmap string json) (c : bool) (k : string) (v : json) :
  mergeKeyPure (d, c) (k, v) =
    match d !! k with
    | Some current => if deepEqual current v then (d, c) else (<[k := clone v]> d, true)
    | None => (<[k := clone v]> d, true)
    end.
Proof. reflexivity. Qed.

(** The writes of the loop, each a store into the target, amount to one
    store of the final map. *)
Lemma mergeKeys_fold (t : target) (st : json) (l : list (string * json)) :
  settable t st ∨ unsettable t st →
  ∀ dst c st_cur (w : bool),
    (if w then set t (JObject dst) st = Some st_cur ∧ ∀ x, set t x st_cur = set t x st
     else st_cur = st) →
    foldM (mergeKey t) (dst, c, st_cur) l =
      if (foldl mergeKeyPure (dst, false) l).2
      then st' ← set t (JObject (foldl mergeKeyPure (dst, false) l).1) st;
           Some ((foldl mergeKeyPure (dst, false) l).1, true, st')
      else Some (dst, c, st_cur).
Proof.
  intros Hok. induction l as [|[k v] l IH]; intros dst c st_cur w Hinv; [done|].
  assert (∀ x, set t x st_cur = set t x st) as Hset.
  { destruct w; [by destruct Hinv|by subst]. }
  cbn [foldM foldl]. rewrite mergeKey_eq, mergeKeyPure_eq.
  assert ((set t (JObject (<[k := clone v]> dst)) st_cur
             ≫= (λ st', Some (<[k := clone v]> dst, true, st')))
            ≫= (λ s', foldM (mergeKey t) s' l)
          = if (foldl mergeKeyPure (<[k := clone v]> dst, true) l).2
            then st' ← set t (JObject (foldl mergeKeyPure (<[k := clone v]> dst, true) l).1) st;
                 Some ((foldl mergeKeyPure (<[k := clone v]> dst, true) l).1, true, st')
            else Some (dst, c, st_cur)) as Hwrite.
  { rewrite Hset, mergeKeyPure_flag. cbn [fst snd orb]. destruct Hok as [Hs|Hu].
    - destruct (Hs (JObject (<[k := clone v]> dst))) as (st2 & Hst2 & _ & Hpp).
      rewrite Hst2. cbn [mbind option_bind].
      rewrite (IH _ true st2 true (conj Hst2 Hpp)).
      destruct (foldl mergeKeyPure (<[k := clone v]> dst, false) l).2 eqn:Hf; [done|].
      by rewrite (mergeKeyPure_unchanged _ _ Hf), Hst2.
    - by rewrite !Hu. }
  destruct (dst !! k) as [cur|]; [destruct (deepEqual cur v)|].
  - cbn [mbind option_bind]. exact (IH dst c st_cur w Hinv).
  - exact Hwrite.
  - exact Hwrite.
Qed.

(** The body of the loop of [applyMerge], as one read and at most one store. *)
Lemma mergeTarget_spec (src : gmap string json) (t : target) (st : json) (c : bool) :
  settable t st ∨ unsettable t st →
  mergeTarget src (c, st) t =
    match mergeVal src (get t st) with
    | (Some nv, b) => st' ← set t nv st; Some (c || b, st')
    | (None, b) => Some (c || b, st)
    end.
Proof.
  intros Hok. unfold mergeTarget, mergeVal.
  assert ((set t (JObject ∅) st
             ≫= (λ st', Some (JObject ∅, st')))
            ≫= (λ '(dstVal, st0),
                  match dstVal with
                  | JObject dst =>
                      foldM (mergeKey t) (dst, c, st0) (map_to_list src)
                        ≫= λ '(_, changed, st1), Some (changed, st1)
                  | _ => Some (c, st0)
                  end)
          = set t (JObject (mergeMap src ∅).1) st
              ≫= λ st', Some (c || (mergeMap src ∅).2, st')) as Hfresh.
  { destruct Hok as [Hs|Hu]; [|by rewrite !Hu].
    destruct (Hs (JObject ∅)) as (st1 & Hst1 & _ & Hpp). rewrite Hst1.
    cbn [mbind option_bind].
    rewrite (mergeKeys_fold t st _ (or_introl Hs) ∅ c st1 true (conj Hst1 Hpp)).
    fold (mergeMap src ∅).
    destruct (mergeMap src ∅).2 eqn:Hf.
    - rewrite orb_true_r. by destruct (set t (JObject (mergeMap src ∅).1) st).
    - unfold mergeMap in *. rewrite (mergeKeyPure_unchanged _ _ Hf), Hst1.
      by rewrite orb_false_r. }
  destruct (get t st) as [[| | | |l|dst]|]; cbn [mbind option_bind];
    rewrite ?orb_false_r; try done.
  rewrite (mergeKeys_fold t st _ Hok dst c st false eq_refl).
  fold (mergeMap src dst).
  destruct (mergeMap src dst).2; cbn [mbind option_bind].
  - rewrite orb_true_r. by destruct (set t (JObject (mergeMap src dst).1) st).
  - by rewrite orb_false_r.
Qed.

(** At a target that is merged already the body of the loop does nothing. *)
Lemma mergeTarget_merged (src : gmap string json) (t : target) (st : json) (c : bool) :
  merged src (get t st) → mergeTarget src (c, st) t = Some (c, st).
Proof.
  unfold merged, mergeTarget.
  destruct (get t st) as [[| | | |l|dst]|]; try done.
  intros Hq. cbn [mbind option_bind]. by rewrite (mergeKeys_quiet _ _ _ _ _ Hq).
Qed.

(** * The claims of the specification *)

(** ** Paths that resolve to nothing *)

(** C6. When a path resolves to zero targets, Set, Merge, Delete and
    TransformArray report [changed = false], raise no error and no panic,
    and leave the tree as it was. *)
Theorem no_targets_no_op `{RegexpPkg} (root : json) (path : string) :
  findTargets root path = [] →
  (∀ value, applySet root path value = Some (false, root)) ∧
  (∀ value, applyMerge root path value = Some (false, None, root)) ∧
  applyDelete root path = Some (false, root) ∧
  (∀ re replacements, applyTransformArray root path re replacements = Some (false, root)).
Proof.
  intros Hnone. unfold applySet, applyMerge, applyDelete, applyTransformArray.
  rewrite Hnone. done.
Qed.

End any_run_1.

Lemma no_targets_no_op_witness :
  findTargets (object [("a", JInt 1)]) "b.c" = [] ∧
  (∀ value, applySet (object [("a", JInt 1)]) "b.c" value
            = Some (false, object [("a", JInt 1)])) ∧
  (∀ value, applyMerge (object [("a", JInt 1)]) "b.c" value
            = Some (false, None, object [("a", JInt 1)])) ∧
  applyDelete (object [("a", JInt 1)]) "b.c" = Some (false, object [("a", JInt 1)]) ∧
  (∀ (re : regex) replacements,
     applyTransformArray (object [("a", JInt 1)]) "b.c" re replacements
     = Some (false, object [("a", JInt 1)])).
Proof.
  split; [vm_compute; reflexivity|].
  apply (@no_targets_no_op example_runtime fragment_regexp (object [("a", JInt 1)]) "b.c").
  vm_compute. reflexivity.
Defined.

Section any_run_2.
Context {run : Runtime}.

(** C10. A Merge whose compiled value is not an Object returns
    [changed = false] and no error when its path resolves to zero targets;
    the check of the value is reached, and fails, as soon as one target
    exists.  The same action succeeds or fails with the shape of the tree. *)
Theorem merge_non_object_value (root : json) (path : string) (value : json) :
  is_object value = false →
  (findTargets root path = [] → applyMerge root path value = Some (false, None, root)) ∧
  (findTargets root path ≠ [] →
   applyMerge root path value
   = Some (false, Some ("merge " ++ path ++ ": value must be an object")%string, root)).
Proof.
  intros Hval. unfold applyMerge. split.
  - by intros ->.
  - intros Hsome. destruct (findTargets root path) as [|t ts]; [done|].
    by destruct value.
Qed.

End any_run_2.

Lemma merge_non_object_value_witness :
  is_object (JInt 5) = false ∧
  (findTargets (object [("b", JInt 1)]) "a.c" = [] ∧
   applyMerge (object [("b", JInt 1)]) "a.c" (JInt 5)
   = Some (false, None, object [("b", JInt 1)])) ∧
  (findTargets (object [("a", object [])]) "a.c" ≠ [] ∧
   applyMerge (object [("a", object [])]) "a.c" (JInt 5)
   = Some (false, Some "merge a.c: value must be an object", object [("a", object [])])).
Proof.
  split; [reflexivity|]. split.
  - assert (findTargets (object [("b", JInt 1)]) "a.c" = []) as Hnone
      by (vm_compute; reflexivity).
    split; [exact Hnone|].
    exact (proj1 (merge_non_object_value _ "a.c" (JInt 5) eq_refl) Hnone).
  - assert (findTargets (object [("a", object [])]) "a.c" ≠ []) as Hsome.
    { intros Hnil. apply (f_equal length) in Hnil. vm_compute in Hnil. discriminate. }
    split; [exact Hsome|].
    exact (proj2 (merge_non_object_value _ "a.c" (JInt 5) eq_refl) Hsome).
Defined.

(** ** Segments against an Object *)

Section any_run_3.
Context {run : Runtime}.

(** C1, as the code has it.  A segment that [strconv.Atoi] accepts is an
    index and nothing else: against an Object the walk yields no target,
    whether or not the Object holds a key spelled like the segment. *)
Theorem numeric_segment_on_object (seg : string) (idx : Z) (rest : list string)
    (obj : gmap string json) (load : json → option json)
    (setter : json → json → option json) :
  Atoi seg = Some idx →
  walkTargets (JObject obj) load setter (seg :: rest) = [].
Proof.
  intros Hidx. cbn [walkTargets].
  destruct (String.eqb_spec seg "*") as [->|_]; [by rewrite Atoi_star in Hidx|].
  by rewrite Hidx.
Qed.

End any_run_3.

Lemma numeric_segment_on_object_witness :
  Atoi "5" = Some 5 ∧
  walkTargets (JObject {["5" := JString "x"]}) (λ st, Some st) (λ v _, Some v) ["5"] = [].
Proof.
  split; [reflexivity|].
  apply (numeric_segment_on_object "5" 5). reflexivity.
Defined.

(** C1, as the specification words it, fails: the path [5] against
    [{"5": "x"}] yields no target bound to the key [5]. *)
Lemma numeric_key_not_resolved :
  ¬ ∃ t, t ∈ findTargets (JObject {["5" := JString "x"]}) "5"
         ∧ get t (JObject {["5" := JString "x"]}) = Some (JString "x").
Proof.
  intros (t & Ht & _).
  assert (findTargets (JObject {["5" := JString "x"]}) "5" = []) as Hnone
    by (vm_compute; reflexivity).
  rewrite Hnone in Ht. by apply elem_of_nil in Ht.
Qed.

Section any_run_4.
Context {run : Runtime}.

(** Only a segment that [Atoi] rejects, other than [*], is a key. *)
Lemma key_segment_on_object (seg : string) (obj : gmap string json)
    (load : json → option json) (setter : json → json → option json) :
  Atoi seg = None → seg ≠ "*" →
  walkTargets (JObject obj) load setter [seg]
  = [mkTarget (keyGet load seg) (keySetter load setter seg) (Some (keyDel load setter seg))].
Proof.
  intros Hnone Hstar. cbn [walkTargets].
  destruct (String.eqb_spec seg "*") as [->|_]; [done|].
  by rewrite Hnone.
Qed.

End any_run_4.

(** Digits that overflow [int] are such a segment. *)
Lemma overflowing_digits_are_a_key :
  Atoi "99999999999999999999" = None ∧
  applySet (JObject {["99999999999999999999" := JNull]}) "99999999999999999999" (JBool true)
  = Some (true, JObject {["99999999999999999999" := JBool true]}).
Proof. split; vm_compute; reflexivity. Qed.

(** ** The value of a Merge *)

Section any_run_5.
Context {run : Runtime}.

Section compile_merge.
Context `{RegexpPkg} `{JsonPkg} `{CaddyPkg}.

(** [compile] accepts a [merge] with any value that decodes. *)
Lemma compile_merge_any_value (a : Action) (v : json) :
  Type_ a = "merge" → Value a ≠ "" → json_Unmarshal (Value a) = Ok v →
  TrimSpace (When a) = "" →
  compile a = (set_compiledValue a v, None).
Proof.
  intros Hty Hval Hdec Hwhen. unfold compile, compile_type. rewrite Hty. simpl.
  destruct (Value a) as [|c rest] eqn:Hv; [done|]. simpl.
  rewrite Hdec. simpl. by rewrite Hwhen.
Qed.
End compile_merge.

End any_run_5.

(** C2 fails on the code.  [compile] has no check of the value of a [merge]
    (the branch it shares with [set] only decodes it; [merge_if_match] has
    the check): the action [{type: merge, path: a, value: 5}] compiles, and
    [applyActions] on [{"a": {}}] then returns the error of [applyMerge]. *)
Theorem merge_value_checked_at_run_time :
  compile merge_a_5 = (set_compiledValue merge_a_5 (JInt 5), None) ∧
  applyActions (object [("a", object [])]) [(compile merge_a_5).1] tt
  = Some (false, Some "merge a: value must be an object", object [("a", object [])]).
Proof.
  split; [|vm_compute; reflexivity].
  apply compile_merge_any_value;
    [reflexivity|discriminate|vm_compute; reflexivity|reflexivity].
Qed.

(** ** [deepEqual] on Objects *)

(** C3 fails on the code.  [deepEqual] compares the sizes of two maps and
    then reads [bv[k]] for every key of [av] without asking whether [bv] has
    the key; a missing key reads as [nil].  [{"a": null}] and [{"b": null}]
    have different keys and are reported equal. *)
Theorem deepEqual_missing_key :
  deepEqual (JObject {["a" := JNull]}) (JObject {["b" := JNull]}) = true ∧
  ({["a" := JNull]} : gmap string json) !! "a" = Some JNull ∧
  ({["b" := JNull]} : gmap string json) !! "a" = None.
Proof. repeat split; vm_compute; reflexivity. Qed.

(** What it does to a Merge: the value under [k] differs from the one of
    the source and is kept, with [changed = false]. *)
Lemma merge_keeps_unequal_value :
  applyMerge (object [("t", object [("k", object [("a", JNull)])])]) "t"
    (object [("k", object [("b", JNull)])])
  = Some (false, None, object [("t", object [("k", object [("a", JNull)])])]).
Proof. vm_compute. reflexivity. Qed.

Section any_run_6.
Context {run : Runtime}.

(** On scalars [deepEqual] is equality of values: of the same kind, and
    equal as [bool], as [string], or as [float64]. *)
Lemma deepEqual_scalar (a b : json) :
  is_object a = false → (∀ l, a ≠ JArray l) →
  deepEqual a b = true ↔
  match a, b with
  | JNull, JNull => True
  | JBool x, JBool y => x = y
  | JString x, JString y => x = y
  | JNumber x, JNumber y => float64_eq x y = true
  | _, _ => False
  end.
Proof.
  intros Hobj Harr. destruct a as [|x|x|x|l|m]; try done.
  - destruct b; simpl; split; done.
  - destruct b as [|y| | | |]; simpl; try (split; done).
    split; [by intros ?%eqb_prop|intros ->; apply eqb_reflx].
  - destruct b as [| |y| | |]; simpl; try (split; done).
  - destruct b as [| | |y| |]; simpl; try (split; done). apply String.eqb_eq.
  - by destruct (Harr l).
Qed.

(** ** Merge into what is not an Object *)

(** C4, as the code has it.  A target that holds a value that is neither an
    Object nor Null is passed over: the body of the loop stores nothing,
    leaves the flag and the whole tree as they were, and cannot panic. *)
Theorem merge_skips_non_object (src : gmap string json) (t : target) (st v : json)
    (changed : bool) :
  get t st = Some v → v ≠ JNull → is_object v = false →
  mergeTarget src (changed, st) t = Some (changed, st).
Proof.
  intros Hget Hnull Hobj. unfold mergeTarget. rewrite Hget.
  by destruct v.
Qed.

End any_run_6.

Lemma merge_skips_non_object_witness :
  get target_a (object [("a", JInt 3)]) = Some (JInt 3) ∧ JInt 3 ≠ JNull ∧
  is_object (JInt 3) = false ∧
  mergeTarget {["k" := JInt 1]} (false, object [("a", JInt 3)]) target_a
  = Some (false, object [("a", JInt 3)]).
Proof.
  assert (get target_a (object [("a", JInt 3)]) = Some (JInt 3)) as Hget
    by (vm_compute; reflexivity).
  assert (JInt 3 ≠ JNull) as Hnull by discriminate.
  split; [exact Hget|]. split; [exact Hnull|]. split; [reflexivity|].
  exact (merge_skips_non_object _ target_a _ (JInt 3) false Hget Hnull eq_refl).
Defined.

(** The action as a whole, on such a target. *)
Lemma merge_into_number :
  findTargets (object [("a", JInt 3)]) "a" = [target_a] ∧
  applyMerge (object [("a", JInt 3)]) "a" (object [("k", JInt 1)])
  = Some (false, None, object [("a", JInt 3)]).
Proof. split; vm_compute; reflexivity. Qed.

(** C4, as the specification words it, fails for Null: the code takes a
    Null target for an absent one and stores a new Object there. *)
Lemma merge_replaces_null :
  get target_a (object [("a", JNull)]) = Some JNull ∧
  applyMerge (object [("a", JNull)]) "a" (object [("k", JInt 1)])
  = Some (true, None, object [("a", object [("k", JInt 1)])]) ∧
  object [("a", object [("k", JInt 1)])] ≠ object [("a", JNull)].
Proof.
  split; [vm_compute; reflexivity|]. split; [vm_compute; reflexivity|].
  intros Heq. apply (f_equal (λ v, match v with
                                   | JObject m => m !! "a"
                                   | _ => None
                                   end)) in Heq.
  vm_compute in Heq. discriminate.
Qed.

(** ** Set past the end of an Array *)

Section any_run_7.
Context {run : Runtime}.

Lemma length_grown (arr : list json) (idx : Z) (v : json) :
  len arr ≤ idx → len (grown arr idx v) = idx + 1.
Proof.
  unfold grown, len. rewrite !length_app, length_replicate. simpl. lia.
Qed.

Lemma walkTargets_last_index (arr : list json) (seg : string) (idx : Z)
    (load : json → option json) (setter : json → json → option json) :
  Atoi seg = Some idx → 0 ≤ idx →
  walkTargets (JArray arr) load setter [seg]
  = [mkTarget (indexGet load idx) (indexSet load setter idx) (Some (elemDel load setter idx))].
Proof.
  intros Hidx H0. cbn [walkTargets].
  destruct (String.eqb_spec seg "*") as [->|_]; [by rewrite Atoi_star in Hidx|].
  rewrite Hidx. by rewrite (proj2 (Z.leb_le _ _)).
Qed.


End any_run_7.


(** The example of the specification: Set at [a.5] on [{a: [1, 2]}]. *)
Lemma set_a_5 (value : json) :
  applySet (object [("a", JArray [JInt 1; JInt 2])]) "a.5" value
  = Some (true, object [("a", JArray [JInt 1; JInt 2; JNull; JNull; JNull; clone value])]).
Proof.
  unfold applySet.
  assert (findTargets (object [("a", JArray [JInt 1; JInt 2])]) "a.5"
          = [mkTarget (indexGet (keyLoad (λ st, Some st) "a") 5)
               (indexSet (keyLoad (λ st, Some st) "a")
                  (keySetter (λ st, Some st) (λ v _, Some v) "a") 5)
               (Some (elemDel (keyLoad (λ st, Some st) "a")
                        (keySetter (λ st, Some st) (λ v _, Some v) "a") 5))]) as ->
    by (vm_compute; reflexivity).
  simpl.
  erewrite (indexSet_grow (slot_key slot_root "a") 5 _ _ [JInt 1; JInt 2]);
    [|vm_compute; reflexivity|vm_compute; discriminate|reflexivity].
  vm_compute. reflexivity.
Qed.

(** The largest index cannot be grown to: [idx+1] wraps around and [make]
    panics. *)
Lemma set_largest_index_panics :
  applySet (JArray []) "9223372036854775807" JNull = None.
Proof. vm_compute. reflexivity. Qed.

(** ** Merge, twice *)

Section any_run_8.
Context {run : Runtime}.

Lemma Split_cons (s : string) (sep : ascii) : ∃ seg rest, Split s sep = seg :: rest.
Proof.
  induction s as [|c s (seg & rest & IH)]; simpl; [by eexists _, _|].
  destruct (Ascii.eqb c sep); [by eexists _, _|].
  rewrite IH. by eexists _, _.
Qed.

(** The tree after a Merge is the tree that [updT] computes. *)
Lemma applyMerge_tree (root : json) (path : string) (src : gmap string json)
    (changed : bool) (err : option error) (root' : json) :
  applyMerge root path (JObject src) = Some (changed, err, root') →
  root' = updT (mergeVal src) (Split path ".") root ∧ err = None.
Proof.
  unfold applyMerge, findTargets.
  destruct (Split_cons path ".") as (seg & rest & ->).
  set (targets := walkTargets root _ _ _).
  assert (∀ c r, foldM (mergeTarget src) (false, root) targets = Some (c, r) →
                 r = updT (mergeVal src) (seg :: rest) root) as Hfold.
  { intros c r Hf.
    destruct (walk_fold (mergeVal src) (mergeTarget src) (mergeTarget_spec src)
                rest seg root _ _ root false c r slot_root eq_refl Hf) as [Hr _].
    by injection Hr as <-. }
  case_decide as Hlen.
  - intros [= <- <- <-]. split; [|done].
    apply (Hfold false). by destruct targets.
  - destruct (foldM _ _ targets) as [[c r]|] eqn:Hf; simpl; [|done].
    intros [= <- <- <-]. split; [|done]. by apply (Hfold c).
Qed.

(** C9. After a Merge of an Object has returned, the same Merge on the tree
    it left reports [changed = false], returns no error, and leaves that tree
    as it is.  ([decoded]: the value comes from [json.Unmarshal], so it holds
    no NaN.) *)
Theorem merge_twice (root : json) (path : string) (src : gmap string json)
    (changed : bool) (root' : json) :
  decoded (JObject src) = true →
  applyMerge root path (JObject src) = Some (changed, None, root') →
  applyMerge root' path (JObject src) = Some (false, None, root').
Proof.
  intros Hdec Hfirst. apply applyMerge_tree in Hfirst as [-> _].
  unfold applyMerge, findTargets. case_decide as Hlen; [done|].
  rewrite (foldM_noop (mergeTarget src)); [done|].
  eapply Forall_impl.
  - apply (walk_leaves (merged src)); [done|].
    apply leaves_after. intros c. by apply merged_after.
  - intros t Ht. by apply mergeTarget_merged.
Qed.

End any_run_8.

Lemma merge_twice_witness :
  decoded (JObject {["k" := JString "v"]}) = true ∧
  applyMerge (object [("items", JArray [object [("k", JInt 1)]; JNull; JInt 5])])
    "items.*" (JObject {["k" := JString "v"]})
  = Some (true, None,
          object [("items", JArray [object [("k", JString "v")];
                                    object [("k", JString "v")]; JInt 5])]) ∧
  applyMerge (object [("items", JArray [object [("k", JString "v")];
                                        object [("k", JString "v")]; JInt 5])])
    "items.*" (JObject {["k" := JString "v"]})
  = Some (false, None,
          object [("items", JArray [object [("k", JString "v")];
                                    object [("k", JString "v")]; JInt 5])]).
Proof.
  assert (applyMerge (object [("items", JArray [object [("k", JInt 1)]; JNull; JInt 5])])
            "items.*" (JObject {["k" := JString "v"]})
          = Some (true, None,
                  object [("items", JArray [object [("k", JString "v")];
                                            object [("k", JString "v")]; JInt 5])]))
    as Hfirst by (vm_compute; reflexivity).
  assert (decoded (JObject {["k" := JString "v"]}) = true) as Hdec
    by (vm_compute; reflexivity).
  split; [exact Hdec|]. split; [exact Hfirst|].
  exact (merge_twice _ "items.*" {["k" := JString "v"]} true _ Hdec Hfirst).
Defined.

(** ** TransformArray *)

Section any_run_9.
Context {run : Runtime}.

Section transform.
Context `{RegexpPkg}.

Lemma expand_templates (re : Regexp) (str : string) (indices : list Z)
    (replacements : list string) (out : list json) :
  foldl (λ out tmpl, out ++ [JString (ExpandString re tmpl str indices)]) out replacements
  = out ++ ((λ tmpl, JString (ExpandString re tmpl str indices)) <$> replacements).
Proof.
  revert out. induction replacements as [|tmpl l IH]; intros out; simpl.
  - by rewrite app_nil_r.
  - by rewrite IH, <-app_assoc.
Qed.

(** The scan of [applyTransformArray]: [out] grows by what each element
    becomes, [targetChanged] is set by the first match. *)
Lemma transformItem_fold (re : Regexp) (replacements : list string) (arr out : list json)
    (targetChanged : bool) :
  foldl (transformItem re replacements) (out, targetChanged) arr
  = (out ++ concat (transformed re replacements <$> arr),
     targetChanged || existsb (matches re) arr).
Proof.
  revert out targetChanged. induction arr as [|item arr IH]; intros out ch.
  { simpl. by rewrite app_nil_r, orb_false_r. }
  cbn [foldl]. rewrite fmap_cons. cbn [concat existsb].
  destruct item as [| | |str| |];
    try (cbn [transformItem transformed matches]; rewrite IH, <-app_assoc; done).
  cbn [transformItem transformed matches].
  destruct (FindStringSubmatchIndex re str) as [indices|].
  - rewrite expand_templates, IH, <-app_assoc.
    rewrite bool_decide_eq_true_2 by eauto. by rewrite orb_true_r.
  - rewrite IH, <-app_assoc. rewrite bool_decide_eq_false_2; [done|].
    by intros [? ?].
Qed.

Lemma transformed_no_match (re : Regexp) (replacements : list string) (arr : list json) :
  existsb (matches re) arr = false → concat (transformed re replacements <$> arr) = arr.
Proof.
  induction arr as [|item arr IH]; [done|].
  rewrite fmap_cons. cbn [concat existsb].
  intros [Hitem Harr]%orb_false_iff. rewrite (IH Harr).
  destruct item as [| | |str| |]; try done. cbn [matches transformed] in *.
  destruct (FindStringSubmatchIndex re str); [|done].
  by rewrite bool_decide_eq_true_2 in Hitem by eauto.
Qed.

End transform.

End any_run_9.

Lemma pixeldrain_re_compiled :
  regexp_Compile "^https://pixeldrain\.com/(.*)" = Ok pixeldrain_re.
Proof. vm_compute. reflexivity. Qed.


(** ** MergeIfMatch *)

Section any_run_10.
Context {run : Runtime}.

Section merge_if_match.
Context `{RegexpPkg}.




End merge_if_match.

End any_run_10.


(** * Further properties of the code *)

(** ** [splitValueAndWhen] and [splitReplsAndWhen] *)

Section any_run_11.
Context {run : Runtime}.

Lemma when_index_none (tokens : list string) (i : nat) :
  "when" ∉ tokens → when_index tokens i = None.
Proof.
  revert i. induction tokens as [|tok rest IH]; intros i Hnot; simpl; [done|].
  apply not_elem_of_cons in Hnot as [Hne Hrest].
  destruct (String.eqb_spec tok "when") as [->|_]; [done|]. by apply IH.
Qed.

Lemma when_index_first (pre post : list string) (i : nat) :
  "when" ∉ pre → when_index (pre ++ "when" :: post) i = Some (i + length pre)%nat.
Proof.
  revert i. induction pre as [|tok pre IH]; intros i Hnot; simpl.
  - by rewrite Nat.add_0_r.
  - apply not_elem_of_cons in Hnot as [Hne Hrest].
    destruct (String.eqb_spec tok "when") as [->|_]; [done|].
    rewrite IH by done. f_equal. lia.
Qed.

Lemma drop_after_middle {A} (pre post : list A) (x : A) :
  drop (S (length pre)) (pre ++ x :: post) = post.
Proof. induction pre as [|y pre IH]; simpl; [by rewrite drop_0|exact IH]. Qed.

(** X1.  [splitValueAndWhen] cuts at the first token [when]: the tokens before it,
    joined by a space, are the value, all the tokens after it the condition,
    later [when]s included; without such a token everything is the value. *)
Theorem splitValueAndWhen_cut (pre post tokens : list string) :
  ("when" ∉ pre →
   splitValueAndWhen (pre ++ "when" :: post) = (Join pre " ", Join post " ")) ∧
  ("when" ∉ tokens → splitValueAndWhen tokens = (Join tokens " ", "")).
Proof.
  unfold splitValueAndWhen. split.
  - intros Hnot. rewrite when_index_first by done. simpl.
    by rewrite take_app_length, drop_after_middle.
  - intros Hnot. by rewrite when_index_none.
Qed.

End any_run_11.

Lemma splitValueAndWhen_cut_witness :
  (("when" ∉ ["{"; "}"]) ∧
   splitValueAndWhen (["{"; "}"] ++ "when" :: ["a"; "when"; "b"]) = ("{ }", "a when b")) ∧
  (("when" ∉ ["1"; "2"]) ∧ splitValueAndWhen ["1"; "2"] = ("1 2", "")).
Proof.
  assert ("when" ∉ ["{"; "}"]) as H1.
  { intros Hin. repeat (apply elem_of_cons in Hin as [Hin|Hin]; [discriminate|]).
    by apply elem_of_nil in Hin. }
  assert ("when" ∉ ["1"; "2"]) as H2.
  { intros Hin. repeat (apply elem_of_cons in Hin as [Hin|Hin]; [discriminate|]).
    by apply elem_of_nil in Hin. }
  split.
  - split; [exact H1|].
    exact (proj1 (splitValueAndWhen_cut ["{"; "}"] ["a"; "when"; "b"] []) H1).
  - split; [exact H2|].
    exact (proj2 (splitValueAndWhen_cut [] [] ["1"; "2"]) H2).
Defined.

Section any_run_12.
Context {run : Runtime}.

(** X2.  [splitReplsAndWhen] cuts the same way and keeps the tokens before the
    first [when] as they are: no replacement template is ever the bare token
    [when]. *)
Theorem splitReplsAndWhen_cut (pre post tokens : list string) :
  ("when" ∉ pre →
   splitReplsAndWhen (pre ++ "when" :: post) = (pre, Join post " ")) ∧
  ("when" ∉ tokens → splitReplsAndWhen tokens = (tokens, "")) ∧
  "when" ∉ (splitReplsAndWhen tokens).1.
Proof.
  unfold splitReplsAndWhen. split; [|split].
  - intros Hnot. rewrite when_index_first by done. simpl.
    by rewrite take_app_length, drop_after_middle.
  - intros Hnot. by rewrite when_index_none.
  - destruct (decide ("when" ∈ tokens)) as [Hin|Hnot].
    + apply list_elem_of_split_l in Hin as (pre' & post' & -> & Hpre).
      rewrite when_index_first by done. simpl. by rewrite take_app_length.
    + by rewrite when_index_none.
Qed.

End any_run_12.

Lemma splitReplsAndWhen_cut_witness :
  (("when" ∉ ["$0"; "$1"]) ∧
   splitReplsAndWhen (["$0"; "$1"] ++ "when" :: ["x"; "y"]) = (["$0"; "$1"], "x y")) ∧
  (("when" ∉ ["$0"]) ∧ splitReplsAndWhen ["$0"] = (["$0"], "")).
Proof.
  assert ("when" ∉ ["$0"; "$1"]) as H1.
  { intros Hin. repeat (apply elem_of_cons in Hin as [Hin|Hin]; [discriminate|]).
    by apply elem_of_nil in Hin. }
  assert ("when" ∉ ["$0"]) as H2.
  { intros Hin. repeat (apply elem_of_cons in Hin as [Hin|Hin]; [discriminate|]).
    by apply elem_of_nil in Hin. }
  split.
  - split; [exact H1|].
    exact (proj1 (splitReplsAndWhen_cut ["$0"; "$1"] ["x"; "y"] []) H1).
  - split; [exact H2|].
    exact (proj1 (proj2 (splitReplsAndWhen_cut [] [] ["$0"])) H2).
Defined.

(** ** [compile] and [Provision] *)

Section any_run_13.
Context {run : Runtime}.

Section handler_props.
Context `{RegexpPkg} `{JsonPkg} `{CaddyPkg}.

Lemma compile_type_authored (a : Action) : authored (compile_type a).1 = authored a.
Proof.
  unfold compile_type.
  repeat (match goal with
          | |- context [if ?b then _ else _] => destruct b
          | |- context [match ?r with Ok _ => _ | Err _ => _ end] => destruct r
          end; try done).
Qed.

Lemma compile_authored (a : Action) : authored (compile a).1 = authored a.
Proof.
  unfold compile. pose proof (compile_type_authored a) as Hty.
  destruct (compile_type a) as [a1 [e|]]; simpl in *; [done|].
  destruct (negb _); [|done]. by destruct (Provision (When a1)).
Qed.

Lemma compile_type_ok (a a' : Action) :
  compile_type a = (a', None) →
  Type_ a' ∈ ["set"; "merge"; "delete"; "transform_array"; "merge_if_match"] ∧
  (Type_ a' = "transform_array" → is_Some (compiledRegex a') ∧ Replacements a' ≠ []) ∧
  (Type_ a' = "merge_if_match" →
     is_Some (compiledRegex a') ∧ is_object (compiledValue a') = true ∧ Target a' ≠ "").
Proof.
  unfold compile_type.
  destruct (String.eqb_spec (Type_ a) "set") as [Hty|Hset]; simpl.
  { destruct (_ =? _)%nat; [done|]. destruct (json_Unmarshal _); [|done].
    intros [= <-]. simpl. rewrite Hty. split; [set_solver|]. by split. }
  destruct (String.eqb_spec (Type_ a) "merge") as [Hty|Hmerge]; simpl.
  { destruct (_ =? _)%nat; [done|]. destruct (json_Unmarshal _); [|done].
    intros [= <-]. simpl. rewrite Hty. split; [set_solver|]. by split. }
  destruct (String.eqb_spec (Type_ a) "delete") as [Hty|Hdelete].
  { intros [= <-]. rewrite Hty. split; [set_solver|]. by split. }
  destruct (String.eqb_spec (Type_ a) "transform_array") as [Hty|Htransform].
  { destruct (String.eqb (Regex a) ""); [done|].
    destruct (regexp_Compile _) as [re|]; [|done].
    destruct (Nat.eqb_spec (length (Replacements a)) 0) as [|Hlen]; [done|].
    intros [= <-]. simpl. rewrite Hty. split; [set_solver|]. split; [|done].
    intros _. split; [by eexists|]. intros Hnil. by rewrite Hnil in Hlen. }
  destruct (String.eqb_spec (Type_ a) "merge_if_match") as [Hty|Hmim]; [|done].
  destruct (String.eqb (Regex a) ""); [done|].
  destruct (String.eqb_spec (Target a) "") as [|Htarget]; [done|].
  destruct (regexp_Compile _) as [re|]; [|done].
  destruct (json_Unmarshal _) as [v|]; [|done].
  destruct (is_object v) eqn:Hobj; [|done].
  intros [= <-]. simpl. rewrite Hty. split; [set_solver|]. split; [done|].
  intros _. split; [by eexists|done].
Qed.

Lemma compile_compiled (a : Action) : (compile a).2 = None → compiled (compile a).1.
Proof.
  unfold compile.
  destruct (compile_type a) as [a1 [e|]] eqn:Hty; [done|].
  apply compile_type_ok in Hty as (Hin & Htr & Hmim).
  destruct (String.eqb_spec (TrimSpace (When a1)) "") as [Hblank|Hwhen]; simpl.
  - intros _. by split; [|split; [|split]].
  - destruct (Provision (When a1)) as [me|]; [|done]. intros _.
    split; [done|]. split; [done|]. split; [done|]. intros _. by eexists.
Qed.

(** X3.  What [compile] leaves behind.  The fields the author wrote are never
    changed, with or without an error.  When no error is returned the action
    is ready for [applyActions]: its type is one of the five, a
    [transform_array] has its expression and at least one template, a
    [merge_if_match] has its expression, a target path and a value that is an
    Object, and a [when] that is not blank has its matcher. *)
Theorem compile_ok (a : Action) :
  authored (compile a).1 = authored a ∧
  ((compile a).2 = None → compiled (compile a).1).
Proof. split; [apply compile_authored|apply compile_compiled]. Qed.

Lemma compileActions_ok (actions : list Action) :
  (compileActions actions).2 = None →
  Forall compiled (compileActions actions).1 ∧
  authored <$> (compileActions actions).1 = authored <$> actions.
Proof.
  induction actions as [|a rest IH]; simpl; [done|].
  pose proof (compile_authored a) as Ha. pose proof (compile_compiled a) as Hok.
  destruct (compile a) as [a1 [e|]]; [done|].
  destruct (compileActions rest) as [rest' err]. simpl in *.
  intros ->. destruct (IH eq_refl) as [Hall Hauth].
  split; [constructor; auto|]. f_equal; [exact Ha|exact Hauth].
Qed.

Lemma compileActions_error (actions : list Action) (e : error) :
  (compileActions actions).2 = Some e →
  ∃ pre a post,
    actions = pre ++ a :: post ∧
    Forall (λ b, (compile b).2 = None) pre ∧
    (compile a).2 = Some e ∧
    (compileActions actions).1 = ((λ b, (compile b).1) <$> pre) ++ (compile a).1 :: post.
Proof.
  induction actions as [|a rest IH]; simpl; [done|].
  destruct (compile a) as [a1 [e1|]] eqn:Hc.
  - intros [= ->]. exists [], a, rest. rewrite Hc. by repeat split.
  - destruct (compileActions rest) as [rest' err]. simpl in *.
    intros ->. destruct (IH eq_refl) as (pre & b & post & -> & Hpre & Hb & ->).
    exists (a :: pre), b, post. simpl. rewrite Hc. repeat split; try done.
    constructor; [by rewrite Hc|done].
Qed.

(** X4.  [Provision] without an error leaves every action compiled, in the order
    and with the fields the author wrote, and does not touch [Strict]. *)
Theorem Provision_ok (j : JSONParse) :
  (JSONParse_Provision j).2 = None →
  Forall compiled (Actions (JSONParse_Provision j).1) ∧
  authored <$> Actions (JSONParse_Provision j).1 = authored <$> Actions j ∧
  Strict (JSONParse_Provision j).1 = Strict j.
Proof.
  unfold JSONParse_Provision. pose proof (compileActions_ok (Actions j)) as Hok.
  destruct (compileActions (Actions j)) as [actions err]. simpl in *.
  intros ->. by destruct (Hok eq_refl).
Qed.

(** X5.  The error [Provision] returns is the one of the first action that does
    not compile.  The actions before it are compiled, that one is as its
    [compile] left it, and the ones after it were not looked at. *)
Theorem Provision_error (j : JSONParse) (e : error) :
  (JSONParse_Provision j).2 = Some e →
  ∃ pre a post,
    Actions j = pre ++ a :: post ∧
    Forall (λ b, (compile b).2 = None) pre ∧
    (compile a).2 = Some e ∧
    Actions (JSONParse_Provision j).1
    = ((λ b, (compile b).1) <$> pre) ++ (compile a).1 :: post.
Proof.
  unfold JSONParse_Provision. pose proof (compileActions_error (Actions j) e) as Herr.
  destruct (compileActions (Actions j)) as [actions err]. simpl in *.
  intros ->. by apply Herr.
Qed.
End handler_props.

End any_run_13.

Lemma compile_ok_witness :
  (compile options_action).2 = None ∧
  authored (compile options_action).1 = authored options_action ∧
  compiled (compile options_action).1.
Proof.
  assert ((compile options_action).2 = None) as Hnone by (vm_compute; reflexivity).
  split; [exact Hnone|].
  split; [exact (proj1 (compile_ok options_action))|].
  exact (proj2 (compile_ok options_action) Hnone).
Defined.

(** A [when] of Unicode white space is blank: [compile] provisions no
    matcher for it and returns nil. *)
Lemma when_of_no_break_space :
  TrimSpace (When delete_a_when_nbsp) = "" ∧
  (compile delete_a_when_nbsp).2 = None ∧
  matcher (compile delete_a_when_nbsp).1 = None.
Proof. repeat split; vm_compute; reflexivity. Qed.

Lemma Provision_ok_witness :
  (JSONParse_Provision (mkJSONParse true [mirror_action; options_action])).2 = None ∧
  Forall compiled
    (Actions (JSONParse_Provision (mkJSONParse true [mirror_action; options_action])).1) ∧
  Strict (JSONParse_Provision (mkJSONParse true [mirror_action; options_action])).1 = true.
Proof.
  assert ((JSONParse_Provision (mkJSONParse true [mirror_action; options_action])).2 = None)
    as Hnone by (vm_compute; reflexivity).
  split; [exact Hnone|].
  destruct (Provision_ok (mkJSONParse true [mirror_action; options_action]) Hnone)
    as (Hall & _ & Hstrict).
  split; [exact Hall|exact Hstrict].
Defined.

Lemma Provision_error_witness :
  (JSONParse_Provision (mkJSONParse false [mirror_action; no_regex_action; options_action])).2
  = Some "transform_array params.0: regex required" ∧
  ∃ pre a post,
    [mirror_action; no_regex_action; options_action] = pre ++ a :: post ∧
    Forall (λ b, (compile b).2 = None) pre ∧
    (compile a).2 = Some "transform_array params.0: regex required" ∧
    Actions (JSONParse_Provision
               (mkJSONParse false [mirror_action; no_regex_action; options_action])).1
    = ((λ b, (compile b).1) <$> pre) ++ (compile a).1 :: post.
Proof.
  assert ((JSONParse_Provision
             (mkJSONParse false [mirror_action; no_regex_action; options_action])).2
          = Some "transform_array params.0: regex required") as Herr
    by (vm_compute; reflexivity).
  split; [exact Herr|].
  exact (Provision_error
           (mkJSONParse false [mirror_action; no_regex_action; options_action]) _ Herr).
Defined.

(** ** [applyActions] *)

Section any_run_14.
Context {run : Runtime}.

Section actions_props.
Context `{RegexpPkg} `{JsonPkg} `{CaddyPkg}.

Lemma applyMerge_error (root : json) (path : string) (value : json) (c : bool)
    (e : error) (root' : json) :
  applyMerge root path value = Some (c, Some e, root') →
  is_object value = false ∧ c = false ∧ root' = root ∧
  e = ("merge " ++ path ++ ": value must be an object")%string.
Proof.
  unfold applyMerge. case_decide; [done|].
  destruct value; try (by intros [= <- <- <-]).
  by destruct (foldM _ _ _) as [[c1 r1]|].
Qed.

Lemma applyMergeIfMatch_error (root : json) (sourcePath targetPath : string)
    (re : Regexp) (value : json) (c : bool) (e : error) (root' : json) :
  applyMergeIfMatch root sourcePath targetPath re value = Some (c, Some e, root') →
  is_object value = false.
Proof.
  unfold applyMergeIfMatch. destruct (negb _); [done|].
  by intros (? & _)%applyMerge_error.
Qed.

(** The loop of [applyActions] from a flag that is already set. *)
Lemma applyActions_from_flag (actions : list Action) (r : Request) :
  ∀ m root,
    applyActions_from m root actions r
    = (λ res, (m || res.1.1, res.1.2, res.2)) <$> applyActions_from false root actions r.
Proof.
  induction actions as [|act rest IH]; intros m root; cbn [applyActions_from].
  { simpl. by rewrite orb_false_r. }
  assert (∀ ch root1,
            applyActions_from (m || ch) root1 rest r
            = (λ res, (m || res.1.1, res.1.2, res.2))
                <$> applyActions_from (false || ch) root1 rest r) as Htail.
  { intros ch root1. rewrite (IH (m || ch)), (IH (false || ch)).
    destruct (applyActions_from false root1 rest r) as [[[c e] rt]|]; simpl; [|done].
    by rewrite orb_assoc. }
  destruct (match matcher act with Some me => negb (Match me r) | None => false end);
    [apply IH|].
  destruct (String.eqb (Type_ act) "set").
  { destruct (applySet _ _ _) as [[ch root1]|]; simpl; [apply Htail|done]. }
  destruct (String.eqb (Type_ act) "merge").
  { destruct (applyMerge _ _ _) as [[[ch [e|]] root1]|]; simpl; [|apply Htail|done].
    by rewrite orb_false_r. }
  destruct (String.eqb (Type_ act) "delete").
  { destruct (applyDelete _ _) as [[ch root1]|]; simpl; [apply Htail|done]. }
  destruct (String.eqb (Type_ act) "transform_array").
  { destruct (compiledRegex act) as [re|]; simpl; [|done].
    destruct (applyTransformArray _ _ _ _) as [[ch root1]|]; simpl; [apply Htail|done]. }
  destruct (String.eqb (Type_ act) "merge_if_match").
  { destruct (compiledRegex act) as [re|]; simpl; [|done].
    destruct (applyMergeIfMatch _ _ _ _ _) as [[[ch [e|]] root1]|]; simpl;
      [|apply Htail|done].
    by rewrite orb_false_r. }
  simpl. by rewrite orb_false_r.
Qed.

Lemma applyActions_from_app (l1 l2 : list Action) (r : Request) :
  ∀ m root,
    applyActions_from m root (l1 ++ l2) r
    = match applyActions_from m root l1 r with
      | Some (m1, None, root1) => applyActions_from m1 root1 l2 r
      | other => other
      end.
Proof.
  induction l1 as [|act rest IH]; intros m root; [done|].
  rewrite <-app_comm_cons. cbn [applyActions_from].
  destruct (match matcher act with Some me => negb (Match me r) | None => false end);
    [apply IH|].
  destruct (String.eqb (Type_ act) "set").
  { destruct (applySet _ _ _) as [[ch root1]|]; simpl; [apply IH|done]. }
  destruct (String.eqb (Type_ act) "merge").
  { by destruct (applyMerge _ _ _) as [[[ch [e|]] root1]|]; simpl; [|apply IH|]. }
  destruct (String.eqb (Type_ act) "delete").
  { destruct (applyDelete _ _) as [[ch root1]|]; simpl; [apply IH|done]. }
  destruct (String.eqb (Type_ act) "transform_array").
  { destruct (compiledRegex act) as [re|]; simpl; [|done].
    destruct (applyTransformArray _ _ _ _) as [[ch root1]|]; simpl; [apply IH|done]. }
  destruct (String.eqb (Type_ act) "merge_if_match"); [|done].
  destruct (compiledRegex act) as [re|]; simpl; [|done].
  by destruct (applyMergeIfMatch _ _ _ _ _) as [[[ch [e|]] root1]|]; simpl; [|apply IH|].
Qed.

(** X6.  Running [l1 ++ l2] is running [l1] and then, when [l1] went through
    without an error, [l2] on the tree that [l1] left: the flags are
    or-ed, and an error or a panic of [l1] is the result, the tree it had
    reached included. *)
Theorem applyActions_app (root : json) (l1 l2 : list Action) (r : Request) :
  applyActions root (l1 ++ l2) r
  = match applyActions root l1 r with
    | Some (m1, None, root1) =>
        (λ res, (m1 || res.1.1, res.1.2, res.2)) <$> applyActions root1 l2 r
    | other => other
    end.
Proof.
  unfold applyActions. rewrite applyActions_from_app.
  destruct (applyActions_from false root l1 r) as [[[m1 [e|]] root1]|]; try done.
  apply applyActions_from_flag.
Qed.

Lemma applyActions_from_error (actions : list Action) (r : Request) :
  Forall compiled actions →
  ∀ m0 root m e root',
    applyActions_from m0 root actions r = Some (m, Some e, root') →
    ∃ pre a post,
      actions = pre ++ a :: post ∧
      applyActions_from m0 root pre r = Some (m, None, root') ∧
      Type_ a = "merge" ∧ is_object (compiledValue a) = false ∧
      e = ("merge " ++ Path a ++ ": value must be an object")%string.
Proof.
  induction 1 as [|act rest Hact _ IH]; intros m0 root m e root'; [done|].
  cbn [applyActions_from].
  assert (∀ m1 root1,
            applyActions_from m0 root [act] r = Some (m1, None, root1) →
            applyActions_from m1 root1 rest r = Some (m, Some e, root') →
            ∃ pre a post,
              act :: rest = pre ++ a :: post ∧
              applyActions_from m0 root pre r = Some (m, None, root') ∧
              Type_ a = "merge" ∧ is_object (compiledValue a) = false ∧
              e = ("merge " ++ Path a ++ ": value must be an object")%string) as Htail.
  { intros m1 root1 Hone (pre & a & post & -> & Hpre & Ha)%IH.
    exists (act :: pre), a, post. split; [done|]. split; [|done].
    rewrite (applyActions_from_app [act] pre). by rewrite Hone. }
  revert Htail. cbn [applyActions_from].
  destruct (match matcher act with Some me => negb (Match me r) | None => false end);
    [intros Htail; by apply Htail|].
  destruct Hact as (Hty & Htr & Hmim & _).
  destruct (String.eqb_spec (Type_ act) "set") as [_|Hn1].
  { destruct (applySet _ _ _) as [[ch root1]|]; simpl; [|done].
    intros Htail. by apply Htail. }
  destruct (String.eqb_spec (Type_ act) "merge") as [Hmerge|Hn2].
  { destruct (applyMerge _ _ _) as [[[ch [e1|]] root1]|] eqn:Hm; simpl; [| |done].
    - intros _ [= <- <- <-]. apply applyMerge_error in Hm as (Hobj & _ & -> & ->).
      by exists [], act, rest.
    - intros Htail. by apply Htail. }
  destruct (String.eqb_spec (Type_ act) "delete") as [_|Hn3].
  { destruct (applyDelete _ _) as [[ch root1]|]; simpl; [|done].
    intros Htail. by apply Htail. }
  destruct (String.eqb_spec (Type_ act) "transform_array") as [_|Hn4].
  { destruct (compiledRegex act) as [re|]; simpl; [|done].
    destruct (applyTransformArray _ _ _ _) as [[ch root1]|]; simpl; [|done].
    intros Htail. by apply Htail. }
  destruct (String.eqb_spec (Type_ act) "merge_if_match") as [Hty'|Hne].
  { destruct (compiledRegex act) as [re|]; simpl; [|done].
    destruct (applyMergeIfMatch _ _ _ _ _) as [[[ch [e1|]] root1]|] eqn:Hm; simpl;
      [| |done].
    - apply applyMergeIfMatch_error in Hm. destruct (Hmim Hty') as (_ & Hobj & _).
      congruence.
    - intros Htail. by apply Htail. }
  intros _. repeat (apply elem_of_cons in Hty as [Hty|Hty]; [done|]).
  by apply elem_of_nil in Hty.
Qed.

(** X7.  Of actions that [compile] has accepted, only a [merge] can make
    [applyActions] return an error, and only by its value not being an
    Object.  The tree and the flag returned with the error are those the
    actions before that [merge] had produced; the ones after it did not
    run. *)
Theorem applyActions_error (root : json) (actions : list Action) (r : Request)
    (m : bool) (e : error) (root' : json) :
  Forall compiled actions →
  applyActions root actions r = Some (m, Some e, root') →
  ∃ pre a post,
    actions = pre ++ a :: post ∧
    applyActions root pre r = Some (m, None, root') ∧
    Type_ a = "merge" ∧ is_object (compiledValue a) = false ∧
    e = ("merge " ++ Path a ++ ": value must be an object")%string.
Proof. intros Hall. by apply applyActions_from_error. Qed.

Lemma applyActions_from_skipped (actions : list Action) (r : Request) (m : bool)
    (root : json) :
  Forall (λ a, ∃ me, matcher a = Some me ∧ Match me r = false) actions →
  applyActions_from m root actions r = Some (m, None, root).
Proof.
  induction 1 as [|act rest (me & Hme & Hno) _ IH]; [done|].
  cbn [applyActions_from]. by rewrite Hme, Hno.
Qed.

(** X8.  When the request satisfies the [when] of none of the actions, nothing
    runs: no change is reported and the tree is as it was, whatever the
    actions are. *)
Theorem applyActions_none_match (root : json) (actions : list Action) (r : Request) :
  Forall (λ a, ∃ me, matcher a = Some me ∧ Match me r = false) actions →
  applyActions root actions r = Some (false, None, root).
Proof. apply applyActions_from_skipped. Qed.
End actions_props.

End any_run_14.

Lemma applyActions_error_witness :
  Forall compiled [(compile set_b_true).1; (compile merge_a_5).1; (compile set_b_true).1] ∧
  applyActions (object [("a", object [])])
    [(compile set_b_true).1; (compile merge_a_5).1; (compile set_b_true).1] tt
  = Some (true, Some "merge a: value must be an object",
          object [("a", object []); ("b", JBool true)]) ∧
  ∃ pre a post,
    [(compile set_b_true).1; (compile merge_a_5).1; (compile set_b_true).1]
    = pre ++ a :: post ∧
    applyActions (object [("a", object [])]) pre tt
    = Some (true, None, object [("a", object []); ("b", JBool true)]) ∧
    Type_ a = "merge" ∧ is_object (compiledValue a) = false ∧
    "merge a: value must be an object"
    = ("merge " ++ Path a ++ ": value must be an object")%string.
Proof.
  assert (Forall compiled
            [(compile set_b_true).1; (compile merge_a_5).1; (compile set_b_true).1])
    as Hall.
  { repeat (constructor; [apply compile_compiled; vm_compute; reflexivity|]).
    constructor. }
  assert (applyActions (object [("a", object [])])
            [(compile set_b_true).1; (compile merge_a_5).1; (compile set_b_true).1] tt
          = Some (true, Some "merge a: value must be an object",
                  object [("a", object []); ("b", JBool true)])) as Hrun
    by (vm_compute; reflexivity).
  split; [exact Hall|]. split; [exact Hrun|].
  exact (applyActions_error _ _ tt _ _ _ Hall Hrun).
Defined.

Lemma applyActions_none_match_witness :
  Forall (λ a, ∃ me, matcher a = Some me ∧ Match me tt = false)
    [(compile delete_a_never).1] ∧
  applyActions (object [("a", JInt 1)]) [(compile delete_a_never).1] tt
  = Some (false, None, object [("a", JInt 1)]).
Proof.
  assert (Forall (λ a, ∃ me, matcher a = Some me ∧ Match me tt = false)
            [(compile delete_a_never).1]) as Hall.
  { constructor; [|constructor]. exists false. split; vm_compute; reflexivity. }
  split; [exact Hall|].
  exact (applyActions_none_match _ _ tt Hall).
Defined.

(** ** A loop over the targets of a walk runs to its end *)

Section any_run_15.
Context {run : Runtime}.

Lemma growable_tail (seg seg' : string) (rest : list string) :
  growable (seg :: seg' :: rest) → growable (seg' :: rest).
Proof. intros Hg s idx Hs Hidx. apply (Hg s idx); [by rewrite last_cons_cons|done]. Qed.

Section walk_runs.
Variable u : option json → option json * bool.
Variable step : bool * json → target → option (bool * json).

Hypothesis step_spec : ∀ t st c, settable t st ∨ unsettable t st →
  step (c, st) t =
    match u (get t st) with
    | (Some nv, b) => st' ← set t nv st; Some (c || b, st')
    | (None, b) => Some (c || b, st)
    end.

Lemma walk_rest (rest : list string) :
  ∀ x L S st c c' st',
    rest ≠ [] → slot L S → L st = Some x →
    foldM step (c, st) (walkTargets x L S rest) = Some (c', st') →
    S (updT u rest x) st = Some st' ∧ c' = c || updC u rest x.
Proof.
  intros x L S st c c' st' Hne HLS HL Hfold.
  destruct rest as [|seg' rest']; [done|]. by eapply walk_fold.
Qed.

Lemma leaf_total (t : target) (st : json) (c : bool) :
  settable t st → is_Some (foldM step (c, st) [t]).
Proof.
  intros Hs. simpl. rewrite (step_spec _ _ _ (or_introl Hs)).
  destruct (u (get t st)) as [[nv|] b]; simpl; [|done].
  destruct (Hs nv) as (st' & -> & _). done.
Qed.

Lemma array_loop_total {load : json → option json} {setter : json → json → option json}
    (Hslot : slot load setter) (F : nat → json → list target) (f : json → json)
    (g : json → bool) :
  (∀ i x st c c' st', elemLoad load (Z.of_nat i) st = Some x →
     foldM step (c, st) (F i x) = Some (c', st') →
     elemSetter load setter (Z.of_nat i) (f x) st = Some st' ∧ c' = c || g x) →
  (∀ i x st c, elemLoad load (Z.of_nat i) st = Some x →
     is_Some (foldM step (c, st) (F i x))) →
  ∀ suf pre st c,
    load st = Some (JArray (pre ++ suf)) →
    is_Some (foldM step (c, st) (concat (imap (λ i, F (length pre + i)%nat) suf))).
Proof.
  intros Heffect Htotal. induction suf as [|x suf IH]; intros pre st c Hload; [done|].
  rewrite imap_cons. simpl concat. rewrite foldM_app.
  assert (in_range (Z.of_nat (length pre + 0)) (pre ++ x :: suf) = true) as Hr.
  { rewrite in_range_of_nat. apply bool_decide_eq_true.
    rewrite length_app. simpl. lia. }
  assert (elemLoad load (Z.of_nat (length pre + 0)) st = Some x) as Hlx.
  { rewrite (elemLoad_array _ _ _ Hload), Hr, Nat2Z.id, Nat.add_0_r.
    by rewrite list_lookup_middle. }
  destruct (Htotal _ _ _ c Hlx) as [[cm stm] Hx]. rewrite Hx. simpl.
  destruct (Heffect _ _ _ _ _ _ Hlx Hx) as [Hset ->].
  rewrite (elemSetter_array _ _ _ _ Hload Hr), Nat2Z.id in Hset.
  rewrite insert_app_r in Hset. simpl in Hset.
  pose proof (slot_load_after _ _ _ _ _ Hslot ltac:(by rewrite Hload) Hset) as Hloadm.
  rewrite (cons_middle (f x)), app_assoc in Hloadm.
  specialize (IH _ _ (c || g x) Hloadm).
  erewrite imap_ext; [exact IH|].
  intros i y _. simpl. f_equal. rewrite length_app. simpl. lia.
Qed.

Lemma object_loop_total {load : json → option json} {setter : json → json → option json}
    (Hslot : slot load setter) (F : string → json → list target) (f : json → json)
    (g : json → bool) :
  (∀ k x st c c' st', keyLoad load k st = Some x →
     foldM step (c, st) (F k x) = Some (c', st') →
     keySetter load setter k (f x) st = Some st' ∧ c' = c || g x) →
  (∀ k x st c, keyLoad load k st = Some x → is_Some (foldM step (c, st) (F k x))) →
  ∀ (l : list (string * json)) m st c,
    NoDup l.*1 → (∀ k x, (k, x) ∈ l → m !! k = Some x) →
    load st = Some (JObject m) →
    is_Some (foldM step (c, st) (concat ((λ kv, F kv.1 kv.2) <$> l))).
Proof.
  intros Heffect Htotal. induction l as [|[k x] l IH]; intros m st c Hnd Hin Hload; [done|].
  simpl. rewrite foldM_app. apply NoDup_cons in Hnd as [Hk Hnd].
  assert (keyLoad load k st = Some x) as Hlx.
  { rewrite (keyLoad_object _ _ _ Hload). apply Hin. left. }
  destruct (Htotal _ _ _ c Hlx) as [[cm stm] Hx]. rewrite Hx. simpl.
  destruct (Heffect _ _ _ _ _ _ Hlx Hx) as [Hset ->].
  rewrite (keySetter_object _ _ _ _ Hload) in Hset.
  pose proof (slot_load_after _ _ _ _ _ Hslot ltac:(by rewrite Hload) Hset) as Hloadm.
  apply (IH (<[k := f x]> m)); [done| |done].
  intros k' x' Hin'. rewrite lookup_insert_ne; [apply Hin; by right|].
  intros <-. apply Hk. apply list_elem_of_fmap. by exists (k, x').
Qed.

(** The loop does not panic, unless it has to store at an index for which
    [make] gives no slice. *)
Lemma walk_total (segments : list string) :
  (is_Some (u None).1 → growable segments) →
  ∀ cur load setter st c,
    slot load setter → load st = Some cur →
    is_Some (foldM step (c, st) (walkTargets cur load setter segments)).
Proof.
  induction segments as [|seg rest IH]; intros Hgrow cur load setter st c Hslot Hload;
    [done|].
  assert (rest ≠ [] → is_Some (u None).1 → growable rest) as Hgrow'.
  { intros Hne Hu. destruct rest as [|seg' rest']; [done|].
    by eapply growable_tail, Hgrow. }
  assert (∀ i x st c d, elemLoad load i st = Some x →
            is_Some (foldM step (c, st)
              (if match rest with [] => true | _ => false end
               then [mkTarget (elemGet load i) (elemSetter load setter i) d]
               else walkTargets x (elemLoad load i) (elemSetter load setter i) rest)))
    as Helem.
  { intros i x st0 c0 d Hx. destruct rest as [|seg' rest'] eqn:Hrest.
    - apply leaf_total. apply elemLoad_Some in Hx as (v & Hv & Hr & _).
      by eapply settable_elem.
    - apply IH; [by apply Hgrow'|by apply slot_elem|done]. }
  assert (∀ k x st c d, keyLoad load k st = Some x →
            is_Some (foldM step (c, st)
              (if match rest with [] => true | _ => false end
               then [mkTarget (keyGet load k) (keySetter load setter k) d]
               else walkTargets x (keyLoad load k) (keySetter load setter k) rest)))
    as Hkey.
  { intros k x st0 c0 d Hx. destruct rest as [|seg' rest'] eqn:Hrest.
    - apply leaf_total. apply keyLoad_Some in Hx as (m & Hm & _).
      by eapply settable_key.
    - apply IH; [by apply Hgrow'|by apply slot_key|done]. }
  cbn [walkTargets].
  destruct (String.eqb seg "*") eqn:Hstar.
  - destruct cur as [| | | |v|m]; try done.
    + apply (array_loop_total Hslot
               (λ i vi,
                  if match rest with [] => true | _ => false end then
                    [mkTarget (elemGet load (Z.of_nat i))
                       (elemSetter load setter (Z.of_nat i))
                       (Some (elemDel load setter (Z.of_nat i)))]
                  else walkTargets vi (elemLoad load (Z.of_nat i))
                         (elemSetter load setter (Z.of_nat i)) rest)
               (updT u rest) (updC u rest) ) with (pre := []); [| |exact Hload].
      * intros i x st0 c0 c0' st0'.
        apply (child_elem u step step_spec rest (walk_rest rest) Hslot).
      * intros i x st0 c0. apply Helem.
    + apply (object_loop_total Hslot
               (λ k x,
                  if match rest with [] => true | _ => false end then
                    [mkTarget (keyGet load k) (keySetter load setter k)
                       (Some (keyDel load setter k))]
                  else walkTargets x (keyLoad load k) (keySetter load setter k) rest)
               (updT u rest) (updC u rest)) with (m := m);
        [| |apply NoDup_fst_map_to_list| |exact Hload].
      * intros k x st0 c0 c0' st0'.
        apply (child_key u step step_spec rest (walk_rest rest) Hslot).
      * intros k x st0 c0. apply Hkey.
      * intros k x. apply elem_of_map_to_list.
  - destruct (Atoi seg) as [idx|] eqn:Hidx.
    + destruct cur as [| | | |arr|m]; try done.
      destruct (Z.leb_spec 0 idx) as [H0|H0]; [|done].
      pose proof (Atoi_range _ _ Hidx) as [_ Hmax].
      destruct rest as [|seg' rest'] eqn:Hrest.
      * destruct (index_target_ok load setter idx st arr
                    (Some (elemDel load setter idx)) Hslot Hload H0 Hmax)
          as [Hs|[Hu Hget]]; [by apply leaf_total|].
        simpl. rewrite (step_spec _ _ _ (or_intror Hu)), Hget.
        destruct (u None) as [[nv|] b] eqn:Hnone; simpl; [|done].
        exfalso. assert (idx < max_len) as Hlt.
        { eapply (Hgrow ltac:(by eexists)); [done|exact Hidx]. }
        destruct (settable_index Hslot idx st arr (Some (elemDel load setter idx))
                    Hload H0 Hmax) as [Hs|_].
        -- destruct (Hs nv) as (st' & Hset & _). rewrite (Hu nv) in Hset. done.
        -- revert Hu. unfold unsettable. simpl. intros Hu.
           destruct (Z.ltb_spec idx (len arr)) as [Hin|Hout].
           ++ specialize (Hu nv).
              rewrite (indexSet_in_range _ _ _ _ Hload) in Hu
                by (apply andb_true_iff; by rewrite Z.leb_le, Z.ltb_lt).
              destruct (slot_put_get _ _ Hslot st (JArray (<[Z.to_nat idx := nv]> arr)))
                as (st' & Hset & _); [by rewrite Hload|]. congruence.
           ++ specialize (Hu nv).
              rewrite (indexSet_grow Hslot _ _ _ _ Hload) in Hu by lia.
              destruct (slot_put_get _ _ Hslot st
                          (JArray (arr ++ replicate (Z.to_nat idx - length arr) JNull
                                       ++ [nv])))
                as (st' & Hset & _); [by rewrite Hload|]. congruence.
      * destruct (Z.ltb_spec idx (len arr)) as [Hin|Hout]; [|done].
        destruct (arr !! Z.to_nat idx) as [x|] eqn:Hx; [|done].
        apply IH; [by apply Hgrow'|by apply slot_elem|].
        rewrite (elemLoad_array _ _ _ Hload).
        by rewrite (proj2 (in_range_lt idx arr)) by (unfold len in Hin; lia).
    + destruct cur as [| | | |arr|m]; try done.
      destruct rest as [|seg' rest'] eqn:Hrest.
      * apply leaf_total. by eapply settable_key.
      * destruct (m !! seg) as [x|] eqn:Hx; [|done].
        apply IH; [by apply Hgrow'|by apply slot_key|].
        by rewrite (keyLoad_object _ _ _ Hload).
Qed.

(** What the loop over the targets of a path does to the tree under the
    root. *)
Lemma findTargets_run (root : json) (path : string) (c : bool) :
  (is_Some (u None).1 → growable (Split path ".")) →
  foldM step (c, root) (findTargets root path)
  = Some (c || updC u (Split path ".") root, updT u (Split path ".") root).
Proof.
  intros Hgrow. unfold findTargets.
  destruct (walk_total _ Hgrow root (λ st, Some st) (λ v _, Some v) root c
              slot_root eq_refl) as [[c' st'] Hfold].
  rewrite Hfold. destruct (Split_cons path ".") as (seg & rest & Hsplit).
  rewrite Hsplit in *.
  destruct (walk_fold u step step_spec rest seg root _ _ root c c' st' slot_root eq_refl Hfold)
    as [[= <-] ->].
  done.
Qed.
End walk_runs.

(** ** An update that reports no change *)

Lemma existsb_false_Forall {A : Type} (f : A → bool) (l : list A) :
  existsb f l = false → Forall (λ x, f x = false) l.
Proof.
  induction l as [|x l IH]; simpl; [constructor|].
  intros [Hx Hl]%orb_false_iff. constructor; auto.
Qed.

Lemma fmap_id_Forall {A : Type} (f : A → A) (l : list A) :
  Forall (λ x, f x = x) l → f <$> l = l.
Proof. induction 1 as [|x l Hx _ IH]; [done|]. rewrite fmap_cons. by rewrite Hx, IH. Qed.

(** When [u] stores nothing without raising its flag, a loop that reports
    no change has left the container as it was. *)
Lemma updT_quiet (u : option json → option json * bool) :
  (∀ c, (u c).2 = false → (u c).1 = None) →
  ∀ segments cur, updC u segments cur = false → updT u segments cur = cur.
Proof.
  intros Hu. induction segments as [|seg rest IH]; intros cur; cbn [updT updC].
  { intros Hc. by rewrite (Hu _ Hc). }
  destruct (String.eqb seg "*").
  - destruct cur as [| | | |v|m]; try done.
    + intros Hex%existsb_false_Forall. f_equal. apply fmap_id_Forall.
      eapply Forall_impl; [exact Hex|]. intros x Hx. by apply IH.
    + intros Hex%existsb_false_Forall. f_equal. apply map_eq. intros k.
      rewrite lookup_fmap. destruct (m !! k) as [x|] eqn:Hx; [|done]. simpl. f_equal.
      apply IH. rewrite Forall_forall in Hex.
      apply (Hex (k, x)). by apply elem_of_map_to_list.
  - destruct (Atoi seg) as [idx|].
    + destruct cur as [| | | |arr|m]; try done.
      destruct (Z.leb_spec 0 idx) as [H0|H0]; [|done].
      destruct (Z.ltb_spec idx (len arr)) as [Hin|Hout].
      * destruct (arr !! Z.to_nat idx) as [x|] eqn:Hx.
        -- intros Hc. by rewrite (list_alter_lookup _ _ _ _ Hx), (IH _ Hc), list_insert_id.
        -- apply lookup_ge_None in Hx. unfold len in Hin. lia.
      * destruct rest as [|seg' rest']; [|done]. intros Hc. by rewrite (Hu _ Hc).
    + destruct cur as [| | | |arr|m]; try done.
      destruct (m !! seg) as [x|] eqn:Hx.
      * intros Hc. by rewrite (map_alter_lookup _ _ _ _ Hx), (IH _ Hc), insert_id.
      * destruct rest as [|seg' rest']; [|done]. intros Hc. by rewrite (Hu _ Hc).
Qed.

(** ** Storing into a target what it holds *)

Lemma walk_get_put (segments : list string) :
  ∀ cur load setter st,
    slot load setter → load st = Some cur →
    Forall (λ t, ∀ x, get t st = Some x → set t x st = Some st)
      (walkTargets cur load setter segments).
Proof.
  induction segments as [|seg rest IH]; intros cur load setter st Hslot Hload; [constructor|].
  assert (∀ v idx d, load st = Some (JArray v) → in_range idx v = true →
            ∀ x, get (mkTarget (elemGet load idx) (elemSetter load setter idx) d) st = Some x →
                 set (mkTarget (elemGet load idx) (elemSetter load setter idx) d) x st
                 = Some st) as Helem.
  { intros v idx d Hv Hr x. simpl. rewrite (elemGet_array _ _ _ Hv Hr). intros Hx.
    rewrite (elemSetter_array _ _ _ _ Hv Hr), list_insert_id by done.
    by apply (slot_get_put _ _ Hslot). }
  assert (∀ m key d, load st = Some (JObject m) →
            ∀ x, get (mkTarget (keyGet load key) (keySetter load setter key) d) st = Some x →
                 set (mkTarget (keyGet load key) (keySetter load setter key) d) x st
                 = Some st) as Hkey.
  { intros m key d Hm x. simpl. rewrite (keyGet_object _ _ _ Hm). intros Hx.
    rewrite (keySetter_object _ _ _ _ Hm), insert_id by done.
    by apply (slot_get_put _ _ Hslot). }
  cbn [walkTargets].
  destruct (String.eqb seg "*").
  - destruct cur as [| | | |v|m]; try constructor.
    + apply Forall_concat_imap. intros i x Hx.
      assert (in_range (Z.of_nat i) v = true) as Hr.
      { rewrite in_range_of_nat. apply bool_decide_eq_true. by eapply lookup_lt_Some. }
      destruct rest as [|seg' rest'].
      * constructor; [|constructor]. by eapply Helem.
      * apply IH; [by apply slot_elem|].
        by rewrite (elemLoad_array _ _ _ Hload), Hr, Nat2Z.id.
    + apply Forall_concat_fmap. intros [k x] Hkx%elem_of_map_to_list.
      destruct rest as [|seg' rest'].
      * constructor; [|constructor]. by eapply Hkey.
      * apply IH; [by apply slot_key|]. by rewrite (keyLoad_object _ _ _ Hload).
  - destruct (Atoi seg) as [idx|] eqn:Hidx.
    + destruct cur as [| | | |arr|m]; try constructor.
      destruct (Z.leb_spec 0 idx) as [H0|H0]; [|constructor].
      destruct rest as [|seg' rest'].
      * constructor; [|constructor]. intros x. simpl.
        rewrite (indexGet_array _ _ _ Hload).
        destruct (Z.ltb_spec idx (len arr)) as [Hin|Hout]; [|done]. intros Hx.
        rewrite (indexSet_in_range _ _ _ _ Hload)
          by (apply andb_true_iff; by rewrite Z.leb_le, Z.ltb_lt).
        rewrite list_insert_id by done. by apply (slot_get_put _ _ Hslot).
      * destruct (Z.ltb_spec idx (len arr)) as [Hin|Hout]; [|constructor].
        destruct (arr !! Z.to_nat idx) as [x|] eqn:Hx; [|constructor].
        apply IH; [by apply slot_elem|].
        rewrite (elemLoad_array _ _ _ Hload).
        by rewrite (proj2 (in_range_lt idx arr)) by (unfold len in Hin; lia).
    + destruct cur as [| | | |arr|m]; try constructor.
      destruct rest as [|seg' rest'].
      * constructor; [|constructor]. by eapply Hkey.
      * destruct (m !! seg) as [x|] eqn:Hx; [|constructor].
        apply IH; [by apply slot_key|]. by rewrite (keyLoad_object _ _ _ Hload).
Qed.

(** ** The number of targets after an update *)

Lemma length_concat_ext {A B : Type} (F G : A → list B) (l : list A) :
  (∀ x, x ∈ l → length (F x) = length (G x)) →
  length (concat (F <$> l)) = length (concat (G <$> l)).
Proof.
  induction l as [|x l IH]; intros Hext; [done|].
  rewrite !fmap_cons. cbn [concat]. rewrite !length_app, (Hext x), IH; [done| |left].
  intros y Hy. apply Hext. by right.
Qed.

Lemma length_concat_imap_ext {A B : Type} (g : A → A) (l : list A) :
  ∀ F G : nat → A → list B,
    (∀ i x, l !! i = Some x → length (F i (g x)) = length (G i x)) →
    length (concat (imap F (g <$> l))) = length (concat (imap G l)).
Proof.
  induction l as [|x l IH]; intros F G Hext; [done|].
  rewrite fmap_cons, !imap_cons. cbn [concat].
  rewrite !length_app, (Hext 0%nat x) by done. f_equal.
  apply IH. intros i y Hy. by apply (Hext (S i)).
Qed.

(** The update changes what the slots at the end of the path hold, and
    nothing the walk is guided by: the path has as many targets after as
    before. *)
Lemma walk_count (u : option json → option json * bool) (segments : list string) :
  ∀ cur L S L' S',
    length (walkTargets (updT u segments cur) L S segments)
    = length (walkTargets cur L' S' segments).
Proof.
  induction segments as [|seg rest IH]; intros cur L S L' S'; [done|].
  cbn [walkTargets updT].
  destruct (String.eqb seg "*").
  - destruct cur as [| | | |v|m]; try done.
    + apply length_concat_imap_ext. intros i x Hx.
      destruct rest as [|seg' rest']; [done|apply IH].
    + rewrite map_to_list_fmap, <-list_fmap_compose. apply length_concat_ext. intros [k x] _. simpl.
      destruct rest as [|seg' rest']; [done|apply IH].
  - destruct (Atoi seg) as [idx|].
    + destruct cur as [| | | |arr|m]; try done.
      destruct (Z.leb_spec 0 idx) as [H0|H0]; [|done].
      destruct (Z.ltb_spec idx (len arr)) as [Hin|Hout].
      * destruct rest as [|seg' rest']; [done|]. cbv beta iota.
        unfold len at 1. rewrite length_alter. fold (len arr).
        rewrite (proj2 (Z.ltb_lt _ _)) by done.
        rewrite list_lookup_alter_eq.
        destruct (arr !! Z.to_nat idx) as [x|]; [apply IH|done].
      * destruct rest as [|seg' rest']; [by destruct (u None).1|].
        cbv beta iota. by rewrite (proj2 (Z.ltb_ge _ _)).
    + destruct cur as [| | | |arr|m]; try done.
      destruct (m !! seg) as [x|] eqn:Hx.
      * destruct rest as [|seg' rest']; [done|]. cbv beta iota.
        rewrite lookup_alter_eq, Hx. apply IH.
      * destruct rest as [|seg' rest']; [by destruct (u None).1|].
        cbv beta iota. by rewrite Hx.
Qed.

(** ** Set *)

Lemma setTarget_spec (value : json) (t : target) (st : json) (c : bool) :
  settable t st ∨ unsettable t st →
  setTarget value (c, st) t =
    match setVal value (get t st) with
    | (Some nv, b) => st' ← set t nv st; Some (c || b, st')
    | (None, b) => Some (c || b, st)
    end.
Proof. intros _. unfold setTarget, setVal. simpl. by rewrite orb_true_r. Qed.

(** The loop of [applySet] is the loop of [setTarget], without the flag. *)
Lemma applySet_loop (value : json) (targets : list target) :
  ∀ st c,
    foldM (λ st t, set t (clone value) st) st targets
    = snd <$> foldM (setTarget value) (c, st) targets.
Proof.
  induction targets as [|t ts IH]; intros st c; [done|].
  cbn [foldM].
  assert (setTarget value (c, st) t
          = (st' ← set t (clone value) st; Some (true, st'))) as -> by done.
  destruct (set t (clone value) st) as [st'|]; simpl; [apply IH|done].
Qed.

(** The tree that [applySet] leaves, and its flag. *)
Lemma applySet_tree (root : json) (path : string) (value : json) (c : bool)
    (root' : json) :
  applySet root path value = Some (c, root') →
  root' = updT (setVal value) (Split path ".") root ∧
  c = bool_decide (findTargets root path ≠ []).
Proof.
  unfold applySet. rewrite (applySet_loop value _ root false). unfold findTargets.
  destruct (Split_cons path ".") as (seg & rest & ->).
  set (targets := walkTargets root _ _ _).
  assert (∀ c1 r, foldM (setTarget value) (false, root) targets = Some (c1, r) →
                  r = updT (setVal value) (seg :: rest) root) as Hfold.
  { intros c1 r Hf.
    destruct (walk_fold (setVal value) (setTarget value) (setTarget_spec value)
                rest seg root _ _ root false c1 r slot_root eq_refl Hf) as [Hr _].
    by injection Hr as <-. }
  case_decide as Hlen.
  - intros [= <- <-]. apply nil_length_inv in Hlen. rewrite Hlen in *.
    split; [by apply (Hfold false)|]. by rewrite bool_decide_eq_false_2 by auto.
  - destruct (foldM _ _ targets) as [[c1 r]|] eqn:Hf; simpl; [|done].
    intros [= <- <-]. split; [by apply (Hfold c1)|].
    rewrite bool_decide_eq_true_2; [done|]. intros Hnil. by rewrite Hnil in Hlen.
Qed.

Lemma applySet_run (root : json) (path : string) (value : json) :
  growable (Split path ".") →
  applySet root path value
  = Some (bool_decide (findTargets root path ≠ []),
          updT (setVal value) (Split path ".") root).
Proof.
  intros Hgrow.
  pose proof (findTargets_run (setVal value) (setTarget value) (setTarget_spec value)
                root path false (λ _, Hgrow)) as Hrun.
  destruct (applySet root path value) as [[c root']|] eqn:Hset.
  - by apply applySet_tree in Hset as [-> ->].
  - unfold applySet in Hset. case_decide; [done|].
    by rewrite (applySet_loop value _ root false), Hrun in Hset.
Qed.

Lemma set_reads_back (root : json) (path : string) (value : json) :
  Forall (λ t, get t (updT (setVal value) (Split path ".") root) = Some (clone value))
    (findTargets (updT (setVal value) (Split path ".") root) path).
Proof.
  apply (walk_leaves (λ c, c = Some (clone value))); [done|].
  by apply leaves_after.
Qed.

(** X9.  A Set whose path does not end in an index at or above [max_len],
    the length above which the run gets no slice from [make] (at most
    [2^44]), does not panic.  It reports a change exactly when its path has
    a target, and in the tree it leaves the path has as many targets as
    before, each of which reads a clone of the value. *)
Theorem set_stores_value (root : json) (path : string) (value : json) :
  growable (Split path ".") →
  ∃ root',
    applySet root path value = Some (bool_decide (findTargets root path ≠ []), root') ∧
    length (findTargets root' path) = length (findTargets root path) ∧
    Forall (λ t, get t root' = Some (clone value)) (findTargets root' path).
Proof.
  intros Hgrow. eexists. split; [by apply applySet_run|].
  split; [apply walk_count|apply set_reads_back].
Qed.

(** X10.  The same Set on the tree that a Set has left stores into every target
    what the target holds: the tree stays as it is, and the flag is the one
    of the first time, [true] when the path has a target. *)
Theorem set_twice (root : json) (path : string) (value : json) (c : bool) (root' : json) :
  applySet root path value = Some (c, root') →
  applySet root' path value = Some (c, root').
Proof.
  intros [-> ->]%applySet_tree. unfold applySet.
  pose proof (walk_count (setVal value) (Split path ".") root
                (λ st, Some st) (λ v _, Some v) (λ st, Some st) (λ v _, Some v)) as Hcount.
  fold (findTargets (updT (setVal value) (Split path ".") root) path) in Hcount.
  fold (findTargets root path) in Hcount.
  case_decide as Hlen.
  - rewrite bool_decide_eq_false_2; [done|]. intros Hne. apply Hne.
    apply nil_length_inv. by rewrite <-Hcount.
  - rewrite foldM_noop.
    + simpl. rewrite bool_decide_eq_true_2; [done|]. intros Hnil.
      by rewrite Hcount, Hnil in Hlen.
    + pose proof (set_reads_back root path value) as Hread.
      pose proof (walk_get_put (Split path ".") _ (λ st, Some st) (λ v _, Some v)
                    (updT (setVal value) (Split path ".") root) slot_root eq_refl) as Hput.
      fold (findTargets (updT (setVal value) (Split path ".") root) path) in Hput.
      rewrite Forall_forall in *. intros t Ht. by apply Hput, Hread.
Qed.

End any_run_15.

Lemma set_twice_witness :
  applySet (object [("items", JArray [JInt 1; JInt 2])]) "items.*" (JString "v")
  = Some (true, object [("items", JArray [JString "v"; JString "v"])]) ∧
  applySet (object [("items", JArray [JString "v"; JString "v"])]) "items.*" (JString "v")
  = Some (true, object [("items", JArray [JString "v"; JString "v"])]).
Proof.
  assert (applySet (object [("items", JArray [JInt 1; JInt 2])]) "items.*" (JString "v")
          = Some (true, object [("items", JArray [JString "v"; JString "v"])])) as Hfirst
    by (vm_compute; reflexivity).
  split; [exact Hfirst|].
  exact (set_twice _ "items.*" (JString "v") true _ Hfirst).
Defined.

Section any_run_16.
Context {run : Runtime}.

Lemma growable_key (seg : string) : Atoi seg = None → growable [seg].
Proof. intros Hseg s idx [= <-]. by rewrite Hseg. Qed.

(** X11.  The largest index: a Set at it panics, whatever the Array, the
    value and the memory of the run. *)
Theorem set_at_largest_index (arr : list json) (seg : string) (value : json) :
  Atoi seg = Some int_max → len arr ≤ int_max →
  applySet (JArray arr) seg value = None.
Proof.
  intros Hidx Hlen. unfold applySet, findTargets.
  rewrite (Atoi_Split _ _ Hidx), (walkTargets_last_index _ _ _ _ _ Hidx) by done.
  simpl. by rewrite (indexSet_overflow _ _ arr).
Qed.

(** So does a Set past the end of an Array at any index for which [make]
    gives no slice. *)
Lemma set_beyond_limit (arr : list json) (seg : string) (idx : Z) (value : json) :
  Atoi seg = Some idx → len arr ≤ idx → max_len ≤ idx →
  applySet (JArray arr) seg value = None.
Proof.
  intros Hidx Hlen Hlim. pose proof (Atoi_range _ _ Hidx) as [_ Hmax].
  assert (0 ≤ idx) as H0 by (unfold len in Hlen; lia).
  unfold applySet, findTargets.
  rewrite (Atoi_Split _ _ Hidx), (walkTargets_last_index _ _ _ _ _ Hidx) by done.
  simpl. by rewrite (indexSet_refused _ _ _ arr) by done.
Qed.

End any_run_16.

(** The index [2^62] on the empty Array, whatever the run: [2^62 + 1]
    values are more than [make] gives. *)
Lemma set_at_2_62_panics `{Runtime} :
  applySet (JArray []) "4611686018427387904" JNull = None.
Proof.
  apply (set_beyond_limit [] "4611686018427387904" (2 ^ 62) JNull);
    [reflexivity|vm_compute; discriminate|].
  pose proof max_len_limit. lia.
Qed.

Lemma set_at_largest_index_witness :
  Atoi "9223372036854775807" = Some int_max ∧ len [JInt 1] ≤ int_max ∧
  applySet (JArray [JInt 1]) "9223372036854775807" JNull = None.
Proof.
  assert (len [JInt 1] ≤ int_max) as Hlen by (vm_compute; discriminate).
  split; [reflexivity|]. split; [exact Hlen|].
  exact (set_at_largest_index [JInt 1] "9223372036854775807" JNull eq_refl Hlen).
Defined.

Lemma set_stores_value_witness :
  growable (Split "items.*" ".") ∧
  ∃ root',
    applySet (object [("items", JArray [JInt 1; JInt 2])]) "items.*" (JString "v")
    = Some (bool_decide
              (findTargets (object [("items", JArray [JInt 1; JInt 2])]) "items.*" ≠ []),
            root') ∧
    length (findTargets root' "items.*")
    = length (findTargets (object [("items", JArray [JInt 1; JInt 2])]) "items.*") ∧
    Forall (λ t, get t root' = Some (clone (JString "v"))) (findTargets root' "items.*").
Proof.
  assert (growable (Split "items.*" ".")) as Hgrow.
  { intros seg idx Hseg Hidx. vm_compute in Hseg. injection Hseg as <-. discriminate Hidx. }
  split; [exact Hgrow|].
  exact (set_stores_value (object [("items", JArray [JInt 1; JInt 2])]) "items.*"
           (JString "v") Hgrow).
Defined.

(** ** TransformArray *)

Section any_run_17.
Context {run : Runtime}.

Section transform_props.
Context `{RegexpPkg}.

Lemma transformTarget_spec (re : Regexp) (replacements : list string) (t : target)
    (st : json) (c : bool) :
  settable t st ∨ unsettable t st →
  transformTarget re replacements (c, st) t =
    match transformVal re replacements (get t st) with
    | (Some nv, b) => st' ← set t nv st; Some (c || b, st')
    | (None, b) => Some (c || b, st)
    end.
Proof.
  intros _. unfold transformTarget, transformVal.
  destruct (get t st) as [[| | | |arr|]|]; rewrite ?orb_false_r; try done.
  rewrite transformItem_fold. cbn [orb app].
  destruct (existsb (matches re) arr); simpl; by rewrite ?orb_true_r, ?orb_false_r.
Qed.

Lemma applyTransformArray_run (root : json) (path : string) (re : Regexp)
    (replacements : list string) :
  applyTransformArray root path re replacements
  = Some (updC (transformVal re replacements) (Split path ".") root,
          updT (transformVal re replacements) (Split path ".") root).
Proof.
  unfold applyTransformArray.
  pose proof (findTargets_run (transformVal re replacements)
                (transformTarget re replacements) (transformTarget_spec re replacements)
                root path false) as Hrun.
  rewrite Hrun by (by intros [x Hx]). simpl.
  case_decide as Hlen; [|done].
  apply nil_length_inv in Hlen. rewrite Hlen in Hrun. simpl in Hrun.
  rewrite Hrun by (by intros [x Hx]). done.
Qed.

Lemma applyTransformArray_targets (root : json) (path : string) (re : Regexp)
    (replacements : list string) (t : target) :
  t ∈ findTargets root path →
  get t (updT (transformVal re replacements) (Split path ".") root)
  = after (transformVal re replacements) (get t root).
Proof.
  intros Ht.
  pose proof (walk_reads_after (transformVal re replacements) (Split path ".") root
                (λ st, Some st) (λ v _, Some v) root _ eq_refl eq_refl) as Hall.
  rewrite Forall_forall in Hall. by apply Hall.
Qed.

(** C5.  [applyTransformArray] ends for every tree and path, and in the
    tree it leaves every target of the path that held an Array holds the
    Array whose elements are, in order, what [transformed] makes of each
    element of the old one: itself for what is no string or does not match,
    one expansion per template for a string that matches.  A target that
    held no Array reads what it read before.  The same is true turn by
    turn: a target that holds an Array when its turn in the loop comes
    holds the transformed Array after it.  The example of the specification
    follows for an engine that matches the expression and expands the two
    templates as [regexp] does. *)
Theorem transform_array_fan_out (re : Regexp) (replacements : list string) :
  (∀ root path, ∃ changed root',
     applyTransformArray root path re replacements = Some (changed, root') ∧
     (∀ t arr, t ∈ findTargets root path → get t root = Some (JArray arr) →
        get t root' = Some (JArray (concat (transformed re replacements <$> arr)))) ∧
     (∀ t, t ∈ findTargets root path → (∀ arr, get t root ≠ Some (JArray arr)) →
        get t root' = get t root)) ∧
  (∀ load setter cur segments st t arr mutated,
     slot load setter → load st = Some cur →
     t ∈ walkTargets cur load setter segments →
     get t st = Some (JArray arr) →
     ∃ res, transformTarget re replacements (mutated, st) t = Some res ∧
            get t res.2 = Some (JArray (concat (transformed re replacements <$> arr)))) ∧
  (∀ indices,
     FindStringSubmatchIndex re pixeldrain_uri = Some indices →
     ExpandString re "$0" pixeldrain_uri indices = pixeldrain_uri →
     ExpandString re "https://mirror.example.com/$1" pixeldrain_uri indices = mirror_uri →
     applyTransformArray (object [("params", JArray [JArray [JString pixeldrain_uri]])])
       "params.0" re mirror_templates
     = Some (true, object [("params",
                            JArray [JArray [JString pixeldrain_uri; JString mirror_uri]])])).
Proof.
  split; [|split].
  - intros root path. eexists _, _. split; [apply applyTransformArray_run|]. split.
    + intros t arr Ht Hget. rewrite applyTransformArray_targets, Hget by done.
      unfold after, transformVal.
      destruct (existsb (matches re) arr) eqn:Hm; simpl; [done|].
      by rewrite transformed_no_match.
    + intros t Ht Hget. rewrite applyTransformArray_targets by done.
      unfold after, transformVal.
      destruct (get t root) as [[| | | |arr|]|]; try done. by destruct (Hget arr).
  - intros load setter cur segments st t arr mutated Hslot Hload Ht Hget.
    pose proof (walk_settable segments cur load setter st Hslot Hload) as Hok.
    rewrite Forall_forall in Hok. destruct (Hok t Ht) as [Hs|[_ Hnone]]; [|congruence].
    unfold transformTarget. rewrite Hget, transformItem_fold. cbn [orb app].
    destruct (existsb (matches re) arr) eqn:Hm.
    + destruct (Hs (JArray (concat (transformed re replacements <$> arr))))
        as (st' & -> & Hget' & _).
      by exists (true, st').
    + exists (mutated, st). split; [done|]. simpl. by rewrite transformed_no_match.
  - intros indices Hfind H0 H1. rewrite applyTransformArray_run.
    assert (transformVal re mirror_templates (Some (JArray [JString pixeldrain_uri]))
            = (Some (JArray [JString pixeldrain_uri; JString mirror_uri]), true)) as Hu.
    { unfold transformVal. cbn [existsb matches fmap list_fmap transformed concat].
      rewrite Hfind. rewrite bool_decide_eq_true_2 by eauto.
      unfold mirror_templates. cbn [fmap list_fmap orb app]. by rewrite H0, H1. }
    assert (Split "params.0" "." = ["params"; "0"]) as -> by (vm_compute; reflexivity).
    unfold object. cbn [updT updC list_to_map foldr fst snd].
    change (String.eqb "params" "*") with false.
    change (String.eqb "0" "*") with false.
    assert (Atoi "params" = None) as -> by (vm_compute; reflexivity).
    assert (Atoi "0" = Some 0) as -> by (vm_compute; reflexivity).
    cbv beta iota. rewrite lookup_insert_eq. cbv beta iota.
    change (0 <=? 0) with true. change (0 <? len [JArray [JString pixeldrain_uri]]) with true.
    cbv beta iota. change (Z.to_nat 0) with 0%nat. cbn [lookup list_lookup alter list_alter].
    rewrite Hu. cbn [fst snd default]. 
    rewrite alter_insert_eq. cbv beta iota.
    change (0 <? len [JArray [JString pixeldrain_uri]]) with true.
    cbv beta iota. cbn [alter list_alter]. by rewrite Hu.
Qed.

(** X12.  [applyTransformArray] never panics, and when it reports no change the
    tree is the one it was given. *)
Theorem transform_runs (root : json) (path : string) (re : Regexp)
    (replacements : list string) :
  ∃ changed root',
    applyTransformArray root path re replacements = Some (changed, root') ∧
    (changed = false → root' = root).
Proof.
  eexists _, _. split; [apply applyTransformArray_run|].
  apply updT_quiet. intros c. unfold transformVal.
  destruct c as [[| | | |arr|]|]; try done. by destruct (existsb _ arr).
Qed.
End transform_props.

End any_run_17.

(** Both Arrays of a wildcard path are transformed. *)
Lemma transform_two_arrays :
  applyTransformArray two_arrays "params.*" pixeldrain_re mirror_templates
  = Some (true,
          object [("params",
                   JArray [JArray [JString pixeldrain_uri; JString mirror_uri];
                           JArray [JInt 7; JString pixeldrain_uri; JString mirror_uri]])]).
Proof. vm_compute. reflexivity. Qed.

Lemma transform_array_fan_out_witness :
  (target_params_any 1 ∈ findTargets two_arrays "params.*" ∧
   get (target_params_any 1) two_arrays = Some (JArray [JInt 7; JString pixeldrain_uri]) ∧
   ∃ changed root',
     applyTransformArray two_arrays "params.*" pixeldrain_re mirror_templates
     = Some (changed, root') ∧
     get (target_params_any 1) root'
     = Some (JArray (concat (transformed pixeldrain_re mirror_templates
                               <$> [JInt 7; JString pixeldrain_uri])))) ∧
  (slot (λ st, Some st) (λ v _, Some v) ∧
   target_params_0
     ∈ walkTargets (object [("params", JArray [JArray [JString pixeldrain_uri]])])
         (λ st, Some st) (λ v _, Some v) ["params"; "0"] ∧
   get target_params_0 (object [("params", JArray [JArray [JString pixeldrain_uri]])])
   = Some (JArray [JString pixeldrain_uri]) ∧
   ∃ res,
     transformTarget pixeldrain_re mirror_templates
       (false, object [("params", JArray [JArray [JString pixeldrain_uri]])]) target_params_0
     = Some res ∧
     get target_params_0 res.2
     = Some (JArray (concat (transformed pixeldrain_re mirror_templates
                               <$> [JString pixeldrain_uri])))) ∧
  (FindStringSubmatchIndex pixeldrain_re pixeldrain_uri = Some [0; 28; 23; 28] ∧
   ExpandString pixeldrain_re "$0" pixeldrain_uri [0; 28; 23; 28] = pixeldrain_uri ∧
   ExpandString pixeldrain_re "https://mirror.example.com/$1" pixeldrain_uri [0; 28; 23; 28]
   = mirror_uri ∧
   applyTransformArray (object [("params", JArray [JArray [JString pixeldrain_uri]])])
     "params.0" pixeldrain_re mirror_templates
   = Some (true, object [("params",
                          JArray [JArray [JString pixeldrain_uri; JString mirror_uri]])])).
Proof.
  pose proof (@transform_array_fan_out example_runtime fragment_regexp pixeldrain_re
                mirror_templates) as (Hall & Hturn & Hexample).
  split; [|split].
  - assert (target_params_any 1 ∈ findTargets two_arrays "params.*") as Hin.
    { assert (findTargets two_arrays "params.*"
              = [target_params_any 0; target_params_any 1]) as ->
        by (vm_compute; reflexivity).
      right. left. }
    assert (get (target_params_any 1) two_arrays
            = Some (JArray [JInt 7; JString pixeldrain_uri])) as Hget
      by (vm_compute; reflexivity).
    split; [exact Hin|]. split; [exact Hget|].
    destruct (Hall two_arrays "params.*") as (changed & root' & Hrun & Harr & _).
    exists changed, root'. split; [exact Hrun|]. exact (Harr _ _ Hin Hget).
  - assert (target_params_0
              ∈ walkTargets (object [("params", JArray [JArray [JString pixeldrain_uri]])])
                  (λ st, Some st) (λ v _, Some v) ["params"; "0"]) as Hin.
    { assert (walkTargets (object [("params", JArray [JArray [JString pixeldrain_uri]])])
                (λ st, Some st) (λ v _, Some v) ["params"; "0"] = [target_params_0]) as ->
        by (vm_compute; reflexivity).
      left. }
    assert (get target_params_0
              (object [("params", JArray [JArray [JString pixeldrain_uri]])])
            = Some (JArray [JString pixeldrain_uri])) as Hget by (vm_compute; reflexivity).
    split; [exact slot_root|]. split; [exact Hin|]. split; [exact Hget|].
    exact (Hturn _ _ _ _ _ _ _ false slot_root eq_refl Hin Hget).
  - assert (FindStringSubmatchIndex pixeldrain_re pixeldrain_uri = Some [0; 28; 23; 28])
      as Hfind by (vm_compute; reflexivity).
    assert (ExpandString pixeldrain_re "$0" pixeldrain_uri [0; 28; 23; 28] = pixeldrain_uri)
      as H0 by (vm_compute; reflexivity).
    assert (ExpandString pixeldrain_re "https://mirror.example.com/$1" pixeldrain_uri
              [0; 28; 23; 28] = mirror_uri) as H1 by (vm_compute; reflexivity).
    split; [exact Hfind|]. split; [exact H0|]. split; [exact H1|].
    exact (Hexample _ Hfind H0 H1).
Defined.

(** ** Merge *)

Section any_run_28.
Context {run : Runtime}.

Lemma applyMerge_run (root : json) (path : string) (src : gmap string json) :
  growable (Split path ".") →
  applyMerge root path (JObject src)
  = Some (updC (mergeVal src) (Split path ".") root, None,
          updT (mergeVal src) (Split path ".") root).
Proof.
  intros Hgrow. unfold applyMerge.
  pose proof (findTargets_run (mergeVal src) (mergeTarget src) (mergeTarget_spec src)
                root path false (λ _, Hgrow)) as Hrun.
  rewrite Hrun. simpl. case_decide as Hlen; [|done].
  apply nil_length_inv in Hlen. rewrite Hlen in Hrun. by injection Hrun as <- <-.
Qed.

(** A fresh Object takes every entry of the source. *)
Lemma mergeKeyPure_fresh (l : list (string * json)) :
  ∀ (d : gmap string json) (c : bool),
    NoDup l.*1 → (∀ k, k ∈ l.*1 → d !! k = None) →
    foldl mergeKeyPure (d, c) l
    = (foldl (λ m kv, <[kv.1 := clone kv.2]> m) d l, c || bool_decide (l ≠ [])).
Proof.
  induction l as [|[k v] l IH]; intros d c Hnd Hfresh.
  { simpl. by rewrite orb_false_r. }
  rewrite fmap_cons in Hnd. apply NoDup_cons in Hnd as [Hk Hnd]. cbn [foldl].
  unfold mergeKeyPure at 2. simpl. rewrite Hfresh by left.
  rewrite IH; [by rewrite orb_true_r| done|].
  intros k' Hk'. rewrite lookup_insert_ne; [apply Hfresh; by right|].
  by intros <-.
Qed.

Lemma mergeMap_fresh (src : gmap string json) :
  mergeMap src ∅ = (src, bool_decide (src ≠ ∅)).
Proof.
  unfold mergeMap.
  rewrite mergeKeyPure_fresh; [|apply NoDup_fst_map_to_list|by intros k _].
  f_equal.
  - apply map_eq. intros k.
    rewrite foldl_insert_lookup by apply NoDup_fst_map_to_list.
    rewrite list_to_map_to_list, lookup_empty.
    destruct (src !! k) as [x|]; [by rewrite clone_id|done].
  - simpl. apply bool_decide_ext. split.
    + intros Hne ->. by rewrite map_to_list_empty in Hne.
    + intros Hne Hnil. by apply map_to_list_empty_iff in Hnil.
Qed.

Lemma mergeVal_quiet (src : gmap string json) (c : option json) :
  src ≠ ∅ → (mergeVal src c).2 = false → (mergeVal src c).1 = None.
Proof.
  intros Hne. unfold mergeVal.
  destruct c as [[| | | |l|dst]|]; try done;
    try (rewrite mergeMap_fresh; simpl; by rewrite bool_decide_eq_true_2).
  by destruct (mergeMap src dst).2.
Qed.

(** X13.  A Merge of an Object whose path does not end in an index at or
    above [max_len], the length above which the run gets no slice from
    [make] (at most [2^44]), does not panic and returns no error.  When the
    Object has an entry, a Merge that reports no change leaves the tree as
    it was. *)
Theorem merge_runs (root : json) (path : string) (src : gmap string json) :
  growable (Split path ".") →
  ∃ changed root',
    applyMerge root path (JObject src) = Some (changed, None, root') ∧
    (src ≠ ∅ → changed = false → root' = root).
Proof.
  intros Hgrow. eexists _, _. split; [by apply applyMerge_run|].
  intros Hne. apply updT_quiet. intros c. by apply mergeVal_quiet.
Qed.

End any_run_28.

Lemma merge_runs_witness :
  growable (Split "a.b" ".") ∧
  ∃ changed root',
    applyMerge (object [("a", object [("b", object [("k", JInt 1)])])]) "a.b"
      (JObject {["k" := JInt 1]})
    = Some (changed, None, root') ∧
    ({["k" := JInt 1]} ≠ (∅ : gmap string json) → changed = false →
     root' = object [("a", object [("b", object [("k", JInt 1)])])]).
Proof.
  assert (growable (Split "a.b" ".")) as Hgrow.
  { intros seg idx Hseg Hidx. vm_compute in Hseg. injection Hseg as <-. discriminate Hidx. }
  split; [exact Hgrow|].
  exact (merge_runs (object [("a", object [("b", object [("k", JInt 1)])])]) "a.b"
           {["k" := JInt 1]} Hgrow).
Defined.

Section any_run_18.
Context {run : Runtime}.

(** X14.  A Merge at a key that the Object at the root does not hold, or holds
    with Null, stores the source Object under the key.  The flag tells
    whether the source has an entry: the empty Object is stored all the same,
    and reported as no change. *)
Theorem merge_into_missing_key (m src : gmap string json) (key : string) :
  Atoi key = None → key ≠ "*" → Split key "." = [key] →
  m !! key = None ∨ m !! key = Some JNull →
  applyMerge (JObject m) key (JObject src)
  = Some (bool_decide (src ≠ ∅), None, JObject (<[key := JObject src]> m)).
Proof.
  intros Hkey Hstar Hsplit Hm.
  rewrite applyMerge_run by (rewrite Hsplit; by apply growable_key).
  rewrite Hsplit. cbn [updT updC]. apply String.eqb_neq in Hstar. rewrite Hstar, Hkey.
  destruct Hm as [Hm|Hm]; rewrite Hm.
  - unfold mergeVal. by rewrite mergeMap_fresh.
  - rewrite (map_alter_lookup _ _ _ _ Hm). unfold mergeVal. by rewrite mergeMap_fresh.
Qed.

End any_run_18.

Lemma merge_into_missing_key_witness :
  Atoi "options" = None ∧ "options" ≠ "*" ∧ Split "options" "." = ["options"] ∧
  (({["id" := JInt 1]} : gmap string json) !! "options" = None ∨
   ({["id" := JInt 1]} : gmap string json) !! "options" = Some JNull) ∧
  applyMerge (JObject {["id" := JInt 1]}) "options" (JObject ∅)
  = Some (false, None, JObject (<["options" := JObject ∅]> {["id" := JInt 1]})).
Proof.
  assert ("options" ≠ "*") as Hstar by discriminate.
  assert (({["id" := JInt 1]} : gmap string json) !! "options" = None ∨
          ({["id" := JInt 1]} : gmap string json) !! "options" = Some JNull) as Hm
    by (left; vm_compute; reflexivity).
  split; [reflexivity|]. split; [exact Hstar|]. split; [reflexivity|]. split; [exact Hm|].
  exact (merge_into_missing_key {["id" := JInt 1]} ∅ "options" eq_refl Hstar eq_refl Hm).
Defined.

Section any_run_19.
Context {run : Runtime}.

Lemma mergeKeyPure_lookup (l : list (string * json)) (k : string) :
  ∀ (d : gmap string json) (c : bool),
    NoDup l.*1 →
    (foldl mergeKeyPure (d, c) l).1 !! k = mergedEntry (list_to_map l) d k.
Proof.
  unfold mergedEntry.
  induction l as [|[k0 v0] l IH]; intros d c Hnd; [done|].
  rewrite fmap_cons in Hnd. apply NoDup_cons in Hnd as [Hk0 Hnd]. simpl in Hk0.
  cbn [foldl]. rewrite list_to_map_cons.
  destruct (mergeKeyPure (d, c) (k0, v0)) as [d1 c1] eqn:Hstep.
  rewrite (IH d1 c1 Hnd).
  assert (d1 = match d !! k0 with
               | Some w => if deepEqual w v0 then d else <[k0 := clone v0]> d
               | None => <[k0 := clone v0]> d
               end) as Hd1.
  { unfold mergeKeyPure in Hstep. simpl in Hstep.
    destruct (d !! k0) as [w|]; [destruct (deepEqual w v0)|]; by injection Hstep as <- _. }
  destruct (decide (k = k0)) as [->|Hne].
  - rewrite (not_elem_of_list_to_map_1 l k0) by done. rewrite lookup_insert_eq. subst d1.
    destruct (d !! k0) as [w|] eqn:Hw; [destruct (deepEqual w v0)|];
      by rewrite ?lookup_insert_eq.
  - rewrite lookup_insert_ne by done.
    assert (d1 !! k = d !! k) as ->; [|done]. subst d1.
    destruct (d !! k0) as [w|]; [destruct (deepEqual w v0)|];
      by rewrite ?lookup_insert_ne.
Qed.

Lemma mergeMap_lookup (src dst : gmap string json) (k : string) :
  (mergeMap src dst).1 !! k = mergedEntry src dst k.
Proof.
  unfold mergeMap. rewrite mergeKeyPure_lookup by apply NoDup_fst_map_to_list.
  by rewrite list_to_map_to_list.
Qed.

(** X15.  Take any target of a walk that holds an Object when its turn in the
    loop of [applyMerge] comes.  The turn ends, and the target then holds an
    Object that has, under every key, what [mergedEntry] says: a key that the
    source lacks keeps what it had, a key whose value [deepEqual] accepts
    keeps that value, and every other key of the source holds a clone of the
    value of the source.  No key is lost. *)
Theorem merge_target_result (src dst : gmap string json) (load : json → option json)
    (setter : json → json → option json) (cur : json) (segments : list string)
    (st : json) (t : target) (changed : bool) :
  slot load setter → load st = Some cur →
  t ∈ walkTargets cur load setter segments →
  get t st = Some (JObject dst) →
  ∃ res dst',
    mergeTarget src (changed, st) t = Some res ∧
    get t res.2 = Some (JObject dst') ∧
    (∀ k, dst' !! k = mergedEntry src dst k) ∧
    (∀ k, is_Some (dst !! k) → is_Some (dst' !! k)).
Proof.
  intros Hslot Hload Ht Hget.
  pose proof (walk_settable segments cur load setter st Hslot Hload) as Hok.
  rewrite Forall_forall in Hok. destruct (Hok t Ht) as [Hs|[_ Hnone]]; [|congruence].
  assert (∀ k, is_Some (dst !! k) → is_Some (mergedEntry src dst k)) as Hkeep.
  { intros k [w Hw]. unfold mergedEntry. rewrite Hw.
    destruct (src !! k) as [v|]; [by destruct (deepEqual w v)|done]. }
  rewrite (mergeTarget_spec src t st changed (or_introl Hs)), Hget. unfold mergeVal.
  destruct (mergeMap src dst).2 eqn:Hflag.
  - destruct (Hs (JObject (mergeMap src dst).1)) as (st' & -> & Hget' & _).
    exists (changed || true, st'), (mergeMap src dst).1. simpl.
    split; [done|]. split; [done|]. split; [apply mergeMap_lookup|].
    intros k Hk. rewrite mergeMap_lookup. by apply Hkeep.
  - exists (changed || false, st), dst. simpl. split; [done|]. split; [done|].
    split; [|done]. intros k. rewrite <-mergeMap_lookup.
    unfold mergeMap in *. by rewrite (mergeKeyPure_unchanged _ _ Hflag).
Qed.

End any_run_19.

Lemma merge_target_result_witness :
  slot (λ st, Some st) (λ v _, Some v) ∧
  target_a ∈ walkTargets (object [("a", object [("k", JInt 1); ("z", JNull)])])
               (λ st, Some st) (λ v _, Some v) ["a"] ∧
  get target_a (object [("a", object [("k", JInt 1); ("z", JNull)])])
  = Some (JObject (list_to_map [("k", JInt 1); ("z", JNull)])) ∧
  ∃ res dst',
    mergeTarget {["k" := JInt 2]}
      (false, object [("a", object [("k", JInt 1); ("z", JNull)])]) target_a = Some res ∧
    get target_a res.2 = Some (JObject dst') ∧
    (∀ k, dst' !! k
          = mergedEntry {["k" := JInt 2]} (list_to_map [("k", JInt 1); ("z", JNull)]) k) ∧
    (∀ k, is_Some ((list_to_map [("k", JInt 1); ("z", JNull)] : gmap string json) !! k) →
          is_Some (dst' !! k)).
Proof.
  assert (target_a ∈ walkTargets (object [("a", object [("k", JInt 1); ("z", JNull)])])
                       (λ st, Some st) (λ v _, Some v) ["a"]) as Hin.
  { assert (walkTargets (object [("a", object [("k", JInt 1); ("z", JNull)])])
              (λ st, Some st) (λ v _, Some v) ["a"] = [target_a]) as ->
      by (vm_compute; reflexivity).
    left. }
  assert (get target_a (object [("a", object [("k", JInt 1); ("z", JNull)])])
          = Some (JObject (list_to_map [("k", JInt 1); ("z", JNull)]))) as Hget
    by (vm_compute; reflexivity).
  split; [exact slot_root|]. split; [exact Hin|]. split; [exact Hget|].
  exact (merge_target_result {["k" := JInt 2]} _ _ _ _ _ _ _ false slot_root eq_refl Hin Hget).
Defined.

(** ** Delete *)

Section any_run_20.
Context {run : Runtime}.

Lemma elemDel_quiet (load : json → option json) (setter : json → json → option json)
    (idx : Z) (st st' : json) :
  elemDel load setter idx st = Some (false, st') → st' = st.
Proof.
  unfold elemDel. destruct (as_array (load st)) as [v|]; simpl; [|done].
  destruct (_ || _); [by intros [= <-]|].
  by destruct (setter _ st).
Qed.

Lemma keyDel_quiet (load : json → option json) (setter : json → json → option json)
    (key : string) (st st' : json) :
  keyDel load setter key st = Some (false, st') → st' = st.
Proof.
  unfold keyDel. destruct (as_object (load st)) as [v|]; simpl; [|done].
  destruct (v !! key); [|by intros [= <-]].
  by destruct (setter _ st).
Qed.

Lemma walk_del_quiet (segments : list string) :
  ∀ cur load setter,
    Forall (λ t, ∀ d st st', del t = Some d → d st = Some (false, st') → st' = st)
      (walkTargets cur load setter segments).
Proof.
  induction segments as [|seg rest IH]; intros cur load setter; [constructor|].
  assert (∀ idx g s, Forall (λ t, ∀ d st st', del t = Some d →
                                    d st = Some (false, st') → st' = st)
                       [mkTarget g s (Some (elemDel load setter idx))]) as Helem.
  { intros idx g s. constructor; [|constructor]. intros d st st' [= <-].
    apply elemDel_quiet. }
  assert (∀ key g s, Forall (λ t, ∀ d st st', del t = Some d →
                                    d st = Some (false, st') → st' = st)
                       [mkTarget g s (Some (keyDel load setter key))]) as Hkey.
  { intros key g s. constructor; [|constructor]. intros d st st' [= <-].
    apply keyDel_quiet. }
  cbn [walkTargets].
  destruct (String.eqb seg "*").
  - destruct cur as [| | | |v|m]; try constructor.
    + apply Forall_concat_imap. intros i x _.
      destruct rest as [|seg' rest']; [apply Helem|apply IH].
    + apply Forall_concat_fmap. intros [k x] _.
      destruct rest as [|seg' rest']; [apply Hkey|apply IH].
  - destruct (Atoi seg) as [idx|].
    + destruct cur as [| | | |arr|m]; try constructor.
      destruct (0 <=? idx); [|constructor].
      destruct rest as [|seg' rest']; [apply Helem|].
      destruct (idx <? len arr); [|constructor].
      destruct (arr !! Z.to_nat idx); [apply IH|constructor].
    + destruct cur as [| | | |arr|m]; try constructor.
      destruct rest as [|seg' rest']; [apply Hkey|].
      destruct (m !! seg); [apply IH|constructor].
Qed.

Lemma deleteTarget_true (targets : list target) :
  ∀ st c st', foldM deleteTarget (true, st) targets = Some (c, st') → c = true.
Proof.
  induction targets as [|t ts IH]; intros st c st'; simpl; [by intros [= <- _]|].
  destruct (del t) as [d|]; [|apply IH].
  destruct (d st) as [[[|] st1]|]; simpl; [apply IH..|done].
Qed.

Lemma deleteTargets_quiet (targets : list target) :
  Forall (λ t, ∀ d st st', del t = Some d → d st = Some (false, st') → st' = st) targets →
  ∀ st st', foldM deleteTarget (false, st) targets = Some (false, st') → st' = st.
Proof.
  induction 1 as [|t ts Ht _ IH]; intros st st'; simpl; [by intros [= <-]|].
  destruct (del t) as [d|] eqn:Hd; [|apply IH].
  destruct (d st) as [[[|] st1]|] eqn:Hst; simpl; [|rewrite (Ht _ _ _ eq_refl Hst); apply IH|done].
  by intros ?%deleteTarget_true.
Qed.

Lemma applyDelete_key (m : gmap string json) (key : string) :
  Atoi key = None → key ≠ "*" → Split key "." = [key] →
  applyDelete (JObject m) key
  = Some (bool_decide (is_Some (m !! key)), JObject (delete key m)).
Proof.
  intros Hkey Hstar Hsplit. unfold applyDelete, findTargets.
  rewrite Hsplit, (key_segment_on_object _ _ _ _ Hkey Hstar). simpl.
  unfold keyDel. cbn [as_object mbind option_bind].
  destruct (m !! key) as [x|] eqn:Hx; cbn [mbind option_bind].
  - by rewrite bool_decide_eq_true_2 by eauto.
  - rewrite bool_decide_eq_false_2 by (by intros [? ?]). by rewrite delete_id.
Qed.

(** X16.  Delete of a key of the Object at the root removes the entry; the flag
    tells whether there was one. *)
Theorem delete_key (m : gmap string json) (key : string) :
  Atoi key = None → key ≠ "*" → Split key "." = [key] →
  applyDelete (JObject m) key
  = Some (bool_decide (is_Some (m !! key)), JObject (delete key m)).
Proof. apply applyDelete_key. Qed.

End any_run_20.

Lemma delete_key_witness :
  Atoi "a" = None ∧ "a" ≠ "*" ∧ Split "a" "." = ["a"] ∧
  applyDelete (JObject {["a" := JInt 1; "b" := JInt 2]}) "a"
  = Some (true, JObject (delete "a" {["a" := JInt 1; "b" := JInt 2]})).
Proof.
  assert ("a" ≠ "*") as Hstar by discriminate.
  split; [reflexivity|]. split; [exact Hstar|]. split; [reflexivity|].
  exact (delete_key {["a" := JInt 1; "b" := JInt 2]} "a" eq_refl Hstar eq_refl).
Defined.

Section any_run_21.
Context {run : Runtime}.

(** X17.  Delete at an index of the Array at the root removes that element and
    moves the later ones down; at or past the end it does nothing. *)
Theorem delete_index (arr : list json) (seg : string) (idx : Z) :
  Atoi seg = Some idx → 0 ≤ idx →
  applyDelete (JArray arr) seg
  = Some (bool_decide (idx < len arr), JArray (delete (Z.to_nat idx) arr)).
Proof.
  intros Hidx H0. unfold applyDelete, findTargets.
  rewrite (Atoi_Split _ _ Hidx), (walkTargets_last_index _ _ _ _ _ Hidx H0). simpl.
  unfold elemDel. cbn [as_array mbind option_bind].
  rewrite (proj2 (Z.ltb_ge _ _)) by done. cbn [orb].
  rewrite delete_take_drop.
  destruct (Z.leb_spec (len arr) idx) as [Hout|Hin].
  - rewrite bool_decide_eq_false_2 by lia.
    unfold len in Hout. by rewrite take_ge, drop_ge, app_nil_r by lia.
  - rewrite bool_decide_eq_true_2 by done. cbn [mbind option_bind].
    by rewrite Z2Nat.inj_add, Nat.add_1_r by lia.
Qed.

End any_run_21.

Lemma delete_index_witness :
  Atoi "1" = Some 1 ∧ 0 ≤ 1 ∧
  applyDelete (JArray [JInt 1; JInt 2; JInt 3]) "1" = Some (true, JArray [JInt 1; JInt 3]).
Proof.
  assert (0 ≤ 1) as H0 by lia.
  split; [reflexivity|]. split; [exact H0|].
  exact (delete_index [JInt 1; JInt 2; JInt 3] "1" 1 eq_refl H0).
Defined.

(** *** Delete through [*] *)

Section any_run_22.
Context {run : Runtime}.

Lemma concat_imap_singleton {A B : Type} (g : nat → B) (l : list A) :
  ∀ (F : nat → A → list B) (k : nat),
    (∀ i x, F i x = [g (k + i)%nat]) →
    concat (imap F l) = g <$> seq k (length l).
Proof.
  induction l as [|x l IH]; intros F k HF; [done|].
  rewrite imap_cons. cbn [concat length seq]. rewrite fmap_cons, HF, Nat.add_0_r.
  cbn [app]. f_equal. apply IH. intros i y. unfold compose. rewrite HF.
  by rewrite Nat.add_succ_r.
Qed.

Lemma deleteTarget_eq (c : bool) (st : json) (t : target)
    (d : json → option (bool * json)) :
  del t = Some d →
  deleteTarget (c, st) t
  = match d st with
    | Some (true, st') => Some (true, st')
    | Some (false, st') => Some (c, st')
    | None => None
    end.
Proof. intros Hd. unfold deleteTarget. by rewrite Hd. Qed.

Section delete_wild.
Context {load : json → option json} {setter : json → json → option json}.
Hypothesis Hslot : slot load setter.

Lemma elemDel_beyond (arr : list json) (i : nat) (st : json) :
  load st = Some (JArray arr) → (length arr ≤ i)%nat →
  elemDel load setter (Z.of_nat i) st = Some (false, st).
Proof.
  intros Hload Hi. unfold elemDel. rewrite Hload. cbn [as_array mbind option_bind].
  rewrite (proj2 (Z.leb_le (len arr) (Z.of_nat i))) by (unfold len; lia).
  by rewrite orb_true_r.
Qed.

Lemma elemDel_at (kept rest : list json) (x st : json) :
  load st = Some (JArray (kept ++ x :: rest)) →
  elemDel load setter (Z.of_nat (length kept)) st
  = (st' ← setter (JArray (kept ++ rest)) st; Some (true, st')).
Proof.
  intros Hload. unfold elemDel. rewrite Hload. cbn [as_array mbind option_bind].
  rewrite (proj2 (Z.ltb_ge (Z.of_nat (length kept)) 0)) by lia.
  rewrite (proj2 (Z.leb_gt (len (kept ++ x :: rest)) (Z.of_nat (length kept))))
    by (unfold len; rewrite length_app; simpl; lia).
  cbn [orb]. rewrite Nat2Z.id, take_app_length.
  replace (Z.to_nat (Z.of_nat (length kept) + 1)) with (S (length kept)) by lia.
  by rewrite drop_after_middle.
Qed.

Lemma wild_array_targets (v : list json) :
  walkTargets (JArray v) load setter ["*"]
  = (λ i, mkTarget (elemGet load (Z.of_nat i)) (elemSetter load setter (Z.of_nat i))
            (Some (elemDel load setter (Z.of_nat i)))) <$> seq 0 (length v).
Proof. cbn [walkTargets String.eqb Ascii.eqb Bool.eqb]. by apply concat_imap_singleton. Qed.

(** A target whose index is past the end deletes nothing. *)
Lemma delete_beyond (arr : list json) (indices : list nat) :
  ∀ st c,
    load st = Some (JArray arr) → Forall (λ i, (length arr ≤ i)%nat) indices →
    foldM deleteTarget (c, st)
      ((λ i, mkTarget (elemGet load (Z.of_nat i)) (elemSetter load setter (Z.of_nat i))
               (Some (elemDel load setter (Z.of_nat i)))) <$> indices)
    = Some (c, st).
Proof.
  induction indices as [|i indices IH]; intros st c Hload Hall; [done|].
  apply Forall_cons in Hall as [Hi Hall]. rewrite fmap_cons. cbn [foldM].
  erewrite deleteTarget_eq by reflexivity. rewrite (elemDel_beyond _ _ _ Hload Hi).
  cbn [mbind option_bind]. by apply IH.
Qed.

(** The loop of [applyDelete] over the targets of [*] on an Array.  Each
    target deletes at its own index in the Array as the targets before it
    left it: the first removes the first element, the second then removes
    what was the third, and so on. *)
Lemma delete_wild_loop (n : nat) :
  ∀ kept rest st c,
    load st = Some (JArray (kept ++ rest)) → (length rest ≤ n)%nat →
    foldM deleteTarget (c, st)
      ((λ i, mkTarget (elemGet load (Z.of_nat i)) (elemSetter load setter (Z.of_nat i))
               (Some (elemDel load setter (Z.of_nat i)))) <$> seq (length kept) n)
    = (st' ← setter (JArray (kept ++ odds rest)) st;
       Some (c || bool_decide (rest ≠ []), st')).
Proof.
  induction n as [|n IH]; intros kept rest st c Hload Hlen.
  { destruct rest as [|x rest]; [|simpl in Hlen; lia]. cbn [seq fmap list_fmap foldM odds].
    rewrite app_nil_r in *. rewrite (slot_get_put _ _ Hslot _ _ Hload).
    cbn [mbind option_bind]. by rewrite bool_decide_eq_false_2, orb_false_r by auto. }
  destruct rest as [|x rest1].
  { rewrite (delete_beyond (kept ++ [])); [|done|].
    - cbn [odds]. rewrite app_nil_r in *. rewrite (slot_get_put _ _ Hslot _ _ Hload).
      cbn [mbind option_bind]. by rewrite bool_decide_eq_false_2, orb_false_r by auto.
    - apply Forall_seq. intros j Hj. rewrite app_nil_r. lia. }
  cbn [seq]. rewrite fmap_cons. cbn [foldM].
  erewrite deleteTarget_eq by reflexivity. rewrite (elemDel_at _ _ _ _ Hload).
  destruct (slot_put_get _ _ Hslot st (JArray (kept ++ rest1)))
    as (st1 & Hset & Hload1); [by rewrite Hload|].
  rewrite Hset. cbn [mbind option_bind].
  rewrite bool_decide_eq_true_2, orb_true_r by done.
  destruct rest1 as [|y rest2].
  - rewrite (delete_beyond (kept ++ [])); [|done|].
    + cbn [odds]. by rewrite Hset.
    + apply Forall_seq. intros j Hj. rewrite app_nil_r. lia.
  - rewrite (cons_middle y), app_assoc in Hload1.
    replace (S (length kept)) with (length (kept ++ [y]))
      by (rewrite length_app; simpl; lia).
    rewrite (IH _ _ _ _ Hload1) by (simpl in Hlen; lia).
    cbn [odds orb]. rewrite <-app_assoc. cbn [app].
    by rewrite (slot_put_put _ _ Hslot st st1 _ _ ltac:(by rewrite Hload) Hset).
Qed.

Lemma keyDel_at (m : gmap string json) (k : string) (y st : json) :
  load st = Some (JObject m) → m !! k = Some y →
  keyDel load setter k st = (st' ← setter (JObject (delete k m)) st; Some (true, st')).
Proof.
  intros Hload Hy. unfold keyDel. rewrite Hload. cbn [as_object mbind option_bind].
  by rewrite Hy.
Qed.

Lemma wild_object_targets (m : gmap string json) :
  walkTargets (JObject m) load setter ["*"]
  = (λ kv : string * json,
       mkTarget (keyGet load kv.1) (keySetter load setter kv.1)
         (Some (keyDel load setter kv.1))) <$> map_to_list m.
Proof.
  cbn [walkTargets String.eqb Ascii.eqb Bool.eqb].
  induction (map_to_list m) as [|kv l IH]; [done|].
  rewrite !fmap_cons. cbn [concat app]. by rewrite IH.
Qed.

Lemma delete_keys_loop (l : list (string * json)) :
  ∀ m st c,
    NoDup l.*1 → (∀ k, k ∈ l.*1 → is_Some (m !! k)) →
    load st = Some (JObject m) →
    foldM deleteTarget (c, st)
      ((λ kv : string * json,
          mkTarget (keyGet load kv.1) (keySetter load setter kv.1)
            (Some (keyDel load setter kv.1))) <$> l)
    = (st' ← setter (JObject (foldl (λ m kv, delete kv.1 m) m l)) st;
       Some (c || bool_decide (l ≠ []), st')).
Proof.
  induction l as [|[k x] l IH]; intros m st c Hnd Hin Hload.
  { cbn [fmap list_fmap foldM foldl]. rewrite (slot_get_put _ _ Hslot _ _ Hload).
    cbn [mbind option_bind]. by rewrite bool_decide_eq_false_2, orb_false_r by auto. }
  rewrite fmap_cons in Hnd. apply NoDup_cons in Hnd as [Hk Hnd].
  rewrite fmap_cons. cbn [foldM foldl fst].
  destruct (Hin k) as [y Hy]; [left|].
  erewrite deleteTarget_eq by reflexivity. cbn [fst].
  rewrite (keyDel_at _ _ _ _ Hload Hy).
  destruct (slot_put_get _ _ Hslot st (JObject (delete k m)))
    as (st1 & Hset & Hload1); [by rewrite Hload|].
  rewrite Hset. cbn [mbind option_bind].
  assert (∀ k', k' ∈ l.*1 → is_Some (delete k m !! k')) as Hin'.
  { intros k' Hk'. rewrite lookup_delete_ne; [apply Hin; by right|by intros <-]. }
  rewrite (IH _ _ _ Hnd Hin' Hload1).
  rewrite (bool_decide_eq_true_2 ((k, x) :: l ≠ [])), orb_true_r by done. cbn [orb].
  by rewrite (slot_put_put _ _ Hslot st st1 _ _ ltac:(by rewrite Hload) Hset).
Qed.
End delete_wild.

Lemma delete_all_keys (m : gmap string json) :
  foldl (λ m kv, delete kv.1 m) m (map_to_list m) = ∅.
Proof.
  assert (∀ (l : list (string * json)) (m0 : gmap string json) k,
            foldl (λ m kv, delete kv.1 m) m0 l !! k
            = if decide (k ∈ l.*1) then None else m0 !! k) as Hfold.
  { induction l as [|[k0 x0] l IH]; intros m0 k; [done|].
    cbn [foldl]. rewrite IH, fmap_cons. cbn [fst].
    destruct (decide (k ∈ l.*1)) as [Hin|Hnot].
    - rewrite decide_True; [done|by right].
    - destruct (decide (k = k0)) as [->|Hne].
      + rewrite decide_True by left. apply lookup_delete_eq.
      + rewrite decide_False by (by intros [?|?]%elem_of_cons).
        by apply lookup_delete_ne. }
  apply map_eq. intros k. rewrite Hfold, lookup_empty.
  destruct (decide _) as [|Hnot]; [done|].
  apply not_elem_of_dom. intros Hdom. apply Hnot.
  apply elem_of_dom in Hdom as [x Hx].
  apply list_elem_of_fmap. exists (k, x). split; [done|]. by apply elem_of_map_to_list.
Qed.

(** X18.  Delete through [*] on an Array does not empty it: every target removes
    the element at its index from the Array as it is by then, so the
    elements at the odd positions stay.  This holds for the Array in any
    slot of the tree, and so for the one at the root. *)
Theorem delete_wildcard_array (arr : list json) :
  (∀ load setter st changed,
     slot load setter → load st = Some (JArray arr) →
     foldM deleteTarget (changed, st) (walkTargets (JArray arr) load setter ["*"])
     = (st' ← setter (JArray (odds arr)) st;
        Some (changed || bool_decide (arr ≠ []), st'))) ∧
  applyDelete (JArray arr) "*" = Some (bool_decide (arr ≠ []), JArray (odds arr)).
Proof.
  assert (∀ load setter st changed,
            slot load setter → load st = Some (JArray arr) →
            foldM deleteTarget (changed, st) (walkTargets (JArray arr) load setter ["*"])
            = (st' ← setter (JArray (odds arr)) st;
               Some (changed || bool_decide (arr ≠ []), st'))) as Hloop.
  { intros load setter st changed Hslot Hload. rewrite wild_array_targets.
    by apply (delete_wild_loop Hslot (length arr) [] arr). }
  split; [exact Hloop|].
  unfold applyDelete, findTargets. change (Split "*" ".") with ["*"].
  rewrite (Hloop _ _ _ false slot_root eq_refl). cbn [mbind option_bind orb].
  case_decide as Hlen; [|done].
  rewrite wild_array_targets, length_fmap, length_seq in Hlen.
  apply nil_length_inv in Hlen. by subst arr.
Qed.

(** X19.  Delete through [*] on an Object removes every entry, in any slot of the
    tree and at the root. *)
Theorem delete_wildcard_object (m : gmap string json) :
  (∀ load setter st changed,
     slot load setter → load st = Some (JObject m) →
     foldM deleteTarget (changed, st) (walkTargets (JObject m) load setter ["*"])
     = (st' ← setter (JObject ∅) st; Some (changed || bool_decide (m ≠ ∅), st'))) ∧
  applyDelete (JObject m) "*" = Some (bool_decide (m ≠ ∅), JObject ∅).
Proof.
  assert (bool_decide (map_to_list m ≠ []) = bool_decide (m ≠ ∅)) as Hflag.
  { apply bool_decide_ext. split.
    - intros Hne ->. by rewrite map_to_list_empty in Hne.
    - intros Hne Hnil. by apply map_to_list_empty_iff in Hnil. }
  assert (∀ load setter st changed,
            slot load setter → load st = Some (JObject m) →
            foldM deleteTarget (changed, st) (walkTargets (JObject m) load setter ["*"])
            = (st' ← setter (JObject ∅) st;
               Some (changed || bool_decide (m ≠ ∅), st'))) as Hloop.
  { intros load setter st changed Hslot Hload. rewrite wild_object_targets.
    rewrite (delete_keys_loop Hslot _ m); [|apply NoDup_fst_map_to_list| |done].
    - by rewrite delete_all_keys, Hflag.
    - intros k [[k' x] [-> Hkx%elem_of_map_to_list]]%list_elem_of_fmap. by eexists. }
  split; [exact Hloop|].
  unfold applyDelete, findTargets. change (Split "*" ".") with ["*"].
  rewrite (Hloop _ _ _ false slot_root eq_refl). cbn [mbind option_bind orb].
  case_decide as Hlen; [|done].
  rewrite wild_object_targets, length_fmap in Hlen.
  apply nil_length_inv in Hlen. rewrite <-Hflag, Hlen.
  apply map_to_list_empty_iff in Hlen. by subst m.
Qed.

End any_run_22.

Lemma delete_wildcard_array_witness :
  slot (λ st, Some st) (λ v _, Some v) ∧
  foldM deleteTarget (false, JArray [JInt 1; JInt 2; JInt 3; JInt 4; JInt 5])
    (walkTargets (JArray [JInt 1; JInt 2; JInt 3; JInt 4; JInt 5])
       (λ st, Some st) (λ v _, Some v) ["*"])
  = Some (true, JArray [JInt 2; JInt 4]) ∧
  applyDelete (JArray [JInt 1; JInt 2; JInt 3; JInt 4; JInt 5]) "*"
  = Some (true, JArray [JInt 2; JInt 4]).
Proof.
  split; [exact slot_root|]. split.
  - exact (proj1 (delete_wildcard_array [JInt 1; JInt 2; JInt 3; JInt 4; JInt 5])
             _ _ _ false slot_root eq_refl).
  - exact (proj2 (delete_wildcard_array [JInt 1; JInt 2; JInt 3; JInt 4; JInt 5])).
Defined.

Lemma delete_wildcard_object_witness :
  slot (λ st, Some st) (λ v _, Some v) ∧
  foldM deleteTarget (false, JObject {["a" := JInt 1; "b" := JInt 2]})
    (walkTargets (JObject {["a" := JInt 1; "b" := JInt 2]})
       (λ st, Some st) (λ v _, Some v) ["*"])
  = Some (true, JObject ∅) ∧
  applyDelete (JObject {["a" := JInt 1; "b" := JInt 2]}) "*" = Some (true, JObject ∅).
Proof.
  split; [exact slot_root|]. split.
  - exact (proj1 (delete_wildcard_object {["a" := JInt 1; "b" := JInt 2]})
             _ _ _ false slot_root eq_refl).
  - exact (proj2 (delete_wildcard_object {["a" := JInt 1; "b" := JInt 2]})).
Defined.

(** ** Set and Delete of a key *)

Section any_run_23.
Context {run : Runtime}.

(** X20.  A Set at a key of the Object at the root binds the key to a clone of the
    value, whether or not the key was there, and a Delete of the key then
    gives the Object without it. *)
Theorem set_then_delete_key (m : gmap string json) (key : string) (value : json) :
  Atoi key = None → key ≠ "*" → Split key "." = [key] →
  applySet (JObject m) key value = Some (true, JObject (<[key := clone value]> m)) ∧
  applyDelete (JObject (<[key := clone value]> m)) key = Some (true, JObject (delete key m)).
Proof.
  intros Hkey Hstar Hsplit. split.
  - rewrite applySet_run by (rewrite Hsplit; by apply growable_key).
    unfold findTargets. rewrite Hsplit, (key_segment_on_object _ _ _ _ Hkey Hstar).
    rewrite bool_decide_eq_true_2 by done. cbn [updT].
    apply String.eqb_neq in Hstar. rewrite Hstar, Hkey.
    destruct (m !! key) as [x|] eqn:Hx; [|done].
    by rewrite (map_alter_lookup _ _ _ _ Hx).
  - rewrite (applyDelete_key _ _ Hkey Hstar Hsplit), lookup_insert_eq, delete_insert_eq.
    by rewrite bool_decide_eq_true_2 by eauto.
Qed.

End any_run_23.

Lemma set_then_delete_key_witness :
  Atoi "a" = None ∧ "a" ≠ "*" ∧ Split "a" "." = ["a"] ∧
  applySet (JObject {["b" := JInt 2]}) "a" (JInt 1)
  = Some (true, JObject (<["a" := clone (JInt 1)]> {["b" := JInt 2]})) ∧
  applyDelete (JObject (<["a" := clone (JInt 1)]> {["b" := JInt 2]})) "a"
  = Some (true, JObject (delete "a" {["b" := JInt 2]})).
Proof.
  assert ("a" ≠ "*") as Hstar by discriminate.
  split; [reflexivity|]. split; [exact Hstar|]. split; [reflexivity|].
  exact (set_then_delete_key {["b" := JInt 2]} "a" (JInt 1) eq_refl Hstar eq_refl).
Defined.

(** ** What a target takes and gives back *)

Section any_run_24.
Context {run : Runtime}.

Lemma beyond_limit_not_growable (segments : list string) :
  beyond_limit segments ↔ ¬ growable segments.
Proof.
  split.
  - intros (seg & idx & Hlast & Hidx & Hlim) Hg. specialize (Hg seg idx Hlast Hidx). lia.
  - intros Hng. unfold growable, beyond_limit in *.
    destruct (last segments) as [seg|]; [|by destruct Hng].
    destruct (Atoi seg) as [idx|] eqn:Hidx.
    2:{ destruct Hng. intros s i [= <-]. by rewrite Hidx. }
    destruct (decide (idx < max_len)) as [Hlt|Hge].
    + destruct Hng. intros s i [= <-]. rewrite Hidx. by intros [= <-].
    + exists seg, idx. repeat split; [done|lia].
Qed.

(** The target of an index either takes every value, and then it holds
    something or the index can be grown to, or it holds nothing and the
    index cannot be grown to: then its [set] panics. *)
Lemma index_target_cases (load : json → option json) (setter : json → json → option json)
    (idx : Z) (st : json) (arr : list json) d :
  slot load setter → load st = Some (JArray arr) → 0 ≤ idx → idx ≤ int_max →
  let t := mkTarget (indexGet load idx) (indexSet load setter idx) d in
  (settable t st ∧ (is_Some (get t st) ∨ idx < max_len)) ∨
  (unsettable t st ∧ get t st = None ∧ max_len ≤ idx).
Proof.
  intros Hslot Hload H0 Hmax t.
  assert (∀ v, is_Some (setter v st)) as Hput.
  { intros v. destruct (slot_put_get _ _ Hslot st v) as (st' & Hset & _);
      [by rewrite Hload|by rewrite Hset]. }
  destruct (settable_index Hslot idx st arr d Hload H0 Hmax) as [Hs|Hu].
  - left. split; [done|]. simpl. rewrite (indexGet_array _ _ _ Hload).
    destruct (Z.ltb_spec idx (len arr)) as [Hin|Hout].
    + left. apply lookup_lt_is_Some. unfold len in Hin. lia.
    + right. destruct (decide (idx < max_len)) as [|Hge]; [done|].
      destruct (Hs JNull) as (st' & Hset & _). simpl in Hset.
      rewrite (indexSet_refused _ _ _ arr Hload) in Hset by (done || lia). done.
  - right. split; [done|]. specialize (Hu JNull). simpl in Hu.
    destruct (Z.ltb_spec idx (len arr)) as [Hin|Hout].
    { rewrite (indexSet_in_range _ _ _ _ Hload) in Hu
        by (apply andb_true_iff; by rewrite Z.leb_le, Z.ltb_lt).
      destruct (Hput (JArray (<[Z.to_nat idx := JNull]> arr))) as [? Hsome]. congruence. }
    split.
    + simpl. rewrite (indexGet_array _ _ _ Hload). by rewrite (proj2 (Z.ltb_ge _ _)).
    + destruct (decide (idx < max_len)) as [Hlt|Hge]; [|lia].
      rewrite (indexSet_grow Hslot _ _ _ arr Hload) in Hu by done.
      destruct (Hput (JArray (arr ++ replicate (Z.to_nat idx - length arr) JNull ++ [JNull])))
        as [? Hsome]. congruence.
Qed.

Lemma walk_store_read (segments : list string) :
  ∀ cur load setter st,
    slot load setter → load st = Some cur →
    Forall (λ t, (settable t st ∧ (is_Some (get t st) ∨ growable segments)) ∨
                 (unsettable t st ∧ get t st = None ∧ beyond_limit segments))
      (walkTargets cur load setter segments).
Proof.
  induction segments as [|seg rest IH]; intros cur load setter st Hslot Hload; [constructor|].
  assert (∀ seg' rest' x L S, slot L S → L st = Some x → rest = seg' :: rest' →
            Forall (λ t, (settable t st ∧ (is_Some (get t st) ∨ growable (seg :: rest))) ∨
                         (unsettable t st ∧ get t st = None ∧ beyond_limit (seg :: rest)))
              (walkTargets x L S rest)) as Hdeep.
  { intros seg' rest' x L S HLS HL ->.
    eapply Forall_impl; [by apply IH|]. intros t [[Hs [Hg|Hg]]|(Hu & Hn & Hb)].
    - left. split; [done|by left].
    - left. split; [done|]. right. intros s i Hs'. apply Hg.
      by rewrite last_cons_cons in Hs'.
    - right. split; [done|]. split; [done|].
      destruct Hb as (s & i & Hlast & Hi & Hlim). exists s, i.
      by rewrite last_cons_cons. }
  cbn [walkTargets].
  destruct (String.eqb seg "*").
  - destruct cur as [| | | |v|m]; try constructor.
    + apply Forall_concat_imap. intros i x Hx.
      assert (in_range (Z.of_nat i) v = true) as Hr.
      { rewrite in_range_of_nat. apply bool_decide_eq_true. by eapply lookup_lt_Some. }
      destruct rest as [|seg' rest'].
      * constructor; [|constructor]. left. split; [by eapply settable_elem|].
        left. simpl. rewrite (elemGet_array _ _ _ Hload Hr), Nat2Z.id, Hx. by eexists.
      * eapply Hdeep; [by apply slot_elem| |done].
        by rewrite (elemLoad_array _ _ _ Hload), Hr, Nat2Z.id.
    + apply Forall_concat_fmap. intros [k x] Hkx%elem_of_map_to_list.
      destruct rest as [|seg' rest'].
      * constructor; [|constructor]. left. split; [by eapply settable_key|].
        left. simpl. rewrite (keyGet_object _ _ _ Hload). by eexists.
      * eapply Hdeep; [by apply slot_key| |done]. by rewrite (keyLoad_object _ _ _ Hload).
  - destruct (Atoi seg) as [idx|] eqn:Hidx.
    + destruct cur as [| | | |arr|m]; try constructor.
      destruct (Z.leb_spec 0 idx) as [H0|H0]; [|constructor].
      pose proof (Atoi_range _ _ Hidx) as [_ Hmax].
      destruct rest as [|seg' rest'].
      * constructor; [|constructor].
        destruct (index_target_cases load setter idx st arr
                    (Some (elemDel load setter idx)) Hslot Hload H0 Hmax)
          as [[Hs [Hg|Hg]]|(Hu & Hn & Hb)].
        -- left. split; [done|by left].
        -- left. split; [done|]. right. intros s i [= <-]. rewrite Hidx. by intros [= <-].
        -- right. split; [done|]. split; [done|]. by exists seg, idx.
      * destruct (Z.ltb_spec idx (len arr)) as [Hin|Hout]; [|constructor].
        destruct (arr !! Z.to_nat idx) as [x|] eqn:Hx; [|constructor].
        eapply Hdeep; [by apply slot_elem| |done].
        rewrite (elemLoad_array _ _ _ Hload).
        by rewrite (proj2 (in_range_lt idx arr)) by (unfold len in Hin; lia).
    + destruct cur as [| | | |arr|m]; try constructor.
      destruct rest as [|seg' rest'].
      * constructor; [|constructor]. left. split; [by eapply settable_key|].
        right. by apply growable_key.
      * destruct (m !! seg) as [x|] eqn:Hx; [|constructor].
        eapply Hdeep; [by apply slot_key| |done]. by rewrite (keyLoad_object _ _ _ Hload).
Qed.

(** X21.  Every target of a path, on the tree the path was resolved on,
    is of one of two kinds.  Either it takes any value and then reads it
    back: so it is when it holds something, and when the path does not end
    in an index at or above [max_len], the length above which [make] gives
    no slice.  Or it holds nothing, its path ends in such an index and its
    [set] panics whatever the value. *)
Theorem target_store_read (root : json) (path : string) (t : target) :
  t ∈ findTargets root path →
  ((is_Some (get t root) ∨ growable (Split path ".")) ∧
   ∀ v, ∃ root', set t v root = Some root' ∧ get t root' = Some v) ∨
  (get t root = None ∧
   (∃ seg idx, last (Split path ".") = Some seg ∧ Atoi seg = Some idx ∧ max_len ≤ idx) ∧
   ∀ v, set t v root = None).
Proof.
  intros Ht.
  pose proof (walk_store_read (Split path ".") root (λ st, Some st) (λ v _, Some v) root
                slot_root eq_refl) as Hok.
  rewrite Forall_forall in Hok. destruct (Hok t Ht) as [[Hs Hg]|(Hu & Hnone & Hb)].
  - left. split; [done|]. intros v. destruct (Hs v) as (root' & Hset & Hget & _). eauto.
  - right. split; [done|]. split; [exact Hb|exact Hu].
Qed.

End any_run_24.

Lemma target_store_read_witness :
  target_a ∈ findTargets (object [("a", JInt 1)]) "a" ∧
  (((is_Some (get target_a (object [("a", JInt 1)])) ∨ growable (Split "a" ".")) ∧
    ∀ v, ∃ root', set target_a v (object [("a", JInt 1)]) = Some root' ∧
                  get target_a root' = Some v) ∨
   (get target_a (object [("a", JInt 1)]) = None ∧
    (∃ seg idx, last (Split "a" ".") = Some seg ∧ Atoi seg = Some idx ∧ max_len ≤ idx) ∧
    ∀ v, set target_a v (object [("a", JInt 1)]) = None)).
Proof.
  assert (target_a ∈ findTargets (object [("a", JInt 1)]) "a") as Hin.
  { assert (findTargets (object [("a", JInt 1)]) "a" = [target_a]) as ->
      by (vm_compute; reflexivity).
    left. }
  split; [exact Hin|].
  exact (target_store_read _ "a" target_a Hin).
Defined.

(** ** [deepEqual] of a value with itself *)

Section any_run_25.
Context {run : Runtime}.

(** X22.  A value that holds no NaN, as every value that [json.Unmarshal] builds,
    is [deepEqual] to itself and to its clone. *)
Theorem deepEqual_reflexive (v : json) :
  decoded v = true → deepEqual v v = true ∧ deepEqual (clone v) v = true.
Proof. intros Hd. rewrite clone_id. split; by apply deepEqual_refl. Qed.

End any_run_25.

Lemma deepEqual_reflexive_witness :
  decoded (object [("a", JArray [JInt 1; JNull])]) = true ∧
  deepEqual (object [("a", JArray [JInt 1; JNull])]) (object [("a", JArray [JInt 1; JNull])])
  = true ∧
  deepEqual (clone (object [("a", JArray [JInt 1; JNull])]))
    (object [("a", JArray [JInt 1; JNull])]) = true.
Proof.
  assert (decoded (object [("a", JArray [JInt 1; JNull])]) = true) as Hd
    by (vm_compute; reflexivity).
  split; [exact Hd|].
  exact (deepEqual_reflexive _ Hd).
Defined.

(** ** Actions that change nothing *)

Section any_run_26.
Context {run : Runtime}.

Lemma findTargets_scalar (root : json) (path : string) :
  scalar root = true → findTargets root path = [].
Proof.
  intros Hs. unfold findTargets. destruct (Split_cons path ".") as (seg & rest & ->).
  cbn [walkTargets]. destruct (String.eqb seg "*"); [by destruct root|].
  destruct (Atoi seg); by destruct root.
Qed.

Lemma applySet_quiet (root : json) (path : string) (value : json) (root' : json) :
  applySet root path value = Some (false, root') → root' = root.
Proof.
  unfold applySet. case_decide; [by intros [= <-]|].
  by destruct (foldM _ _ _).
Qed.

Lemma applyMerge_quiet (root : json) (path : string) (value : json)
    (err : option error) (root' : json) :
  value ≠ JObject ∅ →
  applyMerge root path value = Some (false, err, root') → root' = root.
Proof.
  intros Hval. unfold applyMerge, findTargets.
  destruct (Split_cons path ".") as (seg & rest & ->).
  case_decide; [by intros [= <- <-]|].
  destruct value as [| | | | |src]; try (by intros [= <- <-]).
  destruct (foldM _ _ _) as [[c r]|] eqn:Hf; simpl; [|done].
  intros [= -> <- <-].
  destruct (walk_fold (mergeVal src) (mergeTarget src) (mergeTarget_spec src)
              rest seg root _ _ root false false r slot_root eq_refl Hf) as [Hr Hc].
  assert (r = updT (mergeVal src) (seg :: rest) root) as -> by congruence.
  apply (updT_quiet (mergeVal src)); [|done].
  intros c. apply mergeVal_quiet. congruence.
Qed.

Lemma applyDelete_quiet (root : json) (path : string) (root' : json) :
  applyDelete root path = Some (false, root') → root' = root.
Proof.
  unfold applyDelete. case_decide; [by intros [= <-]|].
  apply deleteTargets_quiet, walk_del_quiet.
Qed.

Section quiet.
Context `{RegexpPkg} `{JsonPkg} `{CaddyPkg}.

Lemma applyTransformArray_quiet (root : json) (path : string) (re : Regexp)
    (replacements : list string) (root' : json) :
  applyTransformArray root path re replacements = Some (false, root') → root' = root.
Proof.
  rewrite applyTransformArray_run. intros [= Hc <-].
  apply updT_quiet; [|done]. intros c. unfold transformVal.
  destruct c as [[| | | |arr|]|]; try done. by destruct (existsb _ arr).
Qed.

Lemma applyMergeIfMatch_quiet (root : json) (sourcePath targetPath : string)
    (re : Regexp) (value : json) (err : option error) (root' : json) :
  value ≠ JObject ∅ →
  applyMergeIfMatch root sourcePath targetPath re value = Some (false, err, root') →
  root' = root.
Proof.
  intros Hval. unfold applyMergeIfMatch. destruct (negb _); [by intros [= <- <-]|].
  by apply applyMerge_quiet.
Qed.

Lemma applyActions_from_true (actions : list Action) (r : Request) (root : json)
    (m : bool) (err : option error) (root' : json) :
  applyActions_from true root actions r = Some (m, err, root') → m = true.
Proof.
  rewrite applyActions_from_flag.
  destruct (applyActions_from false root actions r) as [[[c e] rt]|]; [|done].
  by intros [= <- _ _].
Qed.

Lemma applyActions_from_quiet (actions : list Action) (r : Request) :
  Forall (λ a, Type_ a = "merge" ∨ Type_ a = "merge_if_match" →
               compiledValue a ≠ JObject ∅) actions →
  ∀ root err root',
    applyActions_from false root actions r = Some (false, err, root') → root' = root.
Proof.
  induction 1 as [|act rest Hact _ IH]; intros root err root'; [by intros [= <- <-]|].
  cbn [applyActions_from].
  assert (∀ ch root1,
            (ch = false → root1 = root) →
            applyActions_from (false || ch) root1 rest r = Some (false, err, root') →
            root' = root) as Htail.
  { intros [|] root1 Hq; simpl; [by intros ?%applyActions_from_true|].
    rewrite <-(Hq eq_refl). apply IH. }
  destruct (match matcher act with Some me => negb (Match me r) | None => false end);
    [apply IH|].
  destruct (String.eqb_spec (Type_ act) "set") as [_|_].
  { destruct (applySet _ _ _) as [[ch root1]|] eqn:Hs; simpl; [|done].
    apply Htail. intros ->. by apply applySet_quiet in Hs. }
  destruct (String.eqb_spec (Type_ act) "merge") as [Hty|_].
  { destruct (applyMerge _ _ _) as [[[ch e] root1]|] eqn:Hm; simpl; [|done].
    destruct e as [e|].
    - intros [= <- <-]. apply applyMerge_error in Hm as (_ & _ & -> & _). done.
    - apply Htail. intros ->. apply applyMerge_quiet in Hm; auto. }
  destruct (String.eqb_spec (Type_ act) "delete") as [_|_].
  { destruct (applyDelete _ _) as [[ch root1]|] eqn:Hd; simpl; [|done].
    apply Htail. intros ->. by apply applyDelete_quiet in Hd. }
  destruct (String.eqb_spec (Type_ act) "transform_array") as [_|_].
  { destruct (compiledRegex act) as [re|]; simpl; [|done].
    destruct (applyTransformArray _ _ _ _) as [[ch root1]|] eqn:Ht; simpl; [|done].
    apply Htail. intros ->. by apply applyTransformArray_quiet in Ht. }
  destruct (String.eqb_spec (Type_ act) "merge_if_match") as [Hty|_].
  { destruct (compiledRegex act) as [re|]; simpl; [|done].
    destruct (applyMergeIfMatch _ _ _ _ _) as [[[ch e] root1]|] eqn:Hm; simpl; [|done].
    destruct e as [e|].
    - intros [= <- <-]. unfold applyMergeIfMatch in Hm.
      destruct (negb _); [discriminate|].
      by apply applyMerge_error in Hm as (_ & _ & -> & _).
    - apply Htail. intros ->. apply applyMergeIfMatch_quiet in Hm; auto. }
  by intros [= <- <-].
Qed.

(** X23.  When [applyActions] reports no mutation, with or without an error, the
    tree it leaves is the tree it was given, provided no Merge or
    MergeIfMatch has the empty Object for its value.  (The handler writes
    the body again only after a mutation was reported.) *)
Theorem applyActions_quiet (root : json) (actions : list Action) (r : Request)
    (err : option error) (root' : json) :
  Forall (λ a, Type_ a = "merge" ∨ Type_ a = "merge_if_match" →
               compiledValue a ≠ JObject ∅) actions →
  applyActions root actions r = Some (false, err, root') → root' = root.
Proof. intros Hall. by apply applyActions_from_quiet. Qed.

Lemma applyActions_from_scalar (actions : list Action) (r : Request) (root : json)
    (m : bool) :
  scalar root = true → Forall compiled actions →
  applyActions_from m root actions r = Some (m, None, root).
Proof.
  intros Hs. induction 1 as [|act rest Hact _ IH]; [done|].
  cbn [applyActions_from].
  destruct (match matcher act with Some me => negb (Match me r) | None => false end);
    [apply IH|].
  destruct Hact as (Hty & Htr & Hmim & _).
  unfold applySet, applyMerge, applyDelete, applyTransformArray, applyMergeIfMatch.
  rewrite !findTargets_scalar by done. cbn [length matchSources negb].
  destruct (String.eqb_spec (Type_ act) "set") as [_|Hn1].
  { rewrite decide_True by done. simpl. by rewrite orb_false_r. }
  destruct (String.eqb_spec (Type_ act) "merge") as [_|Hn2].
  { rewrite decide_True by done. simpl. by rewrite orb_false_r. }
  destruct (String.eqb_spec (Type_ act) "delete") as [_|Hn3].
  { rewrite decide_True by done. simpl. by rewrite orb_false_r. }
  destruct (String.eqb_spec (Type_ act) "transform_array") as [Hty'|Hn4].
  { destruct (Htr Hty') as [[re ->] _]. cbn [mbind option_bind].
    rewrite decide_True by done. simpl. by rewrite orb_false_r. }
  destruct (String.eqb_spec (Type_ act) "merge_if_match") as [Hty'|Hn5].
  { destruct (Hmim Hty') as [[re ->] _]. simpl. by rewrite orb_false_r. }
  repeat (apply elem_of_cons in Hty as [Hty|Hty]; [done|]).
  by apply elem_of_nil in Hty.
Qed.

(** X24.  A body that is a string, a number, a boolean or [null] has no target
    for any path: actions that [compile] has accepted leave it as it is,
    report no mutation and return no error. *)
Theorem scalar_body_untouched (root : json) (actions : list Action) (r : Request) :
  scalar root = true → Forall compiled actions →
  (∀ path, findTargets root path = []) ∧
  applyActions root actions r = Some (false, None, root).
Proof.
  intros Hs Hall. split; [intros path; by apply findTargets_scalar|].
  by apply applyActions_from_scalar.
Qed.
End quiet.

End any_run_26.

Lemma applyActions_quiet_witness :
  Forall (λ a, Type_ a = "merge" ∨ Type_ a = "merge_if_match" →
               compiledValue a ≠ JObject ∅)
    [(compile delete_a_c).1; (compile set_a_b_10).1] ∧
  applyActions (object [("b", JInt 1)]) [(compile delete_a_c).1; (compile set_a_b_10).1] tt
  = Some (false, None, object [("b", JInt 1)]) ∧
  object [("b", JInt 1)] = object [("b", JInt 1)].
Proof.
  assert (Forall (λ a, Type_ a = "merge" ∨ Type_ a = "merge_if_match" →
                       compiledValue a ≠ JObject ∅)
            [(compile delete_a_c).1; (compile set_a_b_10).1]) as Hall.
  { repeat (constructor; [intros [Hty|Hty]; vm_compute in Hty; discriminate|]).
    constructor. }
  assert (applyActions (object [("b", JInt 1)])
            [(compile delete_a_c).1; (compile set_a_b_10).1] tt
          = Some (false, None, object [("b", JInt 1)])) as Hrun
    by (vm_compute; reflexivity).
  split; [exact Hall|]. split; [exact Hrun|].
  exact (applyActions_quiet _ _ tt _ _ Hall Hrun).
Defined.

Lemma scalar_body_untouched_witness :
  scalar (JString "body") = true ∧
  Forall compiled [(compile set_a_b_10).1; (compile mirror_action).1;
                   (compile options_action).1; (compile merge_a_5).1] ∧
  applyActions (JString "body")
    [(compile set_a_b_10).1; (compile mirror_action).1;
     (compile options_action).1; (compile merge_a_5).1] tt
  = Some (false, None, JString "body").
Proof.
  assert (Forall compiled [(compile set_a_b_10).1; (compile mirror_action).1;
                           (compile options_action).1; (compile merge_a_5).1]) as Hall.
  { repeat (constructor; [apply compile_compiled; vm_compute; reflexivity|]).
    constructor. }
  split; [reflexivity|]. split; [exact Hall|].
  exact (proj2 (scalar_body_untouched (JString "body") _ tt eq_refl Hall)).
Defined.

(** [TestApplyActionsSetAndDelete] of the repository, on the embedding. *)
Example test_set_and_delete :
  applyActions
    (object [("a", object [("b", JInt 1); ("c", JInt 2)]);
             ("arr", JArray [JInt 1; JInt 2; JInt 3])])
    [(compile set_a_b_10).1; (compile delete_a_c).1] tt
  = Some (true, None,
          object [("a", object [("b", JInt 10)]); ("arr", JArray [JInt 1; JInt 2; JInt 3])]).
Proof. vm_compute. reflexivity. Qed.

(** ** The loop of [applyDelete], as an update of the tree *)

Section any_run_27.
Context {run : Runtime}.

Section loop_runs.
Variable step : bool * json → target → option (bool * json).
Context {load : json → option json} {setter : json → json → option json}.
Hypothesis Hslot : slot load setter.

Lemma array_loop_run (F : nat → json → list target) (f : json → json) (g : json → bool) :
  (∀ i x st c, elemLoad load (Z.of_nat i) st = Some x →
     foldM step (c, st) (F i x)
     = (st' ← elemSetter load setter (Z.of_nat i) (f x) st; Some (c || g x, st'))) →
  ∀ v st c,
    load st = Some (JArray v) →
    foldM step (c, st) (concat (imap F v))
    = (st' ← setter (JArray (f <$> v)) st; Some (c || existsb g v, st')).
Proof.
  intros Hchild v st c Hload.
  assert (∀ i x st c c' st', elemLoad load (Z.of_nat i) st = Some x →
            foldM step (c, st) (F i x) = Some (c', st') →
            elemSetter load setter (Z.of_nat i) (f x) st = Some st' ∧ c' = c || g x)
    as Heffect.
  { intros i x st0 c0 c0' st0' Hx. rewrite (Hchild _ _ _ _ Hx).
    destruct (elemSetter _ _ _ _ st0) as [st1|]; simpl; [|done]. by intros [= <- <-]. }
  assert (∀ i x st c, elemLoad load (Z.of_nat i) st = Some x →
            is_Some (foldM step (c, st) (F i x))) as Htotal.
  { intros i x st0 c0 Hx. rewrite (Hchild _ _ _ _ Hx).
    destruct (slot_put_get _ _ (slot_elem Hslot (Z.of_nat i)) st0 (f x)) as (st1 & -> & _);
      [by rewrite Hx|done]. }
  destruct (array_loop_total step Hslot F f g Heffect Htotal v [] st c Hload)
    as [[c' st'] Hfold].
  destruct (walk_array_loop step Hslot F f g Heffect v [] st c c' st' Hload Hfold)
    as [Hset ->].
  change (foldM step (c, st) (concat (imap F v)) = Some (c || existsb g v, st')) in Hfold.
  change (setter (JArray (f <$> v)) st = Some st') in Hset.
  by rewrite Hfold, Hset.
Qed.

Lemma object_loop_run (F : string → json → list target) (f : json → json)
    (g : json → bool) :
  (∀ k x st c, keyLoad load k st = Some x →
     foldM step (c, st) (F k x)
     = (st' ← keySetter load setter k (f x) st; Some (c || g x, st'))) →
  ∀ m st c,
    load st = Some (JObject m) →
    foldM step (c, st) (concat ((λ kv, F kv.1 kv.2) <$> map_to_list m))
    = (st' ← setter (JObject (f <$> m)) st;
       Some (c || existsb (λ kv, g kv.2) (map_to_list m), st')).
Proof.
  intros Hchild m st c Hload.
  assert (is_Some (foldM step (c, st) (concat ((λ kv, F kv.1 kv.2) <$> map_to_list m))))
    as [[c' st'] Hfold].
  { apply (object_loop_total step Hslot F f g) with (m := m);
      [| |apply NoDup_fst_map_to_list| |exact Hload].
    - intros k x st0 c0 c0' st0' Hx. rewrite (Hchild _ _ _ _ Hx).
      destruct (keySetter _ _ _ _ st0) as [st1|]; simpl; [|done]. by intros [= <- <-].
    - intros k x st0 c0 Hx. rewrite (Hchild _ _ _ _ Hx).
      destruct (slot_put_get _ _ (slot_key Hslot k) st0 (f x)) as (st1 & -> & _);
        [by rewrite Hx|done].
    - intros k x. apply elem_of_map_to_list. }
  rewrite Hfold.
  destruct (walk_object_loop step Hslot F f g) with
    (l := map_to_list m) (m := m) (st := st) (c := c) (c' := c') (st' := st')
    as [Hset ->]; [|apply NoDup_fst_map_to_list| |exact Hload|exact Hfold|].
  - intros k x st0 c0 c0' st0' Hx. rewrite (Hchild _ _ _ _ Hx).
    destruct (keySetter _ _ _ _ st0) as [st1|]; simpl; [|done]. by intros [= <- <-].
  - intros k x. apply elem_of_map_to_list.
  - rewrite foldl_insert_fmap in Hset. by rewrite Hset.
Qed.
End loop_runs.

Lemma delete_fold (segments : list string) :
  ∀ cur load setter st c,
    slot load setter → load st = Some cur →
    foldM deleteTarget (c, st) (walkTargets cur load setter segments)
    = (st' ← setter (delT segments cur) st; Some (c || delC segments cur, st')).
Proof.
  induction segments as [|seg rest IH]; intros cur load setter st c Hslot Hload.
  { simpl. rewrite (slot_get_put _ _ Hslot _ _ Hload). simpl. by rewrite orb_false_r. }
  assert (foldM deleteTarget (c, st) [] = (st' ← setter cur st; Some (c || false, st')))
    as Hnil.
  { simpl. rewrite (slot_get_put _ _ Hslot _ _ Hload). simpl. by rewrite orb_false_r. }
  destruct rest as [|seg' rest'] eqn:Hrest.
  - (* the last segment *)
    destruct (String.eqb seg "*") eqn:Hstar.
    + apply String.eqb_eq in Hstar as ->.
      destruct cur as [| | | |v|m];
        try (cbn [walkTargets delT delC String.eqb Ascii.eqb Bool.eqb]; exact Hnil).
      * rewrite wild_array_targets.
        by rewrite (delete_wild_loop Hslot (length v) [] v).
      * rewrite wild_object_targets.
        rewrite (delete_keys_loop Hslot _ m); [|apply NoDup_fst_map_to_list| |done].
        -- rewrite delete_all_keys. cbn [delT delC String.eqb Ascii.eqb Bool.eqb].
           assert (bool_decide (map_to_list m ≠ []) = bool_decide (m ≠ ∅)) as ->; [|done].
           apply bool_decide_ext. split.
           ++ intros Hne ->. by rewrite map_to_list_empty in Hne.
           ++ intros Hne Hnil'. by apply map_to_list_empty_iff in Hnil'.
        -- intros k [[k' x] [-> Hkx%elem_of_map_to_list]]%list_elem_of_fmap. by eexists.
    + cbn [walkTargets delT delC]. rewrite Hstar.
      destruct (Atoi seg) as [idx|] eqn:Hidx.
      * destruct cur as [| | | |arr|m]; try exact Hnil.
        destruct (Z.leb_spec 0 idx) as [H0|H0]; [|exact Hnil].
        cbn [foldM]. erewrite deleteTarget_eq by reflexivity.
        unfold elemDel. rewrite Hload. cbn [as_array mbind option_bind].
        rewrite (proj2 (Z.ltb_ge _ _)) by done. cbn [orb]. rewrite delete_take_drop.
        destruct (Z.leb_spec (len arr) idx) as [Hout|Hin].
        -- rewrite bool_decide_eq_false_2 by lia.
           unfold len in Hout. rewrite take_ge, drop_ge, app_nil_r by lia.
           rewrite (slot_get_put _ _ Hslot _ _ Hload). simpl. by rewrite orb_false_r.
        -- rewrite bool_decide_eq_true_2 by done.
           rewrite Z2Nat.inj_add, Nat.add_1_r by lia.
           destruct (setter (JArray (take _ arr ++ drop _ arr)) st) as [st1|]; simpl;
             [|done].
           by rewrite orb_true_r.
      * destruct cur as [| | | |arr|m]; try exact Hnil.
        cbn [foldM]. erewrite deleteTarget_eq by reflexivity.
        unfold keyDel. rewrite Hload. cbn [as_object mbind option_bind].
        destruct (m !! seg) as [x|] eqn:Hx.
        -- rewrite bool_decide_eq_true_2 by eauto.
           destruct (setter (JObject (delete seg m)) st) as [st1|]; simpl; [|done].
           by rewrite orb_true_r.
        -- rewrite bool_decide_eq_false_2 by (by intros [? ?]).
           rewrite delete_id by done.
           rewrite (slot_get_put _ _ Hslot _ _ Hload). simpl. by rewrite orb_false_r.
  - (* a segment on the way *)
    rewrite <-Hrest in *. 
    assert (match rest with [] => true | _ => false end = false) as Hlast by (by subst rest).
    cbn [walkTargets delT delC]. rewrite Hlast.
    destruct (String.eqb seg "*") eqn:Hstar.
    + destruct cur as [| | | |v|m]; try exact Hnil.
      * apply (array_loop_run deleteTarget Hslot
                 (λ i vi, walkTargets vi (elemLoad load (Z.of_nat i))
                            (elemSetter load setter (Z.of_nat i)) rest)
                 (delT rest) (delC rest)); [|exact Hload].
        intros i x st0 c0 Hx. apply IH; [by apply slot_elem|done].
      * apply (object_loop_run deleteTarget Hslot
                 (λ k x, walkTargets x (keyLoad load k) (keySetter load setter k) rest)
                 (delT rest) (delC rest)); [|exact Hload].
        intros k x st0 c0 Hx. apply IH; [by apply slot_key|done].
    + destruct (Atoi seg) as [idx|] eqn:Hidx.
      * destruct cur as [| | | |arr|m]; try exact Hnil.
        destruct (Z.leb_spec 0 idx) as [H0|H0]; [|exact Hnil].
        destruct (Z.ltb_spec idx (len arr)) as [Hin|Hout]; [|exact Hnil].
        assert (in_range idx arr = true) as Hr.
        { apply andb_true_iff. by rewrite Z.leb_le, Z.ltb_lt. }
        destruct (arr !! Z.to_nat idx) as [x|] eqn:Hx.
        2:{ apply lookup_ge_None in Hx. unfold len in Hin. lia. }
        rewrite (IH x (elemLoad load idx) (elemSetter load setter idx) st c
                   (slot_elem Hslot idx)) by (by rewrite (elemLoad_array _ _ _ Hload), Hr).
        by rewrite (elemSetter_array _ _ _ _ Hload Hr), (list_alter_lookup _ _ _ _ Hx).
      * destruct cur as [| | | |arr|m]; try exact Hnil.
        destruct (m !! seg) as [x|] eqn:Hx; [|exact Hnil].
        rewrite (IH x (keyLoad load seg) (keySetter load setter seg) st c
                   (slot_key Hslot seg)) by (by rewrite (keyLoad_object _ _ _ Hload)).
        by rewrite (keySetter_object _ _ _ _ Hload), (map_alter_lookup _ _ _ _ Hx).
Qed.

Lemma applyDelete_run (root : json) (path : string) :
  applyDelete root path
  = Some (delC (Split path ".") root, delT (Split path ".") root).
Proof.
  unfold applyDelete, findTargets.
  pose proof (delete_fold (Split path ".") root (λ st, Some st) (λ v _, Some v) root false
                slot_root eq_refl) as Hrun.
  simpl in Hrun. rewrite Hrun. case_decide as Hlen; [|done].
  apply nil_length_inv in Hlen. rewrite Hlen in Hrun. simpl in Hrun. by rewrite <-Hrun.
Qed.

(** X25.  [applyDelete] never panics: a target whose element or key is gone by
    the time its turn comes deletes nothing.  When no change is reported the
    tree is the one it was given. *)
Theorem delete_runs (root : json) (path : string) :
  ∃ changed root',
    applyDelete root path = Some (changed, root') ∧ (changed = false → root' = root).
Proof.
  eexists _, _. split; [apply applyDelete_run|].
  intros Hc. apply (applyDelete_quiet root path). rewrite applyDelete_run. by rewrite Hc.
Qed.

(** ** [applyActions] runs to its end *)

Lemma applyMerge_total (root : json) (path : string) (value : json) :
  growable (Split path ".") → is_Some (applyMerge root path value).
Proof.
  intros Hgrow. destruct value as [| | | | |src];
    try (unfold applyMerge; by case_decide).
  by rewrite applyMerge_run.
Qed.

Section runs.
Context `{RegexpPkg} `{JsonPkg} `{CaddyPkg}.

Lemma applyActions_from_total (actions : list Action) (r : Request) :
  Forall compiled actions → Forall storable actions →
  ∀ m root, is_Some (applyActions_from m root actions r).
Proof.
  induction 1 as [|act rest Hact _ IH]; intros Hst m root; [done|].
  apply Forall_cons in Hst as [[Hpath Htarget] Hst]. specialize (IH Hst).
  cbn [applyActions_from].
  destruct (match matcher act with Some me => negb (Match me r) | None => false end);
    [apply IH|].
  destruct Hact as (Hty & Htr & Hmim & _).
  destruct (String.eqb_spec (Type_ act) "set") as [Hty'|Hn1].
  { rewrite applySet_run by auto. apply IH. }
  destruct (String.eqb_spec (Type_ act) "merge") as [Hty'|Hn2].
  { destruct (applyMerge_total root (Path act) (compiledValue act)) as [[[ch e] root1] ->];
      [auto|].
    destruct e; [done|apply IH]. }
  destruct (String.eqb_spec (Type_ act) "delete") as [_|Hn3].
  { rewrite applyDelete_run. apply IH. }
  destruct (String.eqb_spec (Type_ act) "transform_array") as [Hty'|Hn4].
  { destruct (Htr Hty') as [[re ->] _]. cbn [mbind option_bind].
    rewrite applyTransformArray_run. apply IH. }
  destruct (String.eqb_spec (Type_ act) "merge_if_match") as [Hty'|Hn5]; [|done].
  destruct (Hmim Hty') as [[re ->] _]. cbn [mbind option_bind].
  unfold applyMergeIfMatch. destruct (negb _); [apply IH|].
  destruct (applyMerge_total root (Target act) (compiledValue act)) as [[[ch e] root1] ->];
    [auto|].
  destruct e; [done|apply IH].
Qed.

(** X26.  [applyActions] does not panic on actions that [compile] has accepted,
    whatever the tree and the request, as long as no path that an action
    stores at ends in an index at or above [max_len], the length above
    which the run gets no slice from [make] (at most [2^44]).  The
    matchers and the expressions are those of the packages assumed. *)
Theorem applyActions_runs (root : json) (actions : list Action) (r : Request) :
  Forall compiled actions → Forall storable actions →
  ∃ mutated err root', applyActions root actions r = Some (mutated, err, root').
Proof.
  intros Hc Hs. destruct (applyActions_from_total actions r Hc Hs false root)
    as [[[mutated err] root'] Hrun].
  by exists mutated, err, root'.
Qed.
End runs.

End any_run_27.

Lemma applyActions_runs_witness :
  Forall compiled [(compile set_a_b_10).1; (compile delete_a_c).1] ∧
  Forall storable [(compile set_a_b_10).1; (compile delete_a_c).1] ∧
  ∃ mutated err root',
    applyActions (JArray []) [(compile set_a_b_10).1; (compile delete_a_c).1] tt
    = Some (mutated, err, root').
Proof.
  assert (Forall compiled [(compile set_a_b_10).1; (compile delete_a_c).1]) as Hc.
  { repeat (constructor; [apply compile_compiled; vm_compute; reflexivity|]).
    constructor. }
  assert (Forall storable [(compile set_a_b_10).1; (compile delete_a_c).1]) as Hs.
  { constructor; [|constructor; [|constructor]].
    - split; [intros _|intros Hty; vm_compute in Hty; discriminate].
      intros seg idx Hseg Hidx. vm_compute in Hseg. injection Hseg as <-. discriminate Hidx.
    - split; [intros [Hty|Hty]; vm_compute in Hty; discriminate
             |intros Hty; vm_compute in Hty; discriminate]. }
  split; [exact Hc|]. split; [exact Hs|].
  exact (applyActions_runs (JArray []) _ tt Hc Hs).
Defined.
